(** * PML slab update kernels and the fractal generator of gprMax

    This development embeds the Cython kernels of
    [gprMax/cython/pml_updates_magnetic_HORIPML.pyx] and
    [gprMax/cython/pml_updates_electric_MRIPML.pyx] (the latter file also
    carries [generate_fractal2D] and [generate_fractal3D]) and states their properties.

    Modelling conventions.
    - [float_or_double] values are real numbers ([R]): the kernels are
      studied as exact arithmetic, rounding is not modelled.
    - C integers ([int], [Py_ssize_t], [np.uint32_t]) are unbounded [Z].
    - A memoryview is a total map from its indices to its elements; the
      source is compiled without bounds checks, so shapes are a
      precondition of the caller and are not represented.  The memoryviews
      handed to one call are distinct arrays.
    - A kernel call is a function from the memory before the call to the
      memory after it.  All fifteen arrays of a call live in [mem], also
      the ones a kernel only reads.
    - Division is the one operation that can raise: Cython checks the
      divisor and raises [ZeroDivisionError] when it is zero.
      Kernels are written once over an evaluation mode [Eval]: [Exact]
      computes with real division and never raises, [Checked] returns
      [None] at the first division by zero.  Whatever a checked call
      returns is what the exact call computes ([kernel_checked_agree]), so
      the update laws below, stated in exact mode, describe every call
      that does not raise.
    - [prange] runs its iterations in increasing order: the iterations of a
      kernel write disjoint cells and read no cell another one writes. *)

From Stdlib Require Import Reals ZArith Lia Lra Bool.

Open Scope Z_scope.
Open Scope R_scope.

(** ** Arrays *)

Definition upd3 (A : Z -> Z -> Z -> R) (i j k : Z) (v : R) : Z -> Z -> Z -> R :=
  fun i' j' k' =>
    if (i' =? i)%Z && (j' =? j)%Z && (k' =? k)%Z then v else A i' j' k'.

Definition upd4 (A : Z -> Z -> Z -> Z -> R) (o i j k : Z) (v : R)
  : Z -> Z -> Z -> Z -> R :=
  fun o' i' j' k' =>
    if (o' =? o)%Z && (i' =? i)%Z && (j' =? j)%Z && (k' =? k)%Z
    then v else A o' i' j' k'.

(** ** Memory of one kernel call *)

Record mem : Type := mkmem {
  updatecoeffsE : Z -> Z -> R;
  updatecoeffsH : Z -> Z -> R;
  ID : Z -> Z -> Z -> Z -> Z;
  Ex : Z -> Z -> Z -> R;
  Ey : Z -> Z -> Z -> R;
  Ez : Z -> Z -> Z -> R;
  Hx : Z -> Z -> Z -> R;
  Hy : Z -> Z -> Z -> R;
  Hz : Z -> Z -> Z -> R;
  Phi1 : Z -> Z -> Z -> Z -> R;
  Phi2 : Z -> Z -> Z -> Z -> R;
  RA : Z -> Z -> R;
  RB : Z -> Z -> R;
  RE : Z -> Z -> R;
  RF : Z -> Z -> R
}.

Definition set_Ex (m : mem) (i j k : Z) (v : R) : mem :=
  {| updatecoeffsE := updatecoeffsE m;
     updatecoeffsH := updatecoeffsH m;
     ID := ID m;
     Ex := upd3 (Ex m) i j k v;
     Ey := Ey m;
     Ez := Ez m;
     Hx := Hx m;
     Hy := Hy m;
     Hz := Hz m;
     Phi1 := Phi1 m;
     Phi2 := Phi2 m;
     RA := RA m;
     RB := RB m;
     RE := RE m;
     RF := RF m |}.

Definition set_Ey (m : mem) (i j k : Z) (v : R) : mem :=
  {| updatecoeffsE := updatecoeffsE m;
     updatecoeffsH := updatecoeffsH m;
     ID := ID m;
     Ex := Ex m;
     Ey := upd3 (Ey m) i j k v;
     Ez := Ez m;
     Hx := Hx m;
     Hy := Hy m;
     Hz := Hz m;
     Phi1 := Phi1 m;
     Phi2 := Phi2 m;
     RA := RA m;
     RB := RB m;
     RE := RE m;
     RF := RF m |}.

Definition set_Ez (m : mem) (i j k : Z) (v : R) : mem :=
  {| updatecoeffsE := updatecoeffsE m;
     updatecoeffsH := updatecoeffsH m;
     ID := ID m;
     Ex := Ex m;
     Ey := Ey m;
     Ez := upd3 (Ez m) i j k v;
     Hx := Hx m;
     Hy := Hy m;
     Hz := Hz m;
     Phi1 := Phi1 m;
     Phi2 := Phi2 m;
     RA := RA m;
     RB := RB m;
     RE := RE m;
     RF := RF m |}.

Definition set_Hx (m : mem) (i j k : Z) (v : R) : mem :=
  {| updatecoeffsE := updatecoeffsE m;
     updatecoeffsH := updatecoeffsH m;
     ID := ID m;
     Ex := Ex m;
     Ey := Ey m;
     Ez := Ez m;
     Hx := upd3 (Hx m) i j k v;
     Hy := Hy m;
     Hz := Hz m;
     Phi1 := Phi1 m;
     Phi2 := Phi2 m;
     RA := RA m;
     RB := RB m;
     RE := RE m;
     RF := RF m |}.

Definition set_Hy (m : mem) (i j k : Z) (v : R) : mem :=
  {| updatecoeffsE := updatecoeffsE m;
     updatecoeffsH := updatecoeffsH m;
     ID := ID m;
     Ex := Ex m;
     Ey := Ey m;
     Ez := Ez m;
     Hx := Hx m;
     Hy := upd3 (Hy m) i j k v;
     Hz := Hz m;
     Phi1 := Phi1 m;
     Phi2 := Phi2 m;
     RA := RA m;
     RB := RB m;
     RE := RE m;
     RF := RF m |}.

Definition set_Hz (m : mem) (i j k : Z) (v : R) : mem :=
  {| updatecoeffsE := updatecoeffsE m;
     updatecoeffsH := updatecoeffsH m;
     ID := ID m;
     Ex := Ex m;
     Ey := Ey m;
     Ez := Ez m;
     Hx := Hx m;
     Hy := Hy m;
     Hz := upd3 (Hz m) i j k v;
     Phi1 := Phi1 m;
     Phi2 := Phi2 m;
     RA := RA m;
     RB := RB m;
     RE := RE m;
     RF := RF m |}.

Definition set_Phi1 (m : mem) (o i j k : Z) (v : R) : mem :=
  {| updatecoeffsE := updatecoeffsE m;
     updatecoeffsH := updatecoeffsH m;
     ID := ID m;
     Ex := Ex m;
     Ey := Ey m;
     Ez := Ez m;
     Hx := Hx m;
     Hy := Hy m;
     Hz := Hz m;
     Phi1 := upd4 (Phi1 m) o i j k v;
     Phi2 := Phi2 m;
     RA := RA m;
     RB := RB m;
     RE := RE m;
     RF := RF m |}.

Definition set_Phi2 (m : mem) (o i j k : Z) (v : R) : mem :=
  {| updatecoeffsE := updatecoeffsE m;
     updatecoeffsH := updatecoeffsH m;
     ID := ID m;
     Ex := Ex m;
     Ey := Ey m;
     Ez := Ez m;
     Hx := Hx m;
     Hy := Hy m;
     Hz := Hz m;
     Phi1 := Phi1 m;
     Phi2 := upd4 (Phi2 m) o i j k v;
     RA := RA m;
     RB := RB m;
     RE := RE m;
     RF := RF m |}.

(** ** Evaluation modes *)

Class Eval (M : Type -> Type) : Type := {
  ret : forall {A : Type}, A -> M A;
  bind : forall {A B : Type}, M A -> (A -> M B) -> M B;
  fdiv : R -> R -> M R
}.

Notation "x <- c ;; k" := (bind c (fun x => k))
  (at level 61, c at next level, right associativity).
Notation "a // b" := (fdiv a b) (at level 40, left associativity).

Definition Id (A : Type) : Type := A.

#[global] Instance Exact : Eval Id := {|
  ret := fun A (x : A) => x;
  bind := fun A B (x : A) (f : A -> B) => f x;
  fdiv := fun a b => a / b
|}.

#[global] Instance Checked : Eval option := {|
  ret := fun A (x : A) => Some x;
  bind := fun A B (x : option A) (f : A -> option B) =>
            match x with Some a => f a | None => None end;
  fdiv := fun a b => if Req_dec_T b 0 then None else Some (a / b)
|}.

(** ** Loops *)

Fixpoint for_loop {M : Type -> Type} {EV : Eval M} {St : Type}
    (n : nat) (i : Z) (body : Z -> St -> M St) (s : St) : M St :=
  match n with
  | O => ret s
  | S n' => s' <- body i s ;; for_loop n' (i + 1)%Z body s'
  end.

(** [for i in range(lo, hi)] *)
Definition range {M : Type -> Type} {EV : Eval M} {St : Type}
    (lo hi : Z) (body : Z -> St -> M St) (s : St) : M St :=
  for_loop (Z.to_nat (hi - lo)) lo body s.

(** [for i in prange(lo, hi, nogil=True, schedule='static',
    num_threads=nthreads)] *)
Definition prange {M : Type -> Type} {EV : Eval M} {St : Type}
    (lo hi nthreads : Z) (body : Z -> St -> M St) (s : St) : M St :=
  range lo hi body s.

(** ** The kernels *)

Module HORIPML.

(** [order1_xminus], from line 27 of the source file. *)
Definition order1_xminus {M : Type -> Type} {EV : Eval M}
    (xs xf ys yf zs zf nthreads : Z) (d : R) (m : mem) : M mem :=
  let dx := d in
  let nx := (xf - xs)%Z in
  let ny := (yf - ys)%Z in
  let nz := (zf - zs)%Z in
  prange 0 nx nthreads (fun i m =>
    let ii := (xf - (i + 1))%Z in
    let RA01 := RA m 0 i - 1 in
    let RB0 := RB m 0 i in
    let RE0 := RE m 0 i in
    let RF0 := RF m 0 i in
    range 0 ny (fun j m =>
      let jj := (j + ys)%Z in
      range 0 nz (fun k m =>
        let kk := (k + zs)%Z in
        (* Hy *)
        let materialHy := (ID m 4 ii jj kk)%Z in
        dEz <- (Ez m (ii + 1) jj kk - Ez m ii jj kk) // dx ;;
        let m := set_Hy m ii jj kk
          (Hy m ii jj kk + updatecoeffsH m materialHy 4 * (RA01 * dEz + RB0 * Phi1 m 0 i j k)) in
        let m := set_Phi1 m 0 i j k
          (RE0 * Phi1 m 0 i j k - RF0 * dEz) in
        (* Hz *)
        let materialHz := (ID m 5 ii jj kk)%Z in
        dEy <- (Ey m (ii + 1) jj kk - Ey m ii jj kk) // dx ;;
        let m := set_Hz m ii jj kk
          (Hz m ii jj kk - updatecoeffsH m materialHz 4 * (RA01 * dEy + RB0 * Phi2 m 0 i j k)) in
        let m := set_Phi2 m 0 i j k
          (RE0 * Phi2 m 0 i j k - RF0 * dEy) in
        ret m
      ) m
    ) m
  ) m.

(** [order2_xminus], from line 93 of the source file. *)
Definition order2_xminus {M : Type -> Type} {EV : Eval M}
    (xs xf ys yf zs zf nthreads : Z) (d : R) (m : mem) : M mem :=
  let dx := d in
  let nx := (xf - xs)%Z in
  let ny := (yf - ys)%Z in
  let nz := (zf - zs)%Z in
  prange 0 nx nthreads (fun i m =>
    let ii := (xf - (i + 1))%Z in
    let RA0 := RA m 0 i in
    let RB0 := RB m 0 i in
    let RE0 := RE m 0 i in
    let RF0 := RF m 0 i in
    let RA1 := RA m 1 i in
    let RB1 := RB m 1 i in
    let RE1 := RE m 1 i in
    let RF1 := RF m 1 i in
    let RA01 := RA m 0 i * RA m 1 i - 1 in
    range 0 ny (fun j m =>
      let jj := (j + ys)%Z in
      range 0 nz (fun k m =>
        let kk := (k + zs)%Z in
        (* Hy *)
        let materialHy := (ID m 4 ii jj kk)%Z in
        dEz <- (Ez m (ii + 1) jj kk - Ez m ii jj kk) // dx ;;
        let m := set_Hy m ii jj kk
          (Hy m ii jj kk + updatecoeffsH m materialHy 4 * (RA01 * dEz + RA1 * RB0 * Phi1 m 0 i j k + RB1 * Phi1 m 1 i j k)) in
        let m := set_Phi1 m 1 i j k
          (RE1 * Phi1 m 1 i j k - RF1 * (RA0 * dEz + RB0 * Phi1 m 0 i j k)) in
        let m := set_Phi1 m 0 i j k
          (RE0 * Phi1 m 0 i j k - RF0 * dEz) in
        (* Hz *)
        let materialHz := (ID m 5 ii jj kk)%Z in
        dEy <- (Ey m (ii + 1) jj kk - Ey m ii jj kk) // dx ;;
        let m := set_Hz m ii jj kk
          (Hz m ii jj kk - updatecoeffsH m materialHz 4 * (RA01 * dEy + RA1 * RB0 * Phi2 m 0 i j k + RB1 * Phi2 m 1 i j k)) in
        let m := set_Phi2 m 1 i j k
          (RE1 * Phi2 m 1 i j k - RF1 * (RA0 * dEy + RB0 * Phi2 m 0 i j k)) in
        let m := set_Phi2 m 0 i j k
          (RE0 * Phi2 m 0 i j k - RF0 * dEy) in
        ret m
      ) m
    ) m
  ) m.

(** [order1_xplus], from line 171 of the source file. *)
Definition order1_xplus {M : Type -> Type} {EV : Eval M}
    (xs xf ys yf zs zf nthreads : Z) (d : R) (m : mem) : M mem :=
  let dx := d in
  let nx := (xf - xs)%Z in
  let ny := (yf - ys)%Z in
  let nz := (zf - zs)%Z in
  prange 0 nx nthreads (fun i m =>
    let ii := (i + xs)%Z in
    let RA01 := RA m 0 i - 1 in
    let RB0 := RB m 0 i in
    let RE0 := RE m 0 i in
    let RF0 := RF m 0 i in
    range 0 ny (fun j m =>
      let jj := (j + ys)%Z in
      range 0 nz (fun k m =>
        let kk := (k + zs)%Z in
        (* Hy *)
        let materialHy := (ID m 4 ii jj kk)%Z in
        dEz <- (Ez m (ii + 1) jj kk - Ez m ii jj kk) // dx ;;
        let m := set_Hy m ii jj kk
          (Hy m ii jj kk + updatecoeffsH m materialHy 4 * (RA01 * dEz + RB0 * Phi1 m 0 i j k)) in
        let m := set_Phi1 m 0 i j k
          (RE0 * Phi1 m 0 i j k - RF0 * dEz) in
        (* Hz *)
        let materialHz := (ID m 5 ii jj kk)%Z in
        dEy <- (Ey m (ii + 1) jj kk - Ey m ii jj kk) // dx ;;
        let m := set_Hz m ii jj kk
          (Hz m ii jj kk - updatecoeffsH m materialHz 4 * (RA01 * dEy + RB0 * Phi2 m 0 i j k)) in
        let m := set_Phi2 m 0 i j k
          (RE0 * Phi2 m 0 i j k - RF0 * dEy) in
        ret m
      ) m
    ) m
  ) m.

(** [order2_xplus], from line 237 of the source file. *)
Definition order2_xplus {M : Type -> Type} {EV : Eval M}
    (xs xf ys yf zs zf nthreads : Z) (d : R) (m : mem) : M mem :=
  let dx := d in
  let nx := (xf - xs)%Z in
  let ny := (yf - ys)%Z in
  let nz := (zf - zs)%Z in
  prange 0 nx nthreads (fun i m =>
    let ii := (i + xs)%Z in
    let RA0 := RA m 0 i in
    let RB0 := RB m 0 i in
    let RE0 := RE m 0 i in
    let RF0 := RF m 0 i in
    let RA1 := RA m 1 i in
    let RB1 := RB m 1 i in
    let RE1 := RE m 1 i in
    let RF1 := RF m 1 i in
    let RA01 := RA m 0 i * RA m 1 i - 1 in
    range 0 ny (fun j m =>
      let jj := (j + ys)%Z in
      range 0 nz (fun k m =>
        let kk := (k + zs)%Z in
        (* Hy *)
        let materialHy := (ID m 4 ii jj kk)%Z in
        dEz <- (Ez m (ii + 1) jj kk - Ez m ii jj kk) // dx ;;
        let m := set_Hy m ii jj kk
          (Hy m ii jj kk + updatecoeffsH m materialHy 4 * (RA01 * dEz + RA1 * RB0 * Phi1 m 0 i j k + RB1 * Phi1 m 1 i j k)) in
        let m := set_Phi1 m 1 i j k
          (RE1 * Phi1 m 1 i j k - RF1 * (RA0 * dEz + RB0 * Phi1 m 0 i j k)) in
        let m := set_Phi1 m 0 i j k
          (RE0 * Phi1 m 0 i j k - RF0 * dEz) in
        (* Hz *)
        let materialHz := (ID m 5 ii jj kk)%Z in
        dEy <- (Ey m (ii + 1) jj kk - Ey m ii jj kk) // dx ;;
        let m := set_Hz m ii jj kk
          (Hz m ii jj kk - updatecoeffsH m materialHz 4 * (RA01 * dEy + RA1 * RB0 * Phi2 m 0 i j k + RB1 * Phi2 m 1 i j k)) in
        let m := set_Phi2 m 1 i j k
          (RE1 * Phi2 m 1 i j k - RF1 * (RA0 * dEy + RB0 * Phi2 m 0 i j k)) in
        let m := set_Phi2 m 0 i j k
          (RE0 * Phi2 m 0 i j k - RF0 * dEy) in
        ret m
      ) m
    ) m
  ) m.

(** [order1_yminus], from line 315 of the source file. *)
Definition order1_yminus {M : Type -> Type} {EV : Eval M}
    (xs xf ys yf zs zf nthreads : Z) (d : R) (m : mem) : M mem :=
  let dy := d in
  let nx := (xf - xs)%Z in
  let ny := (yf - ys)%Z in
  let nz := (zf - zs)%Z in
  prange 0 nx nthreads (fun i m =>
    let ii := (i + xs)%Z in
    range 0 ny (fun j m =>
      let jj := (yf - (j + 1))%Z in
      let RA01 := RA m 0 j - 1 in
      let RB0 := RB m 0 j in
      let RE0 := RE m 0 j in
      let RF0 := RF m 0 j in
      range 0 nz (fun k m =>
        let kk := (k + zs)%Z in
        (* Hx *)
        let materialHx := (ID m 3 ii jj kk)%Z in
        dEz <- (Ez m ii (jj + 1) kk - Ez m ii jj kk) // dy ;;
        let m := set_Hx m ii jj kk
          (Hx m ii jj kk - updatecoeffsH m materialHx 4 * (RA01 * dEz + RB0 * Phi1 m 0 i j k)) in
        let m := set_Phi1 m 0 i j k
          (RE0 * Phi1 m 0 i j k - RF0 * dEz) in
        (* Hz *)
        let materialHz := (ID m 5 ii jj kk)%Z in
        dEx <- (Ex m ii (jj + 1) kk - Ex m ii jj kk) // dy ;;
        let m := set_Hz m ii jj kk
          (Hz m ii jj kk + updatecoeffsH m materialHz 4 * (RA01 * dEx + RB0 * Phi2 m 0 i j k)) in
        let m := set_Phi2 m 0 i j k
          (RE0 * Phi2 m 0 i j k - RF0 * dEx) in
        ret m
      ) m
    ) m
  ) m.

(** [order2_yminus], from line 381 of the source file. *)
Definition order2_yminus {M : Type -> Type} {EV : Eval M}
    (xs xf ys yf zs zf nthreads : Z) (d : R) (m : mem) : M mem :=
  let dy := d in
  let nx := (xf - xs)%Z in
  let ny := (yf - ys)%Z in
  let nz := (zf - zs)%Z in
  prange 0 nx nthreads (fun i m =>
    let ii := (i + xs)%Z in
    range 0 ny (fun j m =>
      let jj := (yf - (j + 1))%Z in
      let RA0 := RA m 0 j in
      let RB0 := RB m 0 j in
      let RE0 := RE m 0 j in
      let RF0 := RF m 0 j in
      let RA1 := RA m 1 j in
      let RB1 := RB m 1 j in
      let RE1 := RE m 1 j in
      let RF1 := RF m 1 j in
      let RA01 := RA m 0 j * RA m 1 j - 1 in
      range 0 nz (fun k m =>
        let kk := (k + zs)%Z in
        (* Hx *)
        let materialHx := (ID m 3 ii jj kk)%Z in
        dEz <- (Ez m ii (jj + 1) kk - Ez m ii jj kk) // dy ;;
        let m := set_Hx m ii jj kk
          (Hx m ii jj kk - updatecoeffsH m materialHx 4 * (RA01 * dEz + RA1 * RB0 * Phi1 m 0 i j k + RB1 * Phi1 m 1 i j k)) in
        let m := set_Phi1 m 1 i j k
          (RE1 * Phi1 m 1 i j k - RF1 * (RA0 * dEz + RB0 * Phi1 m 0 i j k)) in
        let m := set_Phi1 m 0 i j k
          (RE0 * Phi1 m 0 i j k - RF0 * dEz) in
        (* Hz *)
        let materialHz := (ID m 5 ii jj kk)%Z in
        dEx <- (Ex m ii (jj + 1) kk - Ex m ii jj kk) // dy ;;
        let m := set_Hz m ii jj kk
          (Hz m ii jj kk + updatecoeffsH m materialHz 4 * (RA01 * dEx + RA1 * RB0 * Phi2 m 0 i j k + RB1 * Phi2 m 1 i j k)) in
        let m := set_Phi2 m 1 i j k
          (RE1 * Phi2 m 1 i j k - RF1 * (RA0 * dEx + RB0 * Phi2 m 0 i j k)) in
        let m := set_Phi2 m 0 i j k
          (RE0 * Phi2 m 0 i j k - RF0 * dEx) in
        ret m
      ) m
    ) m
  ) m.

(** [order1_yplus], from line 459 of the source file. *)
Definition order1_yplus {M : Type -> Type} {EV : Eval M}
    (xs xf ys yf zs zf nthreads : Z) (d : R) (m : mem) : M mem :=
  let dy := d in
  let nx := (xf - xs)%Z in
  let ny := (yf - ys)%Z in
  let nz := (zf - zs)%Z in
  prange 0 nx nthreads (fun i m =>
    let ii := (i + xs)%Z in
    range 0 ny (fun j m =>
      let jj := (j + ys)%Z in
      let RA01 := RA m 0 j - 1 in
      let RB0 := RB m 0 j in
      let RE0 := RE m 0 j in
      let RF0 := RF m 0 j in
      range 0 nz (fun k m =>
        let kk := (k + zs)%Z in
        (* Hx *)
        let materialHx := (ID m 3 ii jj kk)%Z in
        dEz <- (Ez m ii (jj + 1) kk - Ez m ii jj kk) // dy ;;
        let m := set_Hx m ii jj kk
          (Hx m ii jj kk - updatecoeffsH m materialHx 4 * (RA01 * dEz + RB0 * Phi1 m 0 i j k)) in
        let m := set_Phi1 m 0 i j k
          (RE0 * Phi1 m 0 i j k - RF0 * dEz) in
        (* Hz *)
        let materialHz := (ID m 5 ii jj kk)%Z in
        dEx <- (Ex m ii (jj + 1) kk - Ex m ii jj kk) // dy ;;
        let m := set_Hz m ii jj kk
          (Hz m ii jj kk + updatecoeffsH m materialHz 4 * (RA01 * dEx + RB0 * Phi2 m 0 i j k)) in
        let m := set_Phi2 m 0 i j k
          (RE0 * Phi2 m 0 i j k - RF0 * dEx) in
        ret m
      ) m
    ) m
  ) m.

(** [order2_yplus], from line 525 of the source file. *)
Definition order2_yplus {M : Type -> Type} {EV : Eval M}
    (xs xf ys yf zs zf nthreads : Z) (d : R) (m : mem) : M mem :=
  let dy := d in
  let nx := (xf - xs)%Z in
  let ny := (yf - ys)%Z in
  let nz := (zf - zs)%Z in
  prange 0 nx nthreads (fun i m =>
    let ii := (i + xs)%Z in
    range 0 ny (fun j m =>
      let jj := (j + ys)%Z in
      let RA0 := RA m 0 j in
      let RB0 := RB m 0 j in
      let RE0 := RE m 0 j in
      let RF0 := RF m 0 j in
      let RA1 := RA m 1 j in
      let RB1 := RB m 1 j in
      let RE1 := RE m 1 j in
      let RF1 := RF m 1 j in
      let RA01 := RA m 0 j * RA m 1 j - 1 in
      range 0 nz (fun k m =>
        let kk := (k + zs)%Z in
        (* Hx *)
        let materialHx := (ID m 3 ii jj kk)%Z in
        dEz <- (Ez m ii (jj + 1) kk - Ez m ii jj kk) // dy ;;
        let m := set_Hx m ii jj kk
          (Hx m ii jj kk - updatecoeffsH m materialHx 4 * (RA01 * dEz + RA1 * RB0 * Phi1 m 0 i j k + RB1 * Phi1 m 1 i j k)) in
        let m := set_Phi1 m 1 i j k
          (RE1 * Phi1 m 1 i j k - RF1 * (RA0 * dEz + RB0 * Phi1 m 0 i j k)) in
        let m := set_Phi1 m 0 i j k
          (RE0 * Phi1 m 0 i j k - RF0 * dEz) in
        (* Hz *)
        let materialHz := (ID m 5 ii jj kk)%Z in
        dEx <- (Ex m ii (jj + 1) kk - Ex m ii jj kk) // dy ;;
        let m := set_Hz m ii jj kk
          (Hz m ii jj kk + updatecoeffsH m materialHz 4 * (RA01 * dEx + RA1 * RB0 * Phi2 m 0 i j k + RB1 * Phi2 m 1 i j k)) in
        let m := set_Phi2 m 1 i j k
          (RE1 * Phi2 m 1 i j k - RF1 * (RA0 * dEx + RB0 * Phi2 m 0 i j k)) in
        let m := set_Phi2 m 0 i j k
          (RE0 * Phi2 m 0 i j k - RF0 * dEx) in
        ret m
      ) m
    ) m
  ) m.

(** [order1_zminus], from line 603 of the source file. *)
Definition order1_zminus {M : Type -> Type} {EV : Eval M}
    (xs xf ys yf zs zf nthreads : Z) (d : R) (m : mem) : M mem :=
  let dz := d in
  let nx := (xf - xs)%Z in
  let ny := (yf - ys)%Z in
  let nz := (zf - zs)%Z in
  prange 0 nx nthreads (fun i m =>
    let ii := (i + xs)%Z in
    range 0 ny (fun j m =>
      let jj := (j + ys)%Z in
      range 0 nz (fun k m =>
        let kk := (zf - (k + 1))%Z in
        let RA01 := RA m 0 k - 1 in
        let RB0 := RB m 0 k in
        let RE0 := RE m 0 k in
        let RF0 := RF m 0 k in
        (* Hx *)
        let materialHx := (ID m 3 ii jj kk)%Z in
        dEy <- (Ey m ii jj (kk + 1) - Ey m ii jj kk) // dz ;;
        let m := set_Hx m ii jj kk
          (Hx m ii jj kk + updatecoeffsH m materialHx 4 * (RA01 * dEy + RB0 * Phi1 m 0 i j k)) in
        let m := set_Phi1 m 0 i j k
          (RE0 * Phi1 m 0 i j k - RF0 * dEy) in
        (* Hy *)
        let materialHy := (ID m 4 ii jj kk)%Z in
        dEx <- (Ex m ii jj (kk + 1) - Ex m ii jj kk) // dz ;;
        let m := set_Hy m ii jj kk
          (Hy m ii jj kk - updatecoeffsH m materialHy 4 * (RA01 * dEx + RB0 * Phi2 m 0 i j k)) in
        let m := set_Phi2 m 0 i j k
          (RE0 * Phi2 m 0 i j k - RF0 * dEx) in
        ret m
      ) m
    ) m
  ) m.

(** [order2_zminus], from line 669 of the source file. *)
Definition order2_zminus {M : Type -> Type} {EV : Eval M}
    (xs xf ys yf zs zf nthreads : Z) (d : R) (m : mem) : M mem :=
  let dz := d in
  let nx := (xf - xs)%Z in
  let ny := (yf - ys)%Z in
  let nz := (zf - zs)%Z in
  prange 0 nx nthreads (fun i m =>
    let ii := (i + xs)%Z in
    range 0 ny (fun j m =>
      let jj := (j + ys)%Z in
      range 0 nz (fun k m =>
        let kk := (zf - (k + 1))%Z in
        let RA0 := RA m 0 k in
        let RB0 := RB m 0 k in
        let RE0 := RE m 0 k in
        let RF0 := RF m 0 k in
        let RA1 := RA m 1 k in
        let RB1 := RB m 1 k in
        let RE1 := RE m 1 k in
        let RF1 := RF m 1 k in
        let RA01 := RA m 0 k * RA m 1 k - 1 in
        (* Hx *)
        let materialHx := (ID m 3 ii jj kk)%Z in
        dEy <- (Ey m ii jj (kk + 1) - Ey m ii jj kk) // dz ;;
        let m := set_Hx m ii jj kk
          (Hx m ii jj kk + updatecoeffsH m materialHx 4 * (RA01 * dEy + RA1 * RB0 * Phi1 m 0 i j k + RB1 * Phi1 m 1 i j k)) in
        let m := set_Phi1 m 1 i j k
          (RE1 * Phi1 m 1 i j k - RF1 * (RA0 * dEy + RB0 * Phi1 m 0 i j k)) in
        let m := set_Phi1 m 0 i j k
          (RE0 * Phi1 m 0 i j k - RF0 * dEy) in
        (* Hy *)
        let materialHy := (ID m 4 ii jj kk)%Z in
        dEx <- (Ex m ii jj (kk + 1) - Ex m ii jj kk) // dz ;;
        let m := set_Hy m ii jj kk
          (Hy m ii jj kk - updatecoeffsH m materialHy 4 * (RA01 * dEx + RA1 * RB0 * Phi2 m 0 i j k + RB1 * Phi2 m 1 i j k)) in
        let m := set_Phi2 m 1 i j k
          (RE1 * Phi2 m 1 i j k - RF1 * (RA0 * dEx + RB0 * Phi2 m 0 i j k)) in
        let m := set_Phi2 m 0 i j k
          (RE0 * Phi2 m 0 i j k - RF0 * dEx) in
        ret m
      ) m
    ) m
  ) m.

(** [order1_zplus], from line 747 of the source file. *)
Definition order1_zplus {M : Type -> Type} {EV : Eval M}
    (xs xf ys yf zs zf nthreads : Z) (d : R) (m : mem) : M mem :=
  let dz := d in
  let nx := (xf - xs)%Z in
  let ny := (yf - ys)%Z in
  let nz := (zf - zs)%Z in
  prange 0 nx nthreads (fun i m =>
    let ii := (i + xs)%Z in
    range 0 ny (fun j m =>
      let jj := (j + ys)%Z in
      range 0 nz (fun k m =>
        let kk := (k + zs)%Z in
        let RA01 := RA m 0 k - 1 in
        let RB0 := RB m 0 k in
        let RE0 := RE m 0 k in
        let RF0 := RF m 0 k in
        (* Hx *)
        let materialHx := (ID m 3 ii jj kk)%Z in
        dEy <- (Ey m ii jj (kk + 1) - Ey m ii jj kk) // dz ;;
        let m := set_Hx m ii jj kk
          (Hx m ii jj kk + updatecoeffsH m materialHx 4 * (RA01 * dEy + RB0 * Phi1 m 0 i j k)) in
        let m := set_Phi1 m 0 i j k
          (RE0 * Phi1 m 0 i j k - RF0 * dEy) in
        (* Hy *)
        let materialHy := (ID m 4 ii jj kk)%Z in
        dEx <- (Ex m ii jj (kk + 1) - Ex m ii jj kk) // dz ;;
        let m := set_Hy m ii jj kk
          (Hy m ii jj kk - updatecoeffsH m materialHy 4 * (RA01 * dEx + RB0 * Phi2 m 0 i j k)) in
        let m := set_Phi2 m 0 i j k
          (RE0 * Phi2 m 0 i j k - RF0 * dEx) in
        ret m
      ) m
    ) m
  ) m.

(** [order2_zplus], from line 813 of the source file. *)
Definition order2_zplus {M : Type -> Type} {EV : Eval M}
    (xs xf ys yf zs zf nthreads : Z) (d : R) (m : mem) : M mem :=
  let dz := d in
  let nx := (xf - xs)%Z in
  let ny := (yf - ys)%Z in
  let nz := (zf - zs)%Z in
  prange 0 nx nthreads (fun i m =>
    let ii := (i + xs)%Z in
    range 0 ny (fun j m =>
      let jj := (j + ys)%Z in
      range 0 nz (fun k m =>
        let kk := (k + zs)%Z in
        let RA0 := RA m 0 k in
        let RB0 := RB m 0 k in
        let RE0 := RE m 0 k in
        let RF0 := RF m 0 k in
        let RA1 := RA m 1 k in
        let RB1 := RB m 1 k in
        let RE1 := RE m 1 k in
        let RF1 := RF m 1 k in
        let RA01 := RA m 0 k * RA m 1 k - 1 in
        (* Hx *)
        let materialHx := (ID m 3 ii jj kk)%Z in
        dEy <- (Ey m ii jj (kk + 1) - Ey m ii jj kk) // dz ;;
        let m := set_Hx m ii jj kk
          (Hx m ii jj kk + updatecoeffsH m materialHx 4 * (RA01 * dEy + RA1 * RB0 * Phi1 m 0 i j k + RB1 * Phi1 m 1 i j k)) in
        let m := set_Phi1 m 1 i j k
          (RE1 * Phi1 m 1 i j k - RF1 * (RA0 * dEy + RB0 * Phi1 m 0 i j k)) in
        let m := set_Phi1 m 0 i j k
          (RE0 * Phi1 m 0 i j k - RF0 * dEy) in
        (* Hy *)
        let materialHy := (ID m 4 ii jj kk)%Z in
        dEx <- (Ex m ii jj (kk + 1) - Ex m ii jj kk) // dz ;;
        let m := set_Hy m ii jj kk
          (Hy m ii jj kk - updatecoeffsH m materialHy 4 * (RA01 * dEx + RA1 * RB0 * Phi2 m 0 i j k + RB1 * Phi2 m 1 i j k)) in
        let m := set_Phi2 m 1 i j k
          (RE1 * Phi2 m 1 i j k - RF1 * (RA0 * dEx + RB0 * Phi2 m 0 i j k)) in
        let m := set_Phi2 m 0 i j k
          (RE0 * Phi2 m 0 i j k - RF0 * dEx) in
        ret m
      ) m
    ) m
  ) m.

End HORIPML.

Module MRIPML.

(** [order1_xminus], from line 27 of the source file. *)
Definition order1_xminus {M : Type -> Type} {EV : Eval M}
    (xs xf ys yf zs zf nthreads : Z) (d : R) (m : mem) : M mem :=
  let dx := d in
  let nx := (xf - xs)%Z in
  let ny := (yf - ys)%Z in
  let nz := (zf - zs)%Z in
  prange 0 nx nthreads (fun i m =>
    IRA <- 1 // RA m 0 i ;;
    let IRA1 := IRA - 1 in
    let RB0 := RB m 0 i in
    let RE0 := RE m 0 i in
    let RF0 := RF m 0 i in
    let RC0 := IRA * RB0 * RF0 in
    let ii := (xf - i)%Z in
    range 0 ny (fun j m =>
      let jj := (j + ys)%Z in
      range 0 nz (fun k m =>
        let kk := (k + zs)%Z in
        (* Ey *)
        let materialEy := (ID m 1 ii jj kk)%Z in
        dHz <- (Hz m ii jj kk - Hz m (ii - 1) jj kk) // dx ;;
        let m := set_Ey m ii jj kk
          (Ey m ii jj kk - updatecoeffsE m materialEy 4 * (IRA1 * dHz - IRA * Phi1 m 0 i j k)) in
        let m := set_Phi1 m 0 i j k
          (RE0 * Phi1 m 0 i j k + RC0 * dHz - RC0 * Phi1 m 0 i j k) in
        (* Ez *)
        let materialEz := (ID m 2 ii jj kk)%Z in
        dHy <- (Hy m ii jj kk - Hy m (ii - 1) jj kk) // dx ;;
        let m := set_Ez m ii jj kk
          (Ez m ii jj kk + updatecoeffsE m materialEz 4 * (IRA1 * dHy - IRA * Phi2 m 0 i j k)) in
        let m := set_Phi2 m 0 i j k
          (RE0 * Phi2 m 0 i j k + RC0 * dHy - RC0 * Phi2 m 0 i j k) in
        ret m
      ) m
    ) m
  ) m.

(** [order2_xminus], from line 97 of the source file. *)
Definition order2_xminus {M : Type -> Type} {EV : Eval M}
    (xs xf ys yf zs zf nthreads : Z) (d : R) (m : mem) : M mem :=
  let dx := d in
  let nx := (xf - xs)%Z in
  let ny := (yf - ys)%Z in
  let nz := (zf - zs)%Z in
  prange 0 nx nthreads (fun i m =>
    IRA <- 1 // (RA m 0 i + RA m 1 i) ;;
    let IRA1 := IRA - 1 in
    let RB0 := RB m 0 i in
    let RE0 := RE m 0 i in
    let RF0 := RF m 0 i in
    let RC0 := IRA * RF0 in
    let RB1 := RB m 1 i in
    let RE1 := RE m 1 i in
    let RF1 := RF m 1 i in
    let RC1 := IRA * RF1 in
    let ii := (xf - i)%Z in
    range 0 ny (fun j m =>
      let jj := (j + ys)%Z in
      range 0 nz (fun k m =>
        let kk := (k + zs)%Z in
        let Psi1 := RB0 * Phi1 m 0 i j k + RB1 * Phi1 m 1 i j k in
        let Psi2 := RB0 * Phi2 m 0 i j k + RB1 * Phi2 m 1 i j k in
        (* Ey *)
        let materialEy := (ID m 1 ii jj kk)%Z in
        dHz <- (Hz m ii jj kk - Hz m (ii - 1) jj kk) // dx ;;
        let m := set_Ey m ii jj kk
          (Ey m ii jj kk - updatecoeffsE m materialEy 4 * (IRA1 * dHz - IRA * Psi1)) in
        let m := set_Phi1 m 1 i j k
          (RE1 * Phi1 m 1 i j k + RC1 * (dHz - Psi1)) in
        let m := set_Phi1 m 0 i j k
          (RE0 * Phi1 m 0 i j k + RC0 * (dHz - Psi1)) in
        (* Ez *)
        let materialEz := (ID m 2 ii jj kk)%Z in
        dHy <- (Hy m ii jj kk - Hy m (ii - 1) jj kk) // dx ;;
        let m := set_Ez m ii jj kk
          (Ez m ii jj kk + updatecoeffsE m materialEz 4 * (IRA1 * dHy - IRA * Psi2)) in
        let m := set_Phi2 m 1 i j k
          (RE1 * Phi2 m 1 i j k + RC1 * (dHy - Psi2)) in
        let m := set_Phi2 m 0 i j k
          (RE0 * Phi2 m 0 i j k + RC0 * (dHy - Psi2)) in
        ret m
      ) m
    ) m
  ) m.

(** [order1_xplus], from line 176 of the source file. *)
Definition order1_xplus {M : Type -> Type} {EV : Eval M}
    (xs xf ys yf zs zf nthreads : Z) (d : R) (m : mem) : M mem :=
  let dx := d in
  let nx := (xf - xs)%Z in
  let ny := (yf - ys)%Z in
  let nz := (zf - zs)%Z in
  prange 0 nx nthreads (fun i m =>
    IRA <- 1 // RA m 0 i ;;
    let IRA1 := IRA - 1 in
    let RB0 := RB m 0 i in
    let RE0 := RE m 0 i in
    let RF0 := RF m 0 i in
    let RC0 := IRA * RB0 * RF0 in
    let ii := (i + xs)%Z in
    range 0 ny (fun j m =>
      let jj := (j + ys)%Z in
      range 0 nz (fun k m =>
        let kk := (k + zs)%Z in
        (* Ey *)
        let materialEy := (ID m 1 ii jj kk)%Z in
        dHz <- (Hz m ii jj kk - Hz m (ii - 1) jj kk) // dx ;;
        let m := set_Ey m ii jj kk
          (Ey m ii jj kk - updatecoeffsE m materialEy 4 * (IRA1 * dHz - IRA * Phi1 m 0 i j k)) in
        let m := set_Phi1 m 0 i j k
          (RE0 * Phi1 m 0 i j k + RC0 * dHz - RC0 * Phi1 m 0 i j k) in
        (* Ez *)
        let materialEz := (ID m 2 ii jj kk)%Z in
        dHy <- (Hy m ii jj kk - Hy m (ii - 1) jj kk) // dx ;;
        let m := set_Ez m ii jj kk
          (Ez m ii jj kk + updatecoeffsE m materialEz 4 * (IRA1 * dHy - IRA * Phi2 m 0 i j k)) in
        let m := set_Phi2 m 0 i j k
          (RE0 * Phi2 m 0 i j k + RC0 * dHy - RC0 * Phi2 m 0 i j k) in
        ret m
      ) m
    ) m
  ) m.

(** [order2_xplus], from line 246 of the source file. *)
Definition order2_xplus {M : Type -> Type} {EV : Eval M}
    (xs xf ys yf zs zf nthreads : Z) (d : R) (m : mem) : M mem :=
  let dx := d in
  let nx := (xf - xs)%Z in
  let ny := (yf - ys)%Z in
  let nz := (zf - zs)%Z in
  prange 0 nx nthreads (fun i m =>
    IRA <- 1 // (RA m 0 i + RA m 1 i) ;;
    let IRA1 := IRA - 1 in
    let RB0 := RB m 0 i in
    let RE0 := RE m 0 i in
    let RF0 := RF m 0 i in
    let RC0 := IRA * RF0 in
    let RB1 := RB m 1 i in
    let RE1 := RE m 1 i in
    let RF1 := RF m 1 i in
    let RC1 := IRA * RF1 in
    let ii := (i + xs)%Z in
    range 0 ny (fun j m =>
      let jj := (j + ys)%Z in
      range 0 nz (fun k m =>
        let kk := (k + zs)%Z in
        let Psi1 := RB0 * Phi1 m 0 i j k + RB1 * Phi1 m 1 i j k in
        let Psi2 := RB0 * Phi2 m 0 i j k + RB1 * Phi2 m 1 i j k in
        (* Ey *)
        let materialEy := (ID m 1 ii jj kk)%Z in
        dHz <- (Hz m ii jj kk - Hz m (ii - 1) jj kk) // dx ;;
        let m := set_Ey m ii jj kk
          (Ey m ii jj kk - updatecoeffsE m materialEy 4 * (IRA1 * dHz - IRA * Psi1)) in
        let m := set_Phi1 m 1 i j k
          (RE1 * Phi1 m 1 i j k + RC1 * (dHz - Psi1)) in
        let m := set_Phi1 m 0 i j k
          (RE0 * Phi1 m 0 i j k + RC0 * (dHz - Psi1)) in
        (* Ez *)
        let materialEz := (ID m 2 ii jj kk)%Z in
        dHy <- (Hy m ii jj kk - Hy m (ii - 1) jj kk) // dx ;;
        let m := set_Ez m ii jj kk
          (Ez m ii jj kk + updatecoeffsE m materialEz 4 * (IRA1 * dHy - IRA * Psi2)) in
        let m := set_Phi2 m 1 i j k
          (RE1 * Phi2 m 1 i j k + RC1 * (dHy - Psi2)) in
        let m := set_Phi2 m 0 i j k
          (RE0 * Phi2 m 0 i j k + RC0 * (dHy - Psi2)) in
        ret m
      ) m
    ) m
  ) m.

(** [order1_yminus], from line 324 of the source file. *)
Definition order1_yminus {M : Type -> Type} {EV : Eval M}
    (xs xf ys yf zs zf nthreads : Z) (d : R) (m : mem) : M mem :=
  let dy := d in
  let nx := (xf - xs)%Z in
  let ny := (yf - ys)%Z in
  let nz := (zf - zs)%Z in
  prange 0 nx nthreads (fun i m =>
    let ii := (i + xs)%Z in
    range 0 ny (fun j m =>
      let jj := (yf - j)%Z in
      IRA <- 1 // RA m 0 j ;;
      let IRA1 := IRA - 1 in
      let RB0 := RB m 0 j in
      let RE0 := RE m 0 j in
      let RF0 := RF m 0 j in
      let RC0 := IRA * RB0 * RF0 in
      range 0 nz (fun k m =>
        let kk := (k + zs)%Z in
        (* Ex *)
        let materialEx := (ID m 0 ii jj kk)%Z in
        dHz <- (Hz m ii jj kk - Hz m ii (jj - 1) kk) // dy ;;
        let m := set_Ex m ii jj kk
          (Ex m ii jj kk + updatecoeffsE m materialEx 4 * (IRA1 * dHz - IRA * Phi1 m 0 i j k)) in
        let m := set_Phi1 m 0 i j k
          (RE0 * Phi1 m 0 i j k + RC0 * dHz - RC0 * Phi1 m 0 i j k) in
        (* Ez *)
        let materialEz := (ID m 2 ii jj kk)%Z in
        dHx <- (Hx m ii jj kk - Hx m ii (jj - 1) kk) // dy ;;
        let m := set_Ez m ii jj kk
          (Ez m ii jj kk - updatecoeffsE m materialEz 4 * (IRA1 * dHx - IRA * Phi2 m 0 i j k)) in
        let m := set_Phi2 m 0 i j k
          (RE0 * Phi2 m 0 i j k + RC0 * dHx - RC0 * Phi2 m 0 i j k) in
        ret m
      ) m
    ) m
  ) m.

(** [order2_yminus], from line 394 of the source file. *)
Definition order2_yminus {M : Type -> Type} {EV : Eval M}
    (xs xf ys yf zs zf nthreads : Z) (d : R) (m : mem) : M mem :=
  let dy := d in
  let nx := (xf - xs)%Z in
  let ny := (yf - ys)%Z in
  let nz := (zf - zs)%Z in
  prange 0 nx nthreads (fun i m =>
    let ii := (i + xs)%Z in
    range 0 ny (fun j m =>
      let jj := (yf - j)%Z in
      IRA <- 1 // (RA m 0 j + RA m 1 j) ;;
      let IRA1 := IRA - 1 in
      let RB0 := RB m 0 j in
      let RE0 := RE m 0 j in
      let RF0 := RF m 0 j in
      let RC0 := IRA * RF0 in
      let RB1 := RB m 1 j in
      let RE1 := RE m 1 j in
      let RF1 := RF m 1 j in
      let RC1 := IRA * RF1 in
      range 0 nz (fun k m =>
        let kk := (k + zs)%Z in
        let Psi1 := RB0 * Phi1 m 0 i j k + RB1 * Phi1 m 1 i j k in
        let Psi2 := RB0 * Phi2 m 0 i j k + RB1 * Phi2 m 1 i j k in
        (* Ex *)
        let materialEx := (ID m 0 ii jj kk)%Z in
        dHz <- (Hz m ii jj kk - Hz m ii (jj - 1) kk) // dy ;;
        let m := set_Ex m ii jj kk
          (Ex m ii jj kk + updatecoeffsE m materialEx 4 * (IRA1 * dHz - IRA * Psi1)) in
        let m := set_Phi1 m 1 i j k
          (RE1 * Phi1 m 1 i j k + RC1 * (dHz - Psi1)) in
        let m := set_Phi1 m 0 i j k
          (RE0 * Phi1 m 0 i j k + RC0 * (dHz - Psi1)) in
        (* Ez *)
        let materialEz := (ID m 2 ii jj kk)%Z in
        dHx <- (Hx m ii jj kk - Hx m ii (jj - 1) kk) // dy ;;
        let m := set_Ez m ii jj kk
          (Ez m ii jj kk - updatecoeffsE m materialEz 4 * (IRA1 * dHx - IRA * Psi2)) in
        let m := set_Phi2 m 1 i j k
          (RE1 * Phi2 m 1 i j k + RC1 * (dHx - Psi2)) in
        let m := set_Phi2 m 0 i j k
          (RE0 * Phi2 m 0 i j k + RC0 * (dHx - Psi2)) in
        ret m
      ) m
    ) m
  ) m.

(** [order1_yplus], from line 472 of the source file. *)
Definition order1_yplus {M : Type -> Type} {EV : Eval M}
    (xs xf ys yf zs zf nthreads : Z) (d : R) (m : mem) : M mem :=
  let dy := d in
  let nx := (xf - xs)%Z in
  let ny := (yf - ys)%Z in
  let nz := (zf - zs)%Z in
  prange 0 nx nthreads (fun i m =>
    let ii := (i + xs)%Z in
    range 0 ny (fun j m =>
      let jj := (j + ys)%Z in
      IRA <- 1 // RA m 0 j ;;
      let IRA1 := IRA - 1 in
      let RB0 := RB m 0 j in
      let RE0 := RE m 0 j in
      let RF0 := RF m 0 j in
      let RC0 := IRA * RB0 * RF0 in
      range 0 nz (fun k m =>
        let kk := (k + zs)%Z in
        (* Ex *)
        let materialEx := (ID m 0 ii jj kk)%Z in
        dHz <- (Hz m ii jj kk - Hz m ii (jj - 1) kk) // dy ;;
        let m := set_Ex m ii jj kk
          (Ex m ii jj kk + updatecoeffsE m materialEx 4 * (IRA1 * dHz - IRA * Phi1 m 0 i j k)) in
        let m := set_Phi1 m 0 i j k
          (RE0 * Phi1 m 0 i j k + RC0 * dHz - RC0 * Phi1 m 0 i j k) in
        (* Ez *)
        let materialEz := (ID m 2 ii jj kk)%Z in
        dHx <- (Hx m ii jj kk - Hx m ii (jj - 1) kk) // dy ;;
        let m := set_Ez m ii jj kk
          (Ez m ii jj kk - updatecoeffsE m materialEz 4 * (IRA1 * dHx - IRA * Phi2 m 0 i j k)) in
        let m := set_Phi2 m 0 i j k
          (RE0 * Phi2 m 0 i j k + RC0 * dHx - RC0 * Phi2 m 0 i j k) in
        ret m
      ) m
    ) m
  ) m.

(** [order2_yplus], from line 542 of the source file. *)
Definition order2_yplus {M : Type -> Type} {EV : Eval M}
    (xs xf ys yf zs zf nthreads : Z) (d : R) (m : mem) : M mem :=
  let dy := d in
  let nx := (xf - xs)%Z in
  let ny := (yf - ys)%Z in
  let nz := (zf - zs)%Z in
  prange 0 nx nthreads (fun i m =>
    let ii := (i + xs)%Z in
    range 0 ny (fun j m =>
      let jj := (j + ys)%Z in
      IRA <- 1 // (RA m 0 j + RA m 1 j) ;;
      let IRA1 := IRA - 1 in
      let RB0 := RB m 0 j in
      let RE0 := RE m 0 j in
      let RF0 := RF m 0 j in
      let RC0 := IRA * RF0 in
      let RB1 := RB m 1 j in
      let RE1 := RE m 1 j in
      let RF1 := RF m 1 j in
      let RC1 := IRA * RF1 in
      range 0 nz (fun k m =>
        let kk := (k + zs)%Z in
        let Psi1 := RB0 * Phi1 m 0 i j k + RB1 * Phi1 m 1 i j k in
        let Psi2 := RB0 * Phi2 m 0 i j k + RB1 * Phi2 m 1 i j k in
        (* Ex *)
        let materialEx := (ID m 0 ii jj kk)%Z in
        dHz <- (Hz m ii jj kk - Hz m ii (jj - 1) kk) // dy ;;
        let m := set_Ex m ii jj kk
          (Ex m ii jj kk + updatecoeffsE m materialEx 4 * (IRA1 * dHz - IRA * Psi1)) in
        let m := set_Phi1 m 1 i j k
          (RE1 * Phi1 m 1 i j k + RC1 * (dHz - Psi1)) in
        let m := set_Phi1 m 0 i j k
          (RE0 * Phi1 m 0 i j k + RC0 * (dHz - Psi1)) in
        (* Ez *)
        let materialEz := (ID m 2 ii jj kk)%Z in
        dHx <- (Hx m ii jj kk - Hx m ii (jj - 1) kk) // dy ;;
        let m := set_Ez m ii jj kk
          (Ez m ii jj kk - updatecoeffsE m materialEz 4 * (IRA1 * dHx - IRA * Psi2)) in
        let m := set_Phi2 m 1 i j k
          (RE1 * Phi2 m 1 i j k + RC1 * (dHx - Psi2)) in
        let m := set_Phi2 m 0 i j k
          (RE0 * Phi2 m 0 i j k + RC0 * (dHx - Psi2)) in
        ret m
      ) m
    ) m
  ) m.

(** [order1_zminus], from line 620 of the source file. *)
Definition order1_zminus {M : Type -> Type} {EV : Eval M}
    (xs xf ys yf zs zf nthreads : Z) (d : R) (m : mem) : M mem :=
  let dz := d in
  let nx := (xf - xs)%Z in
  let ny := (yf - ys)%Z in
  let nz := (zf - zs)%Z in
  prange 0 nx nthreads (fun i m =>
    let ii := (i + xs)%Z in
    range 0 ny (fun j m =>
      let jj := (j + ys)%Z in
      range 0 nz (fun k m =>
        let kk := (zf - k)%Z in
        IRA <- 1 // RA m 0 k ;;
        let IRA1 := IRA - 1 in
        let RB0 := RB m 0 k in
        let RE0 := RE m 0 k in
        let RF0 := RF m 0 k in
        let RC0 := IRA * RB0 * RF0 in
        (* Ex *)
        let materialEx := (ID m 0 ii jj kk)%Z in
        dHy <- (Hy m ii jj kk - Hy m ii jj (kk - 1)) // dz ;;
        let m := set_Ex m ii jj kk
          (Ex m ii jj kk - updatecoeffsE m materialEx 4 * (IRA1 * dHy - IRA * Phi1 m 0 i j k)) in
        let m := set_Phi1 m 0 i j k
          (RE0 * Phi1 m 0 i j k + RC0 * dHy - RC0 * Phi1 m 0 i j k) in
        (* Ey *)
        let materialEy := (ID m 1 ii jj kk)%Z in
        dHx <- (Hx m ii jj kk - Hx m ii jj (kk - 1)) // dz ;;
        let m := set_Ey m ii jj kk
          (Ey m ii jj kk + updatecoeffsE m materialEy 4 * (IRA1 * dHx - IRA * Phi2 m 0 i j k)) in
        let m := set_Phi2 m 0 i j k
          (RE0 * Phi2 m 0 i j k + RC0 * dHx - RC0 * Phi2 m 0 i j k) in
        ret m
      ) m
    ) m
  ) m.

(** [order2_zminus], from line 690 of the source file. *)
Definition order2_zminus {M : Type -> Type} {EV : Eval M}
    (xs xf ys yf zs zf nthreads : Z) (d : R) (m : mem) : M mem :=
  let dz := d in
  let nx := (xf - xs)%Z in
  let ny := (yf - ys)%Z in
  let nz := (zf - zs)%Z in
  prange 0 nx nthreads (fun i m =>
    let ii := (i + xs)%Z in
    range 0 ny (fun j m =>
      let jj := (j + ys)%Z in
      range 0 nz (fun k m =>
        let kk := (zf - k)%Z in
        IRA <- 1 // (RA m 0 k + RA m 1 k) ;;
        let IRA1 := IRA - 1 in
        let RB0 := RB m 0 k in
        let RE0 := RE m 0 k in
        let RF0 := RF m 0 k in
        let RC0 := IRA * RF0 in
        let RB1 := RB m 1 k in
        let RE1 := RE m 1 k in
        let RF1 := RF m 1 k in
        let RC1 := IRA * RF1 in
        let Psi1 := RB0 * Phi1 m 0 i j k + RB1 * Phi1 m 1 i j k in
        let Psi2 := RB0 * Phi2 m 0 i j k + RB1 * Phi2 m 1 i j k in
        (* Ex *)
        let materialEx := (ID m 0 ii jj kk)%Z in
        dHy <- (Hy m ii jj kk - Hy m ii jj (kk - 1)) // dz ;;
        let m := set_Ex m ii jj kk
          (Ex m ii jj kk - updatecoeffsE m materialEx 4 * (IRA1 * dHy - IRA * Psi1)) in
        let m := set_Phi1 m 1 i j k
          (RE1 * Phi1 m 1 i j k + RC1 * (dHy - Psi1)) in
        let m := set_Phi1 m 0 i j k
          (RE0 * Phi1 m 0 i j k + RC0 * (dHy - Psi1)) in
        (* Ey *)
        let materialEy := (ID m 1 ii jj kk)%Z in
        dHx <- (Hx m ii jj kk - Hx m ii jj (kk - 1)) // dz ;;
        let m := set_Ey m ii jj kk
          (Ey m ii jj kk + updatecoeffsE m materialEy 4 * (IRA1 * dHx - IRA * Psi2)) in
        let m := set_Phi2 m 1 i j k
          (RE1 * Phi2 m 1 i j k + RC1 * (dHx - Psi2)) in
        let m := set_Phi2 m 0 i j k
          (RE0 * Phi2 m 0 i j k + RC0 * (dHx - Psi2)) in
        ret m
      ) m
    ) m
  ) m.

(** [order1_zplus], from line 767 of the source file. *)
Definition order1_zplus {M : Type -> Type} {EV : Eval M}
    (xs xf ys yf zs zf nthreads : Z) (d : R) (m : mem) : M mem :=
  let dz := d in
  let nx := (xf - xs)%Z in
  let ny := (yf - ys)%Z in
  let nz := (zf - zs)%Z in
  prange 0 nx nthreads (fun i m =>
    let ii := (i + xs)%Z in
    range 0 ny (fun j m =>
      let jj := (j + ys)%Z in
      range 0 nz (fun k m =>
        let kk := (k + zs)%Z in
        IRA <- 1 // RA m 0 k ;;
        let IRA1 := IRA - 1 in
        let RB0 := RB m 0 k in
        let RE0 := RE m 0 k in
        let RF0 := RF m 0 k in
        let RC0 := IRA * RB0 * RF0 in
        (* Ex *)
        let materialEx := (ID m 0 ii jj kk)%Z in
        dHy <- (Hy m ii jj kk - Hy m ii jj (kk - 1)) // dz ;;
        let m := set_Ex m ii jj kk
          (Ex m ii jj kk - updatecoeffsE m materialEx 4 * (IRA1 * dHy - IRA * Phi1 m 0 i j k)) in
        let m := set_Phi1 m 0 i j k
          (RE0 * Phi1 m 0 i j k + RC0 * dHy - RC0 * Phi1 m 0 i j k) in
        (* Ey *)
        let materialEy := (ID m 1 ii jj kk)%Z in
        dHx <- (Hx m ii jj kk - Hx m ii jj (kk - 1)) // dz ;;
        let m := set_Ey m ii jj kk
          (Ey m ii jj kk + updatecoeffsE m materialEy 4 * (IRA1 * dHx - IRA * Phi2 m 0 i j k)) in
        let m := set_Phi2 m 0 i j k
          (RE0 * Phi2 m 0 i j k + RC0 * dHx - RC0 * Phi2 m 0 i j k) in
        ret m
      ) m
    ) m
  ) m.

(** [order2_zplus], from line 837 of the source file. *)
Definition order2_zplus {M : Type -> Type} {EV : Eval M}
    (xs xf ys yf zs zf nthreads : Z) (d : R) (m : mem) : M mem :=
  let dz := d in
  let nx := (xf - xs)%Z in
  let ny := (yf - ys)%Z in
  let nz := (zf - zs)%Z in
  prange 0 nx nthreads (fun i m =>
    let ii := (i + xs)%Z in
    range 0 ny (fun j m =>
      let jj := (j + ys)%Z in
      range 0 nz (fun k m =>
        let kk := (k + zs)%Z in
        IRA <- 1 // (RA m 0 k + RA m 1 k) ;;
        let IRA1 := IRA - 1 in
        let RB0 := RB m 0 k in
        let RE0 := RE m 0 k in
        let RF0 := RF m 0 k in
        let RC0 := IRA * RF0 in
        let RB1 := RB m 1 k in
        let RE1 := RE m 1 k in
        let RF1 := RF m 1 k in
        let RC1 := IRA * RF1 in
        let Psi1 := RB0 * Phi1 m 0 i j k + RB1 * Phi1 m 1 i j k in
        let Psi2 := RB0 * Phi2 m 0 i j k + RB1 * Phi2 m 1 i j k in
        (* Ex *)
        let materialEx := (ID m 0 ii jj kk)%Z in
        dHy <- (Hy m ii jj kk - Hy m ii jj (kk - 1)) // dz ;;
        let m := set_Ex m ii jj kk
          (Ex m ii jj kk - updatecoeffsE m materialEx 4 * (IRA1 * dHy - IRA * Psi1)) in
        let m := set_Phi1 m 1 i j k
          (RE1 * Phi1 m 1 i j k + RC1 * (dHy - Psi1)) in
        let m := set_Phi1 m 0 i j k
          (RE0 * Phi1 m 0 i j k + RC0 * (dHy - Psi1)) in
        (* Ey *)
        let materialEy := (ID m 1 ii jj kk)%Z in
        dHx <- (Hx m ii jj kk - Hx m ii jj (kk - 1)) // dz ;;
        let m := set_Ey m ii jj kk
          (Ey m ii jj kk + updatecoeffsE m materialEy 4 * (IRA1 * dHx - IRA * Psi2)) in
        let m := set_Phi2 m 1 i j k
          (RE1 * Phi2 m 1 i j k + RC1 * (dHx - Psi2)) in
        let m := set_Phi2 m 0 i j k
          (RE0 * Phi2 m 0 i j k + RC0 * (dHx - Psi2)) in
        ret m
      ) m
    ) m
  ) m.

End MRIPML.


(** ** The fractal generator

    [generate_fractal2D] computes in double precision, modelled by real
    numbers and, for the two powers and the divisor [B], by real numbers
    with [+inf]: [0.0 ** y] is [+inf] for a negative [y].  Complex numbers
    are pairs; dividing one by a real divides both parts, dividing one by
    [+inf] gives zero.  The generator is run in exact mode: its one
    division is by [B], which the guard before it makes non-zero.
    [generate_fractal3D] is the same computation over three axes. *)

Module Fractals.

Definition complex : Type := (R * R)%type.

Definition Cdiv_real (z : complex) (x : R) : complex := (fst z / x, snd z / x).

(** A double that is a real number or [+inf]. *)
Inductive xreal : Type := Finite (x : R) | PlusInf.

(** [x == 0] *)
Definition is_zero (x : xreal) : bool :=
  match x with
  | Finite x => if Req_dec_T x 0 then true else false
  | PlusInf => false
  end.

(** [z / x] for a complex [z] and a double [x]. *)
Definition Cdiv (z : complex) (x : xreal) : complex :=
  match x with
  | Finite x => Cdiv_real z x
  | PlusInf => (0, 0)
  end.

(** [x ** y] on doubles for a base [x >= 0], as C's [pow] has it: any base
    to the power zero is one; a zero base gives zero for a positive
    exponent and [+inf] for a negative one; [+inf] gives [+inf] for a
    positive exponent and zero for a negative one. *)
Definition fpow (x : xreal) (y : R) : xreal :=
  match x with
  | Finite x =>
      if Req_dec_T x 0 then
        if Req_dec_T y 0 then Finite 1
        else if Rlt_dec 0 y then Finite 0 else PlusInf
      else Finite (Rpower x y)
  | PlusInf =>
      if Req_dec_T y 0 then Finite 1
      else if Rlt_dec 0 y then PlusInf else Finite 0
  end.

Definition upd_surface (S : Z -> Z -> complex) (i j : Z) (v : complex)
  : Z -> Z -> complex :=
  fun i' j' => if (i' =? i)%Z && (j' =? j)%Z then v else S i' j'.

(** [generate_fractal2D]; the result is the array [fractalsurface] after
    the call.  [1/2] is true division, [//] and [%] are floor division and
    its remainder. *)
Definition generate_fractal2D
    (nx ny ox oy gx gy nthreads : Z) (D : R) (weighting v1 : Z -> R)
    (A : Z -> Z -> complex) (fractalsurface : Z -> Z -> complex)
  : Z -> Z -> complex :=
  let sx := (gx / 2)%Z in
  let sy := (gy / 2)%Z in
  prange (EV := Exact) 0 nx nthreads (fun i fractalsurface =>
    range (EV := Exact) 0 ny (fun j fractalsurface =>
      (* Positional vector for current position *)
      let v2x := weighting 0%Z * IZR ((i + ox + sx) mod gx) in
      let v2y := weighting 1%Z * IZR ((j + oy + sy) mod gy) in
      (* Calulate norm of v2 - v1 *)
      let rr :=
        fpow (Finite ((v2x - v1 0%Z) ^ 2 + (v2y - v1 1%Z) ^ 2)) (1 / 2) in
      let B := fpow rr D in
      let B := if is_zero B then Finite 0.9 else B in
      upd_surface fractalsurface i j (Cdiv (A i j) B)
    ) fractalsurface
  ) fractalsurface.

Definition upd_volume (V : Z -> Z -> Z -> complex) (i j k : Z) (v : complex)
  : Z -> Z -> Z -> complex :=
  fun i' j' k' =>
    if (i' =? i)%Z && (j' =? j)%Z && (k' =? k)%Z then v else V i' j' k'.

(** [generate_fractal3D]; the result is the array [fractalvolume] after
    the call. *)
Definition generate_fractal3D
    (nx ny nz ox oy oz gx gy gz nthreads : Z) (D : R) (weighting v1 : Z -> R)
    (A : Z -> Z -> Z -> complex) (fractalvolume : Z -> Z -> Z -> complex)
  : Z -> Z -> Z -> complex :=
  let sx := (gx / 2)%Z in
  let sy := (gy / 2)%Z in
  let sz := (gz / 2)%Z in
  prange (EV := Exact) 0 nx nthreads (fun i fractalvolume =>
    range (EV := Exact) 0 ny (fun j fractalvolume =>
      range (EV := Exact) 0 nz (fun k fractalvolume =>
        (* Positional vector for current position *)
        let v2x := weighting 0%Z * IZR ((i + ox + sx) mod gx) in
        let v2y := weighting 1%Z * IZR ((j + oy + sy) mod gy) in
        let v2z := weighting 2%Z * IZR ((k + oz + sz) mod gz) in
        (* Calulate norm of v2 - v1 *)
        let rr :=
          fpow (Finite ((v2x - v1 0%Z) ^ 2 + (v2y - v1 1%Z) ^ 2
                        + (v2z - v1 2%Z) ^ 2)) (1 / 2) in
        let B := fpow rr D in
        let B := if is_zero B then Finite 0.9 else B in
        upd_volume fractalvolume i j k (Cdiv (A i j k) B)
      ) fractalvolume
    ) fractalvolume
  ) fractalvolume.

End Fractals.

(** The divisor [B] of cell [(i, j)] as the prose has it: the Euclidean
    distance [r] of the shifted, weighted coordinate from [v1], raised to
    [D], with 0.9 in place of zero. *)
Definition fractal_radius (ox oy gx gy : Z) (weighting v1 : Z -> R)
    (i j : Z) : R :=
  sqrt ((weighting 0%Z * IZR ((i + ox + gx / 2) mod gx) - v1 0%Z) ^ 2
        + (weighting 1%Z * IZR ((j + oy + gy / 2) mod gy) - v1 1%Z) ^ 2).

Definition fractal_divisor (ox oy gx gy : Z) (D : R) (weighting v1 : Z -> R)
    (i j : Z) : Fractals.xreal :=
  let B :=
    Fractals.fpow
      (Fractals.Finite (fractal_radius ox oy gx gy weighting v1 i j)) D in
  if Fractals.is_zero B then Fractals.Finite 0.9 else B.

(** The concrete run: a 4 x 4 surface, [D = 2.5], unit weights, centre
    [(2, 2)], all of [A] equal to [1 + 0j]. *)
Definition run_weighting : Z -> R := fun _ => 1.
Definition run_centre : Z -> R := fun _ => 2.
Definition run_A : Z -> Z -> Fractals.complex := fun _ _ => (1, 0).
Definition run_surface : Z -> Z -> Fractals.complex :=
  Fractals.generate_fractal2D 4 4 0 0 4 4 1 2.5 run_weighting run_centre run_A
    (fun _ _ => (0, 0)).

(** Wrapped coordinate difference of index [i] in the concrete run. *)
Definition run_delta (i : Z) : R := IZR ((i + 0 + 4 / 2) mod 4) - 2.

(** ** The kernels by field kind, face and order *)

Inductive kind : Type := Magnetic | Electric.
Inductive face : Type := xminus | xplus | yminus | yplus | zminus | zplus.
Inductive order : Type := order1 | order2.
Inductive axis : Type := axis_x | axis_y | axis_z.
Inductive component : Type := cEx | cEy | cEz | cHx | cHy | cHz.
Inductive sign : Type := Plus | Minus.

(** The twenty-four kernels of the two source files. *)
Definition kernel {M : Type -> Type} {EV : Eval M}
    (kd : kind) (f : face) (o : order)
  : Z -> Z -> Z -> Z -> Z -> Z -> Z -> R -> mem -> M mem :=
  match kd, f, o with
  | Magnetic, xminus, order1 => HORIPML.order1_xminus
  | Magnetic, xminus, order2 => HORIPML.order2_xminus
  | Magnetic, xplus, order1 => HORIPML.order1_xplus
  | Magnetic, xplus, order2 => HORIPML.order2_xplus
  | Magnetic, yminus, order1 => HORIPML.order1_yminus
  | Magnetic, yminus, order2 => HORIPML.order2_yminus
  | Magnetic, yplus, order1 => HORIPML.order1_yplus
  | Magnetic, yplus, order2 => HORIPML.order2_yplus
  | Magnetic, zminus, order1 => HORIPML.order1_zminus
  | Magnetic, zminus, order2 => HORIPML.order2_zminus
  | Magnetic, zplus, order1 => HORIPML.order1_zplus
  | Magnetic, zplus, order2 => HORIPML.order2_zplus
  | Electric, xminus, order1 => MRIPML.order1_xminus
  | Electric, xminus, order2 => MRIPML.order2_xminus
  | Electric, xplus, order1 => MRIPML.order1_xplus
  | Electric, xplus, order2 => MRIPML.order2_xplus
  | Electric, yminus, order1 => MRIPML.order1_yminus
  | Electric, yminus, order2 => MRIPML.order2_yminus
  | Electric, yplus, order1 => MRIPML.order1_yplus
  | Electric, yplus, order2 => MRIPML.order2_yplus
  | Electric, zminus, order1 => MRIPML.order1_zminus
  | Electric, zminus, order2 => MRIPML.order2_zminus
  | Electric, zplus, order1 => MRIPML.order1_zplus
  | Electric, zplus, order2 => MRIPML.order2_zplus
  end.

(** Field components, in the order of axis 0 of [ID]. *)
Definition field (c : component) (m : mem) : Z -> Z -> Z -> R :=
  match c with
  | cEx => Ex m | cEy => Ey m | cEz => Ez m
  | cHx => Hx m | cHy => Hy m | cHz => Hz m
  end.

Definition component_id (c : component) : Z :=
  match c with
  | cEx => 0 | cEy => 1 | cEz => 2 | cHx => 3 | cHy => 4 | cHz => 5
  end.

Definition updatecoeffs (kd : kind) (m : mem) : Z -> Z -> R :=
  match kd with Magnetic => updatecoeffsH m | Electric => updatecoeffsE m end.

Definition normal (f : face) : axis :=
  match f with
  | xminus | xplus => axis_x
  | yminus | yplus => axis_y
  | zminus | zplus => axis_z
  end.

(** ** The per-cell update law

    What one iteration of the innermost loop does, written once for all
    kernels: the index maps, the components a face pairs with [Phi1] and
    [Phi2], the curl difference, the correction term and the new
    auxiliary values. *)

(** Global index along one axis: [lo], [hi] are the slab bounds on that
    axis and [n] the slab-local index. *)
Definition minus_index (kd : kind) (hi n : Z) : Z :=
  match kd with
  | Magnetic => (hi - (n + 1))%Z
  | Electric => (hi - n)%Z
  end.

Definition plus_index (lo n : Z) : Z := (n + lo)%Z.

Definition gx (kd : kind) (f : face) (xs xf i : Z) : Z :=
  match f with xminus => minus_index kd xf i | _ => plus_index xs i end.
Definition gy (kd : kind) (f : face) (ys yf j : Z) : Z :=
  match f with yminus => minus_index kd yf j | _ => plus_index ys j end.
Definition gz (kd : kind) (f : face) (zs zf k : Z) : Z :=
  match f with zminus => minus_index kd zf k | _ => plus_index zs k end.

(** Index into the profiles [RA], [RB], [RE], [RF]. *)
Definition profile_index (f : face) (i j k : Z) : Z :=
  match normal f with axis_x => i | axis_y => j | axis_z => k end.

(** The component updated together with [Phi1] (resp. [Phi2]), the
    component whose difference drives it, and the sign of the update. *)
Definition target1 (kd : kind) (f : face) : component :=
  match kd, normal f with
  | Magnetic, axis_x => cHy | Magnetic, axis_y => cHx | Magnetic, axis_z => cHx
  | Electric, axis_x => cEy | Electric, axis_y => cEx | Electric, axis_z => cEx
  end.

Definition target2 (kd : kind) (f : face) : component :=
  match kd, normal f with
  | Magnetic, axis_x => cHz | Magnetic, axis_y => cHz | Magnetic, axis_z => cHy
  | Electric, axis_x => cEz | Electric, axis_y => cEz | Electric, axis_z => cEy
  end.

Definition source1 (kd : kind) (f : face) : component :=
  match kd, normal f with
  | Magnetic, axis_x => cEz | Magnetic, axis_y => cEz | Magnetic, axis_z => cEy
  | Electric, axis_x => cHz | Electric, axis_y => cHz | Electric, axis_z => cHy
  end.

Definition source2 (kd : kind) (f : face) : component :=
  match kd, normal f with
  | Magnetic, axis_x => cEy | Magnetic, axis_y => cEx | Magnetic, axis_z => cEx
  | Electric, axis_x => cHy | Electric, axis_y => cHx | Electric, axis_z => cHx
  end.

Definition sign1 (kd : kind) (f : face) : sign :=
  match kd, normal f with
  | Magnetic, axis_x => Plus | Magnetic, axis_y => Minus | Magnetic, axis_z => Plus
  | Electric, axis_x => Minus | Electric, axis_y => Plus | Electric, axis_z => Minus
  end.

Definition sign2 (kd : kind) (f : face) : sign :=
  match kd, normal f with
  | Magnetic, axis_x => Minus | Magnetic, axis_y => Plus | Magnetic, axis_z => Minus
  | Electric, axis_x => Plus | Electric, axis_y => Minus | Electric, axis_z => Plus
  end.

(** Difference of [S] along the normal axis at global cell [(a, b, c)]:
    forward for the magnetic kernels, backward for the electric ones. *)
Definition curl_diff (kd : kind) (ax : axis) (S : Z -> Z -> Z -> R)
    (a b c : Z) (d : R) : R :=
  match kd, ax with
  | Magnetic, axis_x => (S (a + 1)%Z b c - S a b c) / d
  | Magnetic, axis_y => (S a (b + 1)%Z c - S a b c) / d
  | Magnetic, axis_z => (S a b (c + 1)%Z - S a b c) / d
  | Electric, axis_x => (S a b c - S (a - 1)%Z b c) / d
  | Electric, axis_y => (S a b c - S a (b - 1)%Z c) / d
  | Electric, axis_z => (S a b c - S a b (c - 1)%Z) / d
  end.

(** The correction term: [dF] is the curl difference, [P0] and [P1] the
    two auxiliary values of the cell, [n] the profile index. *)
Definition correction (kd : kind) (o : order) (m : mem) (n : Z)
    (dF P0 P1 : R) : R :=
  match kd, o with
  | Magnetic, order1 => (RA m 0 n - 1) * dF + RB m 0 n * P0
  | Magnetic, order2 =>
      (RA m 0 n * RA m 1 n - 1) * dF + RA m 1 n * RB m 0 n * P0
      + RB m 1 n * P1
  | Electric, order1 => (1 / RA m 0 n - 1) * dF - 1 / RA m 0 n * P0
  | Electric, order2 =>
      (1 / (RA m 0 n + RA m 1 n) - 1) * dF
      - 1 / (RA m 0 n + RA m 1 n) * (RB m 0 n * P0 + RB m 1 n * P1)
  end.

Definition signed (s : sign) (old x : R) : R :=
  match s with Plus => old + x | Minus => old - x end.

(** New value of the auxiliary variable of row [0]. *)
Definition next_phi0 (kd : kind) (o : order) (m : mem) (n : Z)
    (dF P0 P1 : R) : R :=
  match kd, o with
  | Magnetic, _ => RE m 0 n * P0 - RF m 0 n * dF
  | Electric, order1 =>
      RE m 0 n * P0 + 1 / RA m 0 n * RB m 0 n * RF m 0 n * dF
      - 1 / RA m 0 n * RB m 0 n * RF m 0 n * P0
  | Electric, order2 =>
      RE m 0 n * P0
      + 1 / (RA m 0 n + RA m 1 n) * RF m 0 n
        * (dF - (RB m 0 n * P0 + RB m 1 n * P1))
  end.

(** New value of the auxiliary variable of row [1]; order 1 leaves it. *)
Definition next_phi1 (kd : kind) (o : order) (m : mem) (n : Z)
    (dF P0 P1 : R) : R :=
  match kd, o with
  | _, order1 => P1
  | Magnetic, order2 =>
      RE m 1 n * P1 - RF m 1 n * (RA m 0 n * dF + RB m 0 n * P0)
  | Electric, order2 =>
      RE m 1 n * P1
      + 1 / (RA m 0 n + RA m 1 n) * RF m 1 n
        * (dF - (RB m 0 n * P0 + RB m 1 n * P1))
  end.

(** Everything an iteration at local cell [(i, j, k)] can read. *)
Definition view (kd : kind) (f : face) (xs xf ys yf zs zf i j k : Z) (m : mem) :=
  let a := gx kd f xs xf i in
  let b := gy kd f ys yf j in
  let c := gz kd f zs zf k in
  (updatecoeffsE m, updatecoeffsH m, ID m, RA m, RB m, RE m, RF m,
   match kd with
   | Magnetic => (Ex m, Ey m, Ez m, Hx m a b c, Hy m a b c, Hz m a b c)
   | Electric => (Hx m, Hy m, Hz m, Ex m a b c, Ey m a b c, Ez m a b c)
   end,
   Phi1 m 0 i j k, Phi1 m 1 i j k, Phi2 m 0 i j k, Phi2 m 1 i j k).

Definition component_eqb (c1 c2 : component) : bool :=
  (component_id c1 =? component_id c2)%Z.

(** Value of component [cp] at global cell [(a, b, c)] after the iteration
    of local cell [(i, j, k)] with profile index [n], from the memory [m]
    before it. *)
Definition law_field (kd : kind) (f : face) (o : order) (d : R)
    (a b c n i j k : Z) (cp : component) (m : mem) : R :=
  let old := field cp m a b c in
  let coeff := updatecoeffs kd m (ID m (component_id cp) a b c) 4 in
  if component_eqb cp (target1 kd f) then
    signed (sign1 kd f) old
      (coeff * correction kd o m n
                 (curl_diff kd (normal f) (field (source1 kd f) m) a b c d)
                 (Phi1 m 0 i j k) (Phi1 m 1 i j k))
  else if component_eqb cp (target2 kd f) then
    signed (sign2 kd f) old
      (coeff * correction kd o m n
                 (curl_diff kd (normal f) (field (source2 kd f) m) a b c d)
                 (Phi2 m 0 i j k) (Phi2 m 1 i j k))
  else old.

(** New auxiliary values [Phi1[r, i, j, k]] and [Phi2[r, i, j, k]]. *)
Definition law_Phi1 (kd : kind) (f : face) (o : order) (d : R)
    (a b c n r i j k : Z) (m : mem) : R :=
  let dF := curl_diff kd (normal f) (field (source1 kd f) m) a b c d in
  if (r =? 0)%Z
  then next_phi0 kd o m n dF (Phi1 m 0 i j k) (Phi1 m 1 i j k)
  else next_phi1 kd o m n dF (Phi1 m 0 i j k) (Phi1 m 1 i j k).

Definition law_Phi2 (kd : kind) (f : face) (o : order) (d : R)
    (a b c n r i j k : Z) (m : mem) : R :=
  let dF := curl_diff kd (normal f) (field (source2 kd f) m) a b c d in
  if (r =? 0)%Z
  then next_phi0 kd o m n dF (Phi2 m 0 i j k) (Phi2 m 1 i j k)
  else next_phi1 kd o m n dF (Phi2 m 0 i j k) (Phi2 m 1 i j k).

(** The law at the cell the index maps give. *)
Definition next_field (kd : kind) (f : face) (o : order)
    (xs xf ys yf zs zf : Z) (d : R) (i j k : Z) (cp : component) (m : mem) : R :=
  law_field kd f o d (gx kd f xs xf i) (gy kd f ys yf j) (gz kd f zs zf k)
    (profile_index f i j k) i j k cp m.

Definition next_Phi1 (kd : kind) (f : face) (o : order)
    (xs xf ys yf zs zf : Z) (d : R) (r i j k : Z) (m : mem) : R :=
  law_Phi1 kd f o d (gx kd f xs xf i) (gy kd f ys yf j) (gz kd f zs zf k)
    (profile_index f i j k) r i j k m.

Definition next_Phi2 (kd : kind) (f : face) (o : order)
    (xs xf ys yf zs zf : Z) (d : R) (r i j k : Z) (m : mem) : R :=
  law_Phi2 kd f o d (gx kd f xs xf i) (gy kd f ys yf j) (gz kd f zs zf k)
    (profile_index f i j k) r i j k m.

(** The view of cell [(i, j, k)] after the kernel, from the memory before. *)
Definition next_view (kd : kind) (f : face) (o : order)
    (xs xf ys yf zs zf : Z) (d : R) (i j k : Z) (m : mem) :=
  let nf := fun cp => next_field kd f o xs xf ys yf zs zf d i j k cp m in
  (updatecoeffsE m, updatecoeffsH m, ID m, RA m, RB m, RE m, RF m,
   match kd with
   | Magnetic => (Ex m, Ey m, Ez m, nf cHx, nf cHy, nf cHz)
   | Electric => (Hx m, Hy m, Hz m, nf cEx, nf cEy, nf cEz)
   end,
   next_Phi1 kd f o xs xf ys yf zs zf d 0 i j k m,
   next_Phi1 kd f o xs xf ys yf zs zf d 1 i j k m,
   next_Phi2 kd f o xs xf ys yf zs zf d 0 i j k m,
   next_Phi2 kd f o xs xf ys yf zs zf d 1 i j k m).

(** ** Slab cells and the cells a kernel writes *)

Definition in_slab (xs xf ys yf zs zf i j k : Z) : Prop :=
  (0 <= i < xf - xs)%Z /\ (0 <= j < yf - ys)%Z /\ (0 <= k < zf - zs)%Z.

(** Global cells reached from a slab-local cell by the index maps. *)
Definition touched (kd : kind) (f : face) (xs xf ys yf zs zf a b c : Z) : Prop :=
  exists i j k, in_slab xs xf ys yf zs zf i j k /\
    a = gx kd f xs xf i /\ b = gy kd f ys yf j /\ c = gz kd f zs zf k.

(** Rows of [Phi1], [Phi2] and of the profiles used at each order. *)
Definition rows (o : order) : Z :=
  match o with order1 => 1%Z | order2 => 2%Z end.

(** The arrays a kernel of kind [kd] on face [f] never assigns. *)
Definition untouched_arrays (kd : kind) (f : face) (m : mem) :=
  (updatecoeffsE m, updatecoeffsH m, ID m, RA m, RB m, RE m, RF m,
   match kd, normal f with
   | Magnetic, axis_x => (Ex m, Ey m, Ez m, Hx m)
   | Magnetic, axis_y => (Ex m, Ey m, Ez m, Hy m)
   | Magnetic, axis_z => (Ex m, Ey m, Ez m, Hz m)
   | Electric, axis_x => (Hx m, Hy m, Hz m, Ex m)
   | Electric, axis_y => (Hx m, Hy m, Hz m, Ey m)
   | Electric, axis_z => (Hx m, Hy m, Hz m, Ez m)
   end).

(** ** The sign table of the faces

    Sign in front of the correction term of each component on each face;
    [None] marks the component normal to the face. *)
Definition sign_table (f : face) (cp : component) : option sign :=
  match normal f, cp with
  | axis_x, cHx => None | axis_x, cHy => Some Plus | axis_x, cHz => Some Minus
  | axis_x, cEx => None | axis_x, cEy => Some Minus | axis_x, cEz => Some Plus
  | axis_y, cHx => Some Minus | axis_y, cHy => None | axis_y, cHz => Some Plus
  | axis_y, cEx => Some Plus | axis_y, cEy => None | axis_y, cEz => Some Minus
  | axis_z, cHx => Some Plus | axis_z, cHy => Some Minus | axis_z, cHz => None
  | axis_z, cEx => Some Minus | axis_z, cEy => Some Plus | axis_z, cEz => None
  end.

(** The kind of kernel that updates a component. *)
Definition kind_of (cp : component) : kind :=
  match cp with
  | cEx | cEy | cEz => Electric
  | cHx | cHy | cHz => Magnetic
  end.

(** The correction term of component [cp]: update coefficient times the
    bracket built from the curl difference and the auxiliary values. *)
Definition correction_term (kd : kind) (f : face) (o : order) (d : R)
    (a b c n i j k : Z) (cp : component) (m : mem) : R :=
  updatecoeffs kd m (ID m (component_id cp) a b c) 4
  * (if component_eqb cp (target1 kd f)
     then correction kd o m n
            (curl_diff kd (normal f) (field (source1 kd f) m) a b c d)
            (Phi1 m 0 i j k) (Phi1 m 1 i j k)
     else correction kd o m n
            (curl_diff kd (normal f) (field (source2 kd f) m) a b c d)
            (Phi2 m 0 i j k) (Phi2 m 1 i j k)).

(** A memory with distinct values in its arrays, for concrete runs. *)
Definition sample_mem : mem :=
  {| updatecoeffsE := fun _ _ => 2;
     updatecoeffsH := fun _ _ => 3;
     ID := fun _ _ _ _ => 0%Z;
     Ex := fun a b c => IZR (a + 2 * b + 3 * c);
     Ey := fun a b c => IZR (2 * a + 3 * b + c);
     Ez := fun a b c => IZR (3 * a + b + 2 * c);
     Hx := fun a b c => IZR (a * a + b + c);
     Hy := fun a b c => IZR (a + b * b + c);
     Hz := fun a b c => IZR (a + b + c * c);
     Phi1 := fun r _ _ _ => IZR (r + 1);
     Phi2 := fun r _ _ _ => IZR (r + 3);
     RA := fun r n => IZR (r + n + 2);
     RB := fun r n => IZR (r + 2 * n + 1);
     RE := fun r n => IZR (2 * r + n + 1);
     RF := fun r n => IZR (r + n + 3) |}.

(** ** The region of a field array a kernel writes *)

(** Electric kernels of a minus face write one cell further along the
    normal axis than the slab bounds: cells [lo + 1 .. hi]. *)
Definition normal_shift (kd : kind) (f : face) (ax : axis) : Z :=
  match kd, f, ax with
  | Electric, xminus, axis_x => 1%Z
  | Electric, yminus, axis_y => 1%Z
  | Electric, zminus, axis_z => 1%Z
  | _, _, _ => 0%Z
  end.

Definition written (kd : kind) (f : face) (xs xf ys yf zs zf a b c : Z) : Prop :=
  (xs + normal_shift kd f axis_x <= a < xf + normal_shift kd f axis_x)%Z /\
  (ys + normal_shift kd f axis_y <= b < yf + normal_shift kd f axis_y)%Z /\
  (zs + normal_shift kd f axis_z <= c < zf + normal_shift kd f axis_z)%Z.

(** Slab-local index of a global index along one axis. *)
Definition local_x (kd : kind) (f : face) (xs xf a : Z) : Z :=
  match f, kd with
  | xminus, Magnetic => (xf - 1 - a)%Z
  | xminus, Electric => (xf - a)%Z
  | _, _ => (a - xs)%Z
  end.
Definition local_y (kd : kind) (f : face) (ys yf b : Z) : Z :=
  match f, kd with
  | yminus, Magnetic => (yf - 1 - b)%Z
  | yminus, Electric => (yf - b)%Z
  | _, _ => (b - ys)%Z
  end.
Definition local_z (kd : kind) (f : face) (zs zf c : Z) : Z :=
  match f, kd with
  | zminus, Magnetic => (zf - 1 - c)%Z
  | zminus, Electric => (zf - c)%Z
  | _, _ => (c - zs)%Z
  end.

(** ** Zero excitation *)

(** Both driving curl differences vanish at every cell of the slab. *)
Definition quiet (kd : kind) (f : face) (xs xf ys yf zs zf : Z) (d : R)
    (m : mem) : Prop :=
  forall i j k, in_slab xs xf ys yf zs zf i j k ->
    let a := gx kd f xs xf i in
    let b := gy kd f ys yf j in
    let c := gz kd f zs zf k in
    curl_diff kd (normal f) (field (source1 kd f) m) a b c d = 0 /\
    curl_diff kd (normal f) (field (source2 kd f) m) a b c d = 0.

(** [n] successive calls of the same kernel. *)
Definition calls (kd : kind) (f : face) (o : order)
    (xs xf ys yf zs zf nthreads : Z) (d : R) (n : nat) (m : mem) : mem :=
  Nat.iter n (kernel (EV := Exact) kd f o xs xf ys yf zs zf nthreads d) m.

(** Memories for the concrete runs below. *)

(** Profiles with [RA[1] = 1], [RB[1] = RE[1] = RF[1] = 0], auxiliary
    arrays zero, a ramp in [Hz]. *)
Definition reduction_mem : mem :=
  {| updatecoeffsE := fun _ _ => 1;
     updatecoeffsH := fun _ _ => 1;
     ID := fun _ _ _ _ => 0%Z;
     Ex := fun _ _ _ => 0;
     Ey := fun _ _ _ => 0;
     Ez := fun _ _ _ => 0;
     Hx := fun _ _ _ => 0;
     Hy := fun _ _ _ => 0;
     Hz := fun a _ _ => IZR a;
     Phi1 := fun _ _ _ _ => 0;
     Phi2 := fun _ _ _ _ => 0;
     RA := fun _ _ => 1;
     RB := fun _ _ => 0;
     RE := fun _ _ => 0;
     RF := fun _ _ => 0 |}.

(** Ramps in all six fields, a first pole with profiles that grow with the
    depth and row [0] of the auxiliary arrays non-zero; a second pole with
    [RA[1] = 1], [RB[1] = RE[1] = RF[1] = 0] and row [1] of the auxiliary
    arrays zero. *)
Definition reduction_run_mem : mem :=
  {| updatecoeffsE := fun _ _ => 2;
     updatecoeffsH := fun _ _ => 3;
     ID := fun _ _ _ _ => 0%Z;
     Ex := fun a b c => IZR (a + 2 * b + 3 * c);
     Ey := fun a b c => IZR (2 * a + 3 * b + c);
     Ez := fun a b c => IZR (3 * a + b + 2 * c);
     Hx := fun a b c => IZR (a * a + b + c);
     Hy := fun a b c => IZR (a + b * b + c);
     Hz := fun a b c => IZR (a + b + c * c);
     Phi1 := fun r _ _ _ => if (r =? 1)%Z then 0 else 5;
     Phi2 := fun r _ _ _ => if (r =? 1)%Z then 0 else 7;
     RA := fun r n => if (r =? 1)%Z then 1 else IZR (n + 2);
     RB := fun r n => if (r =? 1)%Z then 0 else IZR (2 * n + 1);
     RE := fun r n => if (r =? 1)%Z then 0 else IZR (n + 1);
     RF := fun r n => if (r =? 1)%Z then 0 else IZR (n + 3) |}.

(** All fields zero, auxiliary arrays and profiles one, except [RE = 2]. *)
Definition decay_mem : mem :=
  {| updatecoeffsE := fun _ _ => 1;
     updatecoeffsH := fun _ _ => 1;
     ID := fun _ _ _ _ => 0%Z;
     Ex := fun _ _ _ => 0;
     Ey := fun _ _ _ => 0;
     Ez := fun _ _ _ => 0;
     Hx := fun _ _ _ => 0;
     Hy := fun _ _ _ => 0;
     Hz := fun _ _ _ => 0;
     Phi1 := fun _ _ _ _ => 1;
     Phi2 := fun _ _ _ _ => 1;
     RA := fun _ _ => 1;
     RB := fun _ _ => 1;
     RE := fun _ _ => 2;
     RF := fun _ _ => 1 |}.

(** ** Divisors of the electric kernels *)

(** Extent of the slab along the normal axis of a face. *)
Definition depth (f : face) (xs xf ys yf zs zf : Z) : Z :=
  match normal f with
  | axis_x => (xf - xs)%Z
  | axis_y => (yf - ys)%Z
  | axis_z => (zf - zs)%Z
  end.

(** What [IRA] is the inverse of, at profile index [n]. *)
Definition divisor (o : order) (m : mem) (n : Z) : R :=
  match o with
  | order1 => RA m 0 n
  | order2 => RA m 0 n + RA m 1 n
  end.

(** A memory whose profile [RA] is zero everywhere. *)
Definition zero_RA_mem : mem :=
  {| updatecoeffsE := fun _ _ => 1;
     updatecoeffsH := fun _ _ => 1;
     ID := fun _ _ _ _ => 0%Z;
     Ex := fun _ _ _ => 0;
     Ey := fun _ _ _ => 0;
     Ez := fun _ _ _ => 0;
     Hx := fun _ _ _ => 0;
     Hy := fun _ _ _ => 0;
     Hz := fun _ _ _ => 0;
     Phi1 := fun _ _ _ _ => 0;
     Phi2 := fun _ _ _ _ => 0;
     RA := fun _ _ => 0;
     RB := fun _ _ => 1;
     RE := fun _ _ => 1;
     RF := fun _ _ => 1 |}.

(** ** Memories compared and combined *)

(** Two memories with the same tables, [ID] and profiles. *)
Definition same_coefficients (m1 m2 : mem) : Prop :=
  updatecoeffsE m1 = updatecoeffsE m2 /\ updatecoeffsH m1 = updatecoeffsH m2 /\
  ID m1 = ID m2 /\
  RA m1 = RA m2 /\ RB m1 = RB m2 /\ RE m1 = RE m2 /\ RF m1 = RF m2.

(** The memory whose field and auxiliary arrays are [a * m1 + b * m2],
    entry by entry, with the tables, [ID] and profiles of [m1]. *)
Definition combine (a b : R) (m1 m2 : mem) : mem :=
  {| updatecoeffsE := updatecoeffsE m1;
     updatecoeffsH := updatecoeffsH m1;
     ID := ID m1;
     Ex := fun x y z => a * Ex m1 x y z + b * Ex m2 x y z;
     Ey := fun x y z => a * Ey m1 x y z + b * Ey m2 x y z;
     Ez := fun x y z => a * Ez m1 x y z + b * Ez m2 x y z;
     Hx := fun x y z => a * Hx m1 x y z + b * Hx m2 x y z;
     Hy := fun x y z => a * Hy m1 x y z + b * Hy m2 x y z;
     Hz := fun x y z => a * Hz m1 x y z + b * Hz m2 x y z;
     Phi1 := fun r i j k => a * Phi1 m1 r i j k + b * Phi1 m2 r i j k;
     Phi2 := fun r i j k => a * Phi2 m1 r i j k + b * Phi2 m2 r i j k;
     RA := RA m1;
     RB := RB m1;
     RE := RE m1;
     RF := RF m1 |}.

(** The memory whose auxiliary arrays hold [RB[0, n]] times those of [m],
    [n] the profile index of the entry on face [f]. *)
Definition absorb_RB (f : face) (m : mem) : mem :=
  {| updatecoeffsE := updatecoeffsE m;
     updatecoeffsH := updatecoeffsH m;
     ID := ID m;
     Ex := Ex m;
     Ey := Ey m;
     Ez := Ez m;
     Hx := Hx m;
     Hy := Hy m;
     Hz := Hz m;
     Phi1 := fun r i j k => RB m 0 (profile_index f i j k) * Phi1 m r i j k;
     Phi2 := fun r i j k => RB m 0 (profile_index f i j k) * Phi2 m r i j k;
     RA := RA m;
     RB := RB m;
     RE := RE m;
     RF := RF m |}.

(** The two faces of an axis. *)
Definition minus_face (ax : axis) : face :=
  match ax with axis_x => xminus | axis_y => yminus | axis_z => zminus end.

Definition plus_face (ax : axis) : face :=
  match ax with axis_x => xplus | axis_y => yplus | axis_z => zplus end.

(** The memory with the profiles, and the auxiliary arrays along axis
    [ax], in reverse order: index [n] holds what index [len - 1 - n]
    held. *)
Definition mirror (ax : axis) (len : Z) (m : mem) : mem :=
  let rv := fun n : Z => (len - 1 - n)%Z in
  let rv4 := fun (P : Z -> Z -> Z -> Z -> R) r i j k =>
    match ax with
    | axis_x => P r (rv i) j k
    | axis_y => P r i (rv j) k
    | axis_z => P r i j (rv k)
    end in
  {| updatecoeffsE := updatecoeffsE m;
     updatecoeffsH := updatecoeffsH m;
     ID := ID m;
     Ex := Ex m;
     Ey := Ey m;
     Ez := Ez m;
     Hx := Hx m;
     Hy := Hy m;
     Hz := Hz m;
     Phi1 := rv4 (Phi1 m);
     Phi2 := rv4 (Phi2 m);
     RA := fun r n => RA m r (rv n);
     RB := fun r n => RB m r (rv n);
     RE := fun r n => RE m r (rv n);
     RF := fun r n => RF m r (rv n) |}.

(** ** The cells a call reads *)

(** Cells a call reads of its two source components: the cells it
    writes and, for each, the neighbour along the normal axis that the
    curl difference takes in, the next cell for a magnetic kernel and the
    previous one for an electric kernel. *)
Definition read (kd : kind) (f : face) (xs xf ys yf zs zf a b c : Z) : Prop :=
  written kd f xs xf ys yf zs zf a b c \/
  match kd, normal f with
  | Magnetic, axis_x => written kd f xs xf ys yf zs zf (a - 1) b c
  | Magnetic, axis_y => written kd f xs xf ys yf zs zf a (b - 1) c
  | Magnetic, axis_z => written kd f xs xf ys yf zs zf a b (c - 1)
  | Electric, axis_x => written kd f xs xf ys yf zs zf (a + 1) b c
  | Electric, axis_y => written kd f xs xf ys yf zs zf a (b + 1) c
  | Electric, axis_z => written kd f xs xf ys yf zs zf a b (c + 1)
  end.

(** ** Profiles that do not stretch *)

Definition identity_profile (kd : kind) (o : order) (m : mem) (n : Z) : Prop :=
  match kd, o with
  | Magnetic, order1 => RA m 0 n = 1 /\ RB m 0 n = 0
  | Magnetic, order2 =>
      RA m 0 n * RA m 1 n = 1 /\ RB m 0 n = 0 /\ RB m 1 n = 0
  | Electric, order1 => RA m 0 n = 1 /\ RB m 0 n = 0
  | Electric, order2 =>
      RA m 0 n + RA m 1 n = 1 /\ RB m 0 n = 0 /\ RB m 1 n = 0
  end.

(** [sample_mem] with row 1 of [RA] set to [ra1] and row 1 of [RB] set to
    zero. *)
Definition one_pole_mem (ra1 : R) : mem :=
  {| updatecoeffsE := updatecoeffsE sample_mem;
     updatecoeffsH := updatecoeffsH sample_mem;
     ID := ID sample_mem;
     Ex := Ex sample_mem;
     Ey := Ey sample_mem;
     Ez := Ez sample_mem;
     Hx := Hx sample_mem;
     Hy := Hy sample_mem;
     Hz := Hz sample_mem;
     Phi1 := Phi1 sample_mem;
     Phi2 := Phi2 sample_mem;
     RA := fun r n => if (r =? 0)%Z then RA sample_mem 0 n else ra1;
     RB := fun r n => if (r =? 0)%Z then RB sample_mem 0 n else 0;
     RE := RE sample_mem;
     RF := RF sample_mem |}.

(** ** Slabs of one grid *)

(** The grid arrays of [m] (tables, [ID], fields) with the slab arrays of
    [p] (auxiliary arrays and profiles): every slab of a grid is called
    with auxiliary arrays and profiles of its own. *)
Definition with_slab (m p : mem) : mem :=
  {| updatecoeffsE := updatecoeffsE m;
     updatecoeffsH := updatecoeffsH m;
     ID := ID m;
     Ex := Ex m;
     Ey := Ey m;
     Ez := Ez m;
     Hx := Hx m;
     Hy := Hy m;
     Hz := Hz m;
     Phi1 := Phi1 p;
     Phi2 := Phi2 p;
     RA := RA p;
     RB := RB p;
     RE := RE p;
     RF := RF p |}.

(** [sample_mem] changed where an order-1 magnetic kernel does not look:
    the columns of [updatecoeffsH] other than 4, and the rows of [RA] and
    of [Phi1] other than 0. *)
Definition off_footprint_mem : mem :=
  {| updatecoeffsE := updatecoeffsE sample_mem;
     updatecoeffsH := fun material col =>
       if (col =? 4)%Z then updatecoeffsH sample_mem material col else 0;
     ID := ID sample_mem;
     Ex := Ex sample_mem;
     Ey := Ey sample_mem;
     Ez := Ez sample_mem;
     Hx := Hx sample_mem;
     Hy := Hy sample_mem;
     Hz := Hz sample_mem;
     Phi1 := fun r i j k =>
       if (r =? 0)%Z then Phi1 sample_mem r i j k else 0;
     Phi2 := Phi2 sample_mem;
     RA := fun r n => if (r =? 0)%Z then RA sample_mem r n else 0;
     RB := RB sample_mem;
     RE := RE sample_mem;
     RF := RF sample_mem |}.

(** ** When a call divides *)

(** The loops around the division by the profile run at least once: the
    x-face kernels divide in the loop over [i], the y-face kernels in the
    loop over [j] inside it, the z-face kernels in the innermost loop. *)
Definition outer_loops_run (f : face) (xs xf ys yf : Z) : Prop :=
  match normal f with
  | axis_x => True
  | axis_y => (xs < xf)%Z
  | axis_z => (xs < xf)%Z /\ (ys < yf)%Z
  end.

Definition nonempty (xs xf ys yf zs zf : Z) : Prop :=
  (xs < xf)%Z /\ (ys < yf)%Z /\ (zs < zf)%Z.

(** The field entries a call assigns: its two target components on the
    written region. *)
Definition assigns (kd : kind) (f : face) (xs xf ys yf zs zf : Z)
    (cp : component) (x y z : Z) : Prop :=
  (cp = target1 kd f \/ cp = target2 kd f) /\
  written kd f xs xf ys yf zs zf x y z.

(** ** Positions in the fractal generators *)

(** Weighted, shifted and wrapped position of an index along each axis,
    relative to the centre [v1]. *)
Definition fractal_dx (ox gx : Z) (weighting v1 : Z -> R) (i : Z) : R :=
  weighting 0%Z * IZR ((i + ox + gx / 2) mod gx) - v1 0%Z.
Definition fractal_dy (oy gy : Z) (weighting v1 : Z -> R) (j : Z) : R :=
  weighting 1%Z * IZR ((j + oy + gy / 2) mod gy) - v1 1%Z.
Definition fractal_dz (oz gz : Z) (weighting v1 : Z -> R) (k : Z) : R :=
  weighting 2%Z * IZR ((k + oz + gz / 2) mod gz) - v1 2%Z.

(** The divisor [B] of a cell at squared distance [s] from the centre. *)
Definition divisor_at (s D : R) : Fractals.xreal :=
  let B := Fractals.fpow (Fractals.Finite (sqrt s)) D in
  if Fractals.is_zero B then Fractals.Finite 0.9 else B.

(** All of the three-dimensional [A] equal to [1 + 0j]. *)
Definition run_A3 : Z -> Z -> Z -> Fractals.complex := fun _ _ _ => (1, 0).
(** * Properties *)

(** ** Array updates *)

Lemma upd3_eq (A : Z -> Z -> Z -> R) i j k v : upd3 A i j k v i j k = v.
Proof. unfold upd3. now rewrite !Z.eqb_refl. Qed.

Lemma upd3_neq (A : Z -> Z -> Z -> R) i j k v i' j' k' :
  (i' <> i \/ j' <> j \/ k' <> k)%Z -> upd3 A i j k v i' j' k' = A i' j' k'.
Proof.
  unfold upd3. intros H.
  destruct (Z.eqb_spec i' i), (Z.eqb_spec j' j), (Z.eqb_spec k' k);
    simpl; try reflexivity.
  exfalso. lia.
Qed.

Lemma upd4_eq (A : Z -> Z -> Z -> Z -> R) o i j k v :
  upd4 A o i j k v o i j k = v.
Proof. unfold upd4. now rewrite !Z.eqb_refl. Qed.

Lemma upd4_neq (A : Z -> Z -> Z -> Z -> R) o i j k v o' i' j' k' :
  (o' <> o \/ i' <> i \/ j' <> j \/ k' <> k)%Z ->
  upd4 A o i j k v o' i' j' k' = A o' i' j' k'.
Proof.
  unfold upd4. intros H.
  destruct (Z.eqb_spec o' o), (Z.eqb_spec i' i), (Z.eqb_spec j' j),
    (Z.eqb_spec k' k); simpl; try reflexivity.
  exfalso. lia.
Qed.

(** ** Loops in exact mode *)

Section ExactLoops.
Context {St : Type}.
Implicit Types (body : Z -> St -> St) (s : St).

(** An observation every iteration preserves is preserved by the loop. *)
Lemma for_loop_preserve {X : Type} (obs : St -> X) n i body s :
  (forall t s', (i <= t < i + Z.of_nat n)%Z -> obs (body t s') = obs s') ->
  obs (for_loop (EV := Exact) n i body s) = obs s.
Proof.
  revert i s. induction n as [|n IH]; intros i s H; [reflexivity|].
  simpl. rewrite IH.
  - apply H. lia.
  - intros t s' Ht. apply H. lia.
Qed.

Lemma range_preserve {X : Type} (obs : St -> X) lo hi body s :
  (forall t s', (lo <= t < hi)%Z -> obs (body t s') = obs s') ->
  obs (range (EV := Exact) lo hi body s) = obs s.
Proof.
  intros H. unfold range. apply for_loop_preserve.
  intros t s' Ht. apply H. lia.
Qed.

(** The iteration [t0] produces [x] from any state with the view [v0];
    the other iterations preserve the view. *)
Lemma for_loop_hit {V X : Type} (vw : St -> V) (pr : V -> X) (v0 : V) (x : X)
    n i body t0 s :
  (i <= t0 < i + Z.of_nat n)%Z ->
  vw s = v0 ->
  (forall t s', (i <= t < i + Z.of_nat n)%Z -> t <> t0 ->
                vw (body t s') = vw s') ->
  (forall s', vw s' = v0 -> pr (vw (body t0 s')) = x) ->
  pr (vw (for_loop (EV := Exact) n i body s)) = x.
Proof.
  revert i s. induction n as [|n IH]; intros i s Ht Hs Hother Hhit; [lia|].
  simpl. destruct (Z.eq_dec i t0) as [->|Hne].
  - rewrite (for_loop_preserve vw).
    + now apply Hhit.
    + intros t s' Ht'. apply Hother; lia.
  - apply IH.
    + lia.
    + rewrite Hother; [assumption | lia | assumption].
    + intros t s' Ht' Hne'. apply Hother; [lia | assumption].
    + assumption.
Qed.

Lemma range_hit {V X : Type} (vw : St -> V) (pr : V -> X) (v0 : V) (x : X)
    lo hi body t0 s :
  (lo <= t0 < hi)%Z ->
  vw s = v0 ->
  (forall t s', (lo <= t < hi)%Z -> t <> t0 -> vw (body t s') = vw s') ->
  (forall s', vw s' = v0 -> pr (vw (body t0 s')) = x) ->
  pr (vw (range (EV := Exact) lo hi body s)) = x.
Proof.
  intros Ht Hs Hother Hhit. unfold range.
  apply for_loop_hit with (v0 := v0) (t0 := t0); try assumption.
  - lia.
  - intros t s' Ht' Hne. apply Hother; [lia | assumption].
Qed.
End ExactLoops.

(** ** One kernel call, cell by cell *)

Ltac unfold_kernel :=
  cbv beta iota delta [kernel
    HORIPML.order1_xminus HORIPML.order2_xminus
    HORIPML.order1_xplus HORIPML.order2_xplus
    HORIPML.order1_yminus HORIPML.order2_yminus
    HORIPML.order1_yplus HORIPML.order2_yplus
    HORIPML.order1_zminus HORIPML.order2_zminus
    HORIPML.order1_zplus HORIPML.order2_zplus
    MRIPML.order1_xminus MRIPML.order2_xminus
    MRIPML.order1_xplus MRIPML.order2_xplus
    MRIPML.order1_yminus MRIPML.order2_yminus
    MRIPML.order1_yplus MRIPML.order2_yplus
    MRIPML.order1_zminus MRIPML.order2_zminus
    MRIPML.order1_zplus MRIPML.order2_zplus
    prange].

Ltac unfold_exact :=
  unfold_kernel;
  cbn [bind fdiv ret Exact
       set_Ex set_Ey set_Ez set_Hx set_Hy set_Hz set_Phi1 set_Phi2
       updatecoeffsE updatecoeffsH ID Ex Ey Ez Hx Hy Hz Phi1 Phi2
       RA RB RE RF].

Ltac red_law :=
  cbv beta iota zeta delta [view next_view next_field next_Phi1 next_Phi2
    law_field law_Phi1 law_Phi2
    next_phi0 next_phi1 correction curl_diff signed sign1 sign2
    target1 target2 source1 source2 field component_id component_eqb
    updatecoeffs gx gy gz minus_index plus_index profile_index normal
    Z.eqb Pos.eqb].

Ltac red_mem :=
  cbn [set_Ex set_Ey set_Ez set_Hx set_Hy set_Hz set_Phi1 set_Phi2
       updatecoeffsE updatecoeffsH ID Ex Ey Ez Hx Hy Hz Phi1 Phi2
       RA RB RE RF].

Ltac red_tests :=
  rewrite ?Z.eqb_refl, ?andb_false_r; cbn [andb Z.eqb Pos.eqb].

(** The cell just written is the cell observed. *)
Ltac red_upd := unfold upd3, upd4; red_tests.

(** The cell just written differs from the cell observed in the index
    that the hypothesis [t <> i] is about. *)
Ltac red_upd_miss :=
  unfold upd3, upd4;
  match goal with
  | Hne : ?t <> ?i |- _ =>
      repeat match goal with
      | |- context [(?a =? ?b)%Z] =>
          lazymatch a with context [i] => idtac end;
          lazymatch b with context [t] => idtac end;
          rewrite (proj2 (Z.eqb_neq a b)) by lia
      end
  end;
  red_tests.

Ltac miss W :=
  repeat (apply range_preserve with (obs := W); intros ? ? ?);
  red_law; red_mem; red_upd_miss; reflexivity.

Ltac nest i j k :=
  match goal with
  | |- ?W (range _ _ _ ?m) = _ =>
      apply range_hit with (vw := W) (pr := fun v => v) (v0 := W m) (t0 := i);
      [ lia | reflexivity | intros ? ? ? ?; miss W | intros ? ?;
      apply range_hit with (vw := W) (pr := fun v => v) (v0 := W m) (t0 := j);
      [ lia | assumption | intros ? ? ? ?; miss W | intros ? ?;
      apply range_hit with (vw := W) (pr := fun v => v) (v0 := W m) (t0 := k);
      [ lia | assumption | intros ? ? ? ?; miss W | intros ? ? ]]]
  end.

Ltac red_law_in_hyps :=
  repeat match goal with
  | H : view _ _ _ _ _ _ _ _ _ _ _ _ = _ |- _ => revert H
  end; red_law; intros.

Ltac use_views :=
  repeat match goal with
  | H : (_, _) = (_, _) |- _ => injection H; clear H; intros
  end;
  repeat apply f_equal2; try reflexivity; try assumption; congruence.

(** The view of a slab cell after a call is given by the update law
    applied to the memory before the call. *)
Lemma kernel_view kd f o xs xf ys yf zs zf nthreads d m i j k :
  (0 <= i < xf - xs)%Z -> (0 <= j < yf - ys)%Z -> (0 <= k < zf - zs)%Z ->
  view kd f xs xf ys yf zs zf i j k
     (kernel (EV := Exact) kd f o xs xf ys yf zs zf nthreads d m) =
  next_view kd f o xs xf ys yf zs zf d i j k m.
Proof.
  intros Hi Hj Hk.
  destruct kd, f, o; unfold_exact; nest i j k;
    red_law; red_law_in_hyps; red_mem; red_upd; use_views.
Qed.

(** ** What a call leaves alone *)

Lemma kernel_untouched_arrays kd f o xs xf ys yf zs zf nthreads d m :
  untouched_arrays kd f
    (kernel (EV := Exact) kd f o xs xf ys yf zs zf nthreads d m)
  = untouched_arrays kd f m.
Proof.
  destruct kd, f, o; unfold_exact;
    repeat (apply range_preserve
              with (obs := untouched_arrays _ _); intros ? ? ?);
    reflexivity.
Qed.

Lemma kernel_other_field kd f o xs xf ys yf zs zf nthreads d m cp :
  cp <> target1 kd f -> cp <> target2 kd f ->
  field cp (kernel (EV := Exact) kd f o xs xf ys yf zs zf nthreads d m)
  = field cp m.
Proof.
  intros H1 H2.
  pose proof (kernel_untouched_arrays kd f o xs xf ys yf zs zf nthreads d m) as H.
  destruct kd, f, cp;
    try (exfalso; apply H1; reflexivity);
    try (exfalso; apply H2; reflexivity);
    cbv beta iota delta [untouched_arrays normal field] in H |- *;
    congruence.
Qed.

Lemma kernel_readonly kd f o xs xf ys yf zs zf nthreads d m :
  let m' := kernel (EV := Exact) kd f o xs xf ys yf zs zf nthreads d m in
  updatecoeffsE m' = updatecoeffsE m /\ updatecoeffsH m' = updatecoeffsH m /\
  ID m' = ID m /\
  RA m' = RA m /\ RB m' = RB m /\ RE m' = RE m /\ RF m' = RF m.
Proof.
  intros m'.
  pose proof (kernel_untouched_arrays kd f o xs xf ys yf zs zf nthreads d m) as H.
  unfold untouched_arrays in H. fold m' in H.
  injection H as H1 H2 H3 H4 H5 H6 H7 _. repeat split; assumption.
Qed.

Lemma upd3_other (A : Z -> Z -> Z -> R) i j k v i' j' k' :
  ~ (i' = i /\ j' = j /\ k' = k) -> upd3 A i j k v i' j' k' = A i' j' k'.
Proof. intros H. apply upd3_neq. lia. Qed.

Lemma upd4_other (A : Z -> Z -> Z -> Z -> R) o i j k v o' i' j' k' :
  ~ (o' = o /\ i' = i /\ j' = j /\ k' = k) ->
  upd4 A o i j k v o' i' j' k' = A o' i' j' k'.
Proof. intros H. apply upd4_neq. lia. Qed.

(** A field entry that no slab cell maps to is not changed. *)
Lemma kernel_outside kd f o xs xf ys yf zs zf nthreads d m cp a b c :
  ~ touched kd f xs xf ys yf zs zf a b c ->
  field cp (kernel (EV := Exact) kd f o xs xf ys yf zs zf nthreads d m) a b c
  = field cp m a b c.
Proof.
  intros Hout.
  assert (Hno : forall i j k, (0 <= i < xf - xs)%Z -> (0 <= j < yf - ys)%Z ->
                 (0 <= k < zf - zs)%Z ->
                 ~ (a = gx kd f xs xf i /\ b = gy kd f ys yf j
                    /\ c = gz kd f zs zf k)).
  { intros i j k Hi Hj Hk Heq. apply Hout. exists i, j, k.
    unfold in_slab. tauto. }
  clear Hout.
  set (obs := fun s : mem =>
                (Ex s a b c, Ey s a b c, Ez s a b c,
                 Hx s a b c, Hy s a b c, Hz s a b c)).
  assert (H : obs (kernel (EV := Exact) kd f o xs xf ys yf zs zf nthreads d m)
              = obs m).
  { destruct kd, f, o; unfold_exact;
      repeat (apply range_preserve with (obs := obs); intros ? ? ?);
      unfold obs; red_mem;
      rewrite ?upd3_other by (apply Hno; assumption); reflexivity. }
  unfold obs in H. destruct cp; cbv beta iota delta [field]; congruence.
Qed.

(** An auxiliary entry outside the slab, or in a row the order does not
    use, is not changed. *)
Lemma kernel_Phi_outside kd f o xs xf ys yf zs zf nthreads d m r i j k :
  ~ (in_slab xs xf ys yf zs zf i j k /\ (0 <= r < rows o)%Z) ->
  let m' := kernel (EV := Exact) kd f o xs xf ys yf zs zf nthreads d m in
  Phi1 m' r i j k = Phi1 m r i j k /\ Phi2 m' r i j k = Phi2 m r i j k.
Proof.
  intros Hout m'. subst m'. unfold in_slab in Hout.
  set (obs := fun s : mem => (Phi1 s r i j k, Phi2 s r i j k)).
  assert (H : obs (kernel (EV := Exact) kd f o xs xf ys yf zs zf nthreads d m)
              = obs m).
  { destruct kd, f, o; cbn [rows] in Hout; unfold_exact;
      repeat (apply range_preserve with (obs := obs); intros ? ? ?);
      unfold obs; red_mem;
      rewrite ?upd4_other by lia; reflexivity. }
  unfold obs in H. injection H as H1 H2. split; assumption.
Qed.

(** ** The update law holds at every slab cell *)

Lemma kernel_cell_field kd f o xs xf ys yf zs zf nthreads d m i j k cp :
  in_slab xs xf ys yf zs zf i j k ->
  field cp (kernel (EV := Exact) kd f o xs xf ys yf zs zf nthreads d m)
    (gx kd f xs xf i) (gy kd f ys yf j) (gz kd f zs zf k)
  = next_field kd f o xs xf ys yf zs zf d i j k cp m.
Proof.
  intros (Hi & Hj & Hk).
  pose proof (kernel_view kd f o xs xf ys yf zs zf nthreads d m i j k
                Hi Hj Hk) as H.
  unfold view, next_view in H.
  destruct kd, f, cp;
    try (rewrite kernel_other_field by (cbv; discriminate); reflexivity);
    injection H; intros; assumption.
Qed.

Lemma kernel_cell_Phi kd f o xs xf ys yf zs zf nthreads d m r i j k :
  in_slab xs xf ys yf zs zf i j k -> (0 <= r < 2)%Z ->
  let m' := kernel (EV := Exact) kd f o xs xf ys yf zs zf nthreads d m in
  Phi1 m' r i j k = next_Phi1 kd f o xs xf ys yf zs zf d r i j k m /\
  Phi2 m' r i j k = next_Phi2 kd f o xs xf ys yf zs zf d r i j k m.
Proof.
  intros (Hi & Hj & Hk) Hr m'. subst m'.
  pose proof (kernel_view kd f o xs xf ys yf zs zf nthreads d m i j k
                Hi Hj Hk) as H.
  unfold view, next_view in H.
  assert (Hr' : r = 0%Z \/ r = 1%Z) by lia.
  injection H; intros. destruct Hr' as [-> | ->]; split; assumption.
Qed.

(** ** The written region *)

Lemma touched_written kd f xs xf ys yf zs zf a b c :
  touched kd f xs xf ys yf zs zf a b c <->
  written kd f xs xf ys yf zs zf a b c.
Proof.
  unfold touched, written, in_slab. split.
  - intros (i & j & k & (Hi & Hj & Hk) & -> & -> & ->).
    destruct kd, f;
      cbv beta iota delta [normal_shift gx gy gz minus_index plus_index];
      lia.
  - intros H.
    exists (local_x kd f xs xf a), (local_y kd f ys yf b),
           (local_z kd f zs zf c).
    destruct kd, f;
      cbv beta iota delta [normal_shift gx gy gz minus_index plus_index
                           local_x local_y local_z] in H |- *;
      lia.
Qed.

Lemma written_dec kd f xs xf ys yf zs zf a b c :
  {written kd f xs xf ys yf zs zf a b c}
  + {~ written kd f xs xf ys yf zs zf a b c}.
Proof.
  unfold written.
  destruct (Z_le_dec (xs + normal_shift kd f axis_x) a);
    destruct (Z_lt_dec a (xf + normal_shift kd f axis_x));
    destruct (Z_le_dec (ys + normal_shift kd f axis_y) b);
    destruct (Z_lt_dec b (yf + normal_shift kd f axis_y));
    destruct (Z_le_dec (zs + normal_shift kd f axis_z) c);
    destruct (Z_lt_dec c (zf + normal_shift kd f axis_z));
    first [left; lia | right; lia].
Qed.

Lemma in_slab_dec xs xf ys yf zs zf i j k :
  {in_slab xs xf ys yf zs zf i j k} + {~ in_slab xs xf ys yf zs zf i j k}.
Proof.
  unfold in_slab.
  destruct (Z_le_dec 0 i); destruct (Z_lt_dec i (xf - xs));
    destruct (Z_le_dec 0 j); destruct (Z_lt_dec j (yf - ys));
    destruct (Z_le_dec 0 k); destruct (Z_lt_dec k (zf - zs));
    first [left; lia | right; lia].
Qed.

(** A field entry outside the written region is not changed. *)
Lemma kernel_not_written kd f o xs xf ys yf zs zf nthreads d m cp a b c :
  ~ written kd f xs xf ys yf zs zf a b c ->
  field cp (kernel (EV := Exact) kd f o xs xf ys yf zs zf nthreads d m) a b c
  = field cp m a b c.
Proof.
  intros H. apply kernel_outside. now rewrite touched_written.
Qed.

(** ** Loops and divisions in checked mode *)

Lemma checked_div_ok a b :
  b <> 0 -> fdiv (Eval := Checked) a b = Some (a / b).
Proof.
  intros Hb. cbn. destruct (Req_dec_T b 0); [contradiction | reflexivity].
Qed.

Lemma checked_div_zero a b : b = 0 -> fdiv (Eval := Checked) a b = None.
Proof.
  intros Hb. cbn. destruct (Req_dec_T b 0); [reflexivity | contradiction].
Qed.

Section CheckedLoops.
Context {St : Type}.
Variable I : St -> Prop.
Implicit Types (bodyC : Z -> St -> option St) (bodyE : Z -> St -> St).

(** Every iteration succeeds and agrees with exact mode. *)
Lemma for_loop_checked_exact n i bodyC bodyE s :
  I s ->
  (forall t s', (i <= t < i + Z.of_nat n)%Z -> I s' ->
     bodyC t s' = Some (bodyE t s') /\ I (bodyE t s')) ->
  for_loop (EV := Checked) n i bodyC s
  = Some (for_loop (EV := Exact) n i bodyE s)
  /\ I (for_loop (EV := Exact) n i bodyE s).
Proof.
  revert i s. induction n as [|n IH]; intros i s Hs Hbody.
  - simpl. now split.
  - destruct (Hbody i s ltac:(lia) Hs) as [Hb HI].
    simpl. rewrite Hb. simpl. apply IH; [exact HI|].
    intros t s' Ht. apply Hbody. lia.
Qed.

Lemma range_checked_exact lo hi bodyC bodyE s :
  I s ->
  (forall t s', (lo <= t < hi)%Z -> I s' ->
     bodyC t s' = Some (bodyE t s') /\ I (bodyE t s')) ->
  range (EV := Checked) lo hi bodyC s
  = Some (range (EV := Exact) lo hi bodyE s)
  /\ I (range (EV := Exact) lo hi bodyE s).
Proof.
  intros Hs Hbody. unfold range. apply for_loop_checked_exact; [exact Hs|].
  intros t s' Ht. apply Hbody. lia.
Qed.

(** Every iteration raises or keeps the invariant. *)
Lemma for_loop_checked_inv n i bodyC s :
  I s ->
  (forall t s', (i <= t < i + Z.of_nat n)%Z -> I s' ->
     bodyC t s' = None \/ exists s'', bodyC t s' = Some s'' /\ I s'') ->
  for_loop (EV := Checked) n i bodyC s = None \/
  exists s'', for_loop (EV := Checked) n i bodyC s = Some s'' /\ I s''.
Proof.
  revert i s. induction n as [|n IH]; intros i s Hs Hbody.
  - right. exists s. now split.
  - simpl. destruct (Hbody i s ltac:(lia) Hs) as [Hb | (s'' & Hb & HI)];
      rewrite Hb; simpl; [now left|].
    apply IH; [exact HI|]. intros t s' Ht. apply Hbody. lia.
Qed.

Lemma range_checked_inv lo hi bodyC s :
  I s ->
  (forall t s', (lo <= t < hi)%Z -> I s' ->
     bodyC t s' = None \/ exists s'', bodyC t s' = Some s'' /\ I s'') ->
  range (EV := Checked) lo hi bodyC s = None \/
  exists s'', range (EV := Checked) lo hi bodyC s = Some s'' /\ I s''.
Proof.
  intros Hs Hbody. unfold range. apply for_loop_checked_inv; [exact Hs|].
  intros t s' Ht. apply Hbody. lia.
Qed.

(** One iteration raises from every state with the invariant. *)
Lemma for_loop_checked_none n i bodyC s t0 :
  (i <= t0 < i + Z.of_nat n)%Z ->
  I s ->
  (forall t s', (i <= t < i + Z.of_nat n)%Z -> I s' ->
     bodyC t s' = None \/ exists s'', bodyC t s' = Some s'' /\ I s'') ->
  (forall s', I s' -> bodyC t0 s' = None) ->
  for_loop (EV := Checked) n i bodyC s = None.
Proof.
  revert i s. induction n as [|n IH]; intros i s Ht0 Hs Hbody Hnone; [lia|].
  simpl. destruct (Z.eq_dec i t0) as [-> | Hne].
  - now rewrite Hnone.
  - destruct (Hbody i s ltac:(lia) Hs) as [Hb | (s'' & Hb & HI)];
      rewrite Hb; simpl; [reflexivity|].
    apply IH; try assumption; [lia|].
    intros t s' Ht. apply Hbody. lia.
Qed.

Lemma range_checked_none lo hi bodyC s t0 :
  (lo <= t0 < hi)%Z ->
  I s ->
  (forall t s', (lo <= t < hi)%Z -> I s' ->
     bodyC t s' = None \/ exists s'', bodyC t s' = Some s'' /\ I s'') ->
  (forall s', I s' -> bodyC t0 s' = None) ->
  range (EV := Checked) lo hi bodyC s = None.
Proof.
  intros Ht0 Hs Hbody Hnone. unfold range.
  apply for_loop_checked_none with (t0 := t0); try assumption; [lia|].
  intros t s' Ht. apply Hbody. lia.
Qed.
End CheckedLoops.

(** Whatever a checked loop returns is what the exact loop computes. *)
Lemma for_loop_checked_agree {St : Type} n i
    (bodyC : Z -> St -> option St) (bodyE : Z -> St -> St) s s' :
  (forall t u u', (i <= t < i + Z.of_nat n)%Z ->
     bodyC t u = Some u' -> u' = bodyE t u) ->
  for_loop (EV := Checked) n i bodyC s = Some s' ->
  s' = for_loop (EV := Exact) n i bodyE s.
Proof.
  revert i s. induction n as [|n IH]; intros i s Hbody H.
  - simpl in H. now injection H as <-.
  - simpl in H. destruct (bodyC i s) as [u|] eqn:Hb; simpl in H;
      [|discriminate].
    simpl. rewrite <- (Hbody i s u ltac:(lia) Hb).
    apply IH; [|exact H]. intros t v v' Ht. apply Hbody. lia.
Qed.

Lemma range_checked_agree {St : Type} lo hi
    (bodyC : Z -> St -> option St) (bodyE : Z -> St -> St) s s' :
  (forall t u u', (lo <= t < hi)%Z -> bodyC t u = Some u' -> u' = bodyE t u) ->
  range (EV := Checked) lo hi bodyC s = Some s' ->
  s' = range (EV := Exact) lo hi bodyE s.
Proof.
  intros Hbody. unfold range. apply for_loop_checked_agree.
  intros t u u' Ht. apply Hbody. lia.
Qed.

(** ** The kernels in checked mode *)

Ltac unfold_both :=
  unfold_kernel;
  cbn [bind fdiv ret Exact Checked
       set_Ex set_Ey set_Ez set_Hx set_Hy set_Hz set_Phi1 set_Phi2
       updatecoeffsE updatecoeffsH ID Ex Ey Ez Hx Hy Hz Phi1 Phi2
       RA RB RE RF].

(** A divisor that the hypotheses make non-zero is zero. *)
Ltac absurd_divisor E :=
  exfalso;
  first
    [ contradiction
    | lazymatch type of E with
      | RA _ 0 ?n = 0 =>
          match goal with
          | HRA : forall n : Z, _ -> RA _ 0 n <> 0 |- _ =>
              pose proof (HRA n ltac:(lia)); congruence
          end
      | RA _ 0 ?n + RA _ 1 ?n = 0 =>
          match goal with
          | HRA : forall n : Z, _ -> RA _ 0 n + RA _ 1 n <> 0 |- _ =>
              pose proof (HRA n ltac:(lia)); congruence
          end
      end ].

Ltac checked_ok m :=
  repeat
    (cbv beta;
     lazymatch goal with
     | |- range _ _ _ _ = Some _ /\ _ =>
         apply range_checked_exact with (I := fun s : mem => RA s = RA m);
         [ first [reflexivity | assumption] | intros ? ? ? ? ]
     | |- match (if Req_dec_T ?b 0 then _ else _) with _ => _ end = _ /\ _ =>
         let E := fresh "E" in
         destruct (Req_dec_T b 0) as [E | _]; [absurd_divisor E | ]
     | |- Some _ = Some _ /\ _ => split; [reflexivity | assumption]
     end).

(** With a non-zero step, and non-zero divisors for an electric kernel, a
    checked call returns what the exact call computes. *)
Lemma kernel_checked_exact kd f o xs xf ys yf zs zf nthreads d m :
  d <> 0 ->
  (kd = Electric ->
   forall n, (0 <= n < depth f xs xf ys yf zs zf)%Z -> divisor o m n <> 0) ->
  kernel (EV := Checked) kd f o xs xf ys yf zs zf nthreads d m
  = Some (kernel (EV := Exact) kd f o xs xf ys yf zs zf nthreads d m).
Proof.
  intros Hd HRA.
  cut (kernel (EV := Checked) kd f o xs xf ys yf zs zf nthreads d m
       = Some (kernel (EV := Exact) kd f o xs xf ys yf zs zf nthreads d m)
       /\ RA (kernel (EV := Exact) kd f o xs xf ys yf zs zf nthreads d m)
          = RA m); [tauto|].
  destruct kd;
    [ clear HRA | specialize (HRA eq_refl) ];
    destruct f, o;
    try (cbv beta iota delta [depth divisor normal] in HRA);
    unfold_both; checked_ok m.
Qed.

Ltac checked_agree :=
  repeat
    (cbv beta;
     lazymatch goal with
     | |- range _ _ _ _ = Some _ -> _ =>
         apply range_checked_agree; intros ? ? ? ?
     | |- match (if Req_dec_T ?b 0 then _ else _) with _ => _ end = Some _
          -> _ =>
         destruct (Req_dec_T b 0); [intros; discriminate | ]
     | |- Some _ = Some _ -> _ =>
         let H := fresh "H" in intros H; injection H as <-; reflexivity
     end).

(** Whatever a checked call returns is what the exact call computes. *)
Lemma kernel_checked_agree kd f o xs xf ys yf zs zf nthreads d m m' :
  kernel (EV := Checked) kd f o xs xf ys yf zs zf nthreads d m = Some m' ->
  m' = kernel (EV := Exact) kd f o xs xf ys yf zs zf nthreads d m.
Proof.
  destruct kd, f, o; unfold_both; checked_agree.
Qed.

(** Every iteration raises or keeps [RA]. *)
Ltac checked_inv m :=
  repeat
    (cbv beta;
     lazymatch goal with
     | |- range _ _ _ _ = None \/ _ =>
         apply range_checked_inv with (I := fun s : mem => RA s = RA m);
         [ first [reflexivity | assumption] | intros ? ? ? ? ]
     | |- match (if Req_dec_T ?b 0 then _ else _) with _ => _ end = None
          \/ _ =>
         destruct (Req_dec_T b 0); [left; reflexivity | ]
     | |- Some ?X = None \/ _ =>
         right; exists X; split; [reflexivity | assumption]
     end).

(** The loop of the normal axis is reached through iteration [0] of the
    loops around it and raises at iteration [n0]. *)
Ltac checked_none m n0 :=
  repeat
    (cbv beta;
     lazymatch goal with
     | |- range _ _ _ _ = None =>
         first
           [ apply range_checked_none
               with (I := fun s : mem => RA s = RA m) (t0 := n0);
             [ lia
             | first [reflexivity | assumption]
             | intros ? ? ? ?; checked_inv m
             | let s := fresh "s" in
               let Hs := fresh "Hs" in
               intros s Hs; cbv beta;
               lazymatch goal with
               | |- match (if Req_dec_T ?b 0 then _ else _) with _ => _ end
                    = None =>
                   destruct (Req_dec_T b 0);
                   [reflexivity | exfalso; congruence]
               end ]
           | apply range_checked_none
               with (I := fun s : mem => RA s = RA m) (t0 := 0%Z);
             [ lia
             | first [reflexivity | assumption]
             | intros ? ? ? ?; checked_inv m
             | intros ? ? ] ]
     end).

(** On a non-empty slab an electric kernel raises if one of its divisors is
    zero. *)
Lemma kernel_checked_none f o xs xf ys yf zs zf nthreads d m n0 :
  (0 < xf - xs)%Z -> (0 < yf - ys)%Z -> (0 < zf - zs)%Z ->
  (0 <= n0 < depth f xs xf ys yf zs zf)%Z -> divisor o m n0 = 0 ->
  kernel (EV := Checked) Electric f o xs xf ys yf zs zf nthreads d m = None.
Proof.
  intros Hx Hy Hz Hn H0.
  destruct f, o; cbv beta iota delta [depth divisor normal] in Hn, H0;
    unfold_both; checked_none m n0.
Qed.

(** * The claims *)

(** C1. On a minus face, the magnetic (HORIPML) kernels work at the global
    normal index [hi - (n + 1)] and the electric (MRIPML) kernels at
    [hi - n], where [n] is the slab-local index along the normal axis and
    [hi] the upper slab bound on it; tangential indices are local index plus
    lower bound; and the profiles [RA], [RB], [RE], [RF] are read at [n].
    Field entries that are not at such a cell keep their value. *)
Theorem minus_face_indexing kd o xs xf ys yf zs zf nthreads d m i j k r cp :
  in_slab xs xf ys yf zs zf i j k -> (0 <= r < 2)%Z ->
  let normal_index := fun hi n : Z =>
    match kd with Magnetic => (hi - (n + 1))%Z | Electric => (hi - n)%Z end in
  (let m' := kernel (EV := Exact) kd xminus o xs xf ys yf zs zf nthreads d m in
   let a := normal_index xf i in
   let b := (j + ys)%Z in
   let c := (k + zs)%Z in
   field cp m' a b c = law_field kd xminus o d a b c i i j k cp m /\
   Phi1 m' r i j k = law_Phi1 kd xminus o d a b c i r i j k m /\
   Phi2 m' r i j k = law_Phi2 kd xminus o d a b c i r i j k m /\
   (forall a' b' c', ~ touched kd xminus xs xf ys yf zs zf a' b' c' ->
      field cp m' a' b' c' = field cp m a' b' c'))
  /\
  (let m' := kernel (EV := Exact) kd yminus o xs xf ys yf zs zf nthreads d m in
   let a := (i + xs)%Z in
   let b := normal_index yf j in
   let c := (k + zs)%Z in
   field cp m' a b c = law_field kd yminus o d a b c j i j k cp m /\
   Phi1 m' r i j k = law_Phi1 kd yminus o d a b c j r i j k m /\
   Phi2 m' r i j k = law_Phi2 kd yminus o d a b c j r i j k m /\
   (forall a' b' c', ~ touched kd yminus xs xf ys yf zs zf a' b' c' ->
      field cp m' a' b' c' = field cp m a' b' c'))
  /\
  (let m' := kernel (EV := Exact) kd zminus o xs xf ys yf zs zf nthreads d m in
   let a := (i + xs)%Z in
   let b := (j + ys)%Z in
   let c := normal_index zf k in
   field cp m' a b c = law_field kd zminus o d a b c k i j k cp m /\
   Phi1 m' r i j k = law_Phi1 kd zminus o d a b c k r i j k m /\
   Phi2 m' r i j k = law_Phi2 kd zminus o d a b c k r i j k m /\
   (forall a' b' c', ~ touched kd zminus xs xf ys yf zs zf a' b' c' ->
      field cp m' a' b' c' = field cp m a' b' c')).
Proof.
  intros Hin Hr normal_index.
  repeat split.
  - exact (kernel_cell_field kd xminus o xs xf ys yf zs zf nthreads d m i j k cp Hin).
  - exact (proj1 (kernel_cell_Phi kd xminus o xs xf ys yf zs zf nthreads d m r i j k Hin Hr)).
  - exact (proj2 (kernel_cell_Phi kd xminus o xs xf ys yf zs zf nthreads d m r i j k Hin Hr)).
  - intros a' b' c' Hout. now apply kernel_outside.
  - exact (kernel_cell_field kd yminus o xs xf ys yf zs zf nthreads d m i j k cp Hin).
  - exact (proj1 (kernel_cell_Phi kd yminus o xs xf ys yf zs zf nthreads d m r i j k Hin Hr)).
  - exact (proj2 (kernel_cell_Phi kd yminus o xs xf ys yf zs zf nthreads d m r i j k Hin Hr)).
  - intros a' b' c' Hout. now apply kernel_outside.
  - exact (kernel_cell_field kd zminus o xs xf ys yf zs zf nthreads d m i j k cp Hin).
  - exact (proj1 (kernel_cell_Phi kd zminus o xs xf ys yf zs zf nthreads d m r i j k Hin Hr)).
  - exact (proj2 (kernel_cell_Phi kd zminus o xs xf ys yf zs zf nthreads d m r i j k Hin Hr)).
  - intros a' b' c' Hout. now apply kernel_outside.
Qed.

Lemma minus_face_indexing_witness :
  let m' := kernel (EV := Exact) Electric yminus order1 0 2 0 3 0 1 1 1
              sample_mem in
  field cEx m' 1 2 0 = law_field Electric yminus order1 1 1 2 0 1 1 1 0
                         cEx sample_mem.
Proof.
  assert (Hin : in_slab 0 2 0 3 0 1 1 1 0) by (unfold in_slab; lia).
  assert (Hr : (0 <= 0 < 2)%Z) by lia.
  exact (proj1 (proj1 (proj2
           (minus_face_indexing Electric order1 0 2 0 3 0 1 1 1 sample_mem
              1 1 0 0 cEx Hin Hr)))).
Defined.

(** C2. Order-1 magnetic kernel of the xminus slab: at every slab cell the
    forward differences of [Ez] and [Ey] along x drive [Hy] (plus sign)
    and [Hz] (minus sign) with coefficient [updatecoeffsH[ID[4 or 5], 4]]
    and bracket [(RA[0,i] - 1) * dE + RB[0,i] * Phi], and [Phi1], [Phi2]
    become [RE[0,i] * Phi - RF[0,i] * dE]; all right-hand sides read the
    memory before the call. *)
Theorem order1_xminus_magnetic_law xs xf ys yf zs zf nthreads d m i j k :
  (0 <= i < xf - xs)%Z -> (0 <= j < yf - ys)%Z -> (0 <= k < zf - zs)%Z ->
  let m' := HORIPML.order1_xminus (EV := Exact) xs xf ys yf zs zf nthreads d m in
  let ii := (xf - (i + 1))%Z in
  let jj := (j + ys)%Z in
  let kk := (k + zs)%Z in
  let dEz := (Ez m (ii + 1) jj kk - Ez m ii jj kk) / d in
  let dEy := (Ey m (ii + 1) jj kk - Ey m ii jj kk) / d in
  let c_Hy := updatecoeffsH m (ID m 4 ii jj kk) 4 in
  let c_Hz := updatecoeffsH m (ID m 5 ii jj kk) 4 in
  Hy m' ii jj kk
  = Hy m ii jj kk + c_Hy * ((RA m 0 i - 1) * dEz + RB m 0 i * Phi1 m 0 i j k) /\
  Hz m' ii jj kk
  = Hz m ii jj kk - c_Hz * ((RA m 0 i - 1) * dEy + RB m 0 i * Phi2 m 0 i j k) /\
  Phi1 m' 0 i j k = RE m 0 i * Phi1 m 0 i j k - RF m 0 i * dEz /\
  Phi2 m' 0 i j k = RE m 0 i * Phi2 m 0 i j k - RF m 0 i * dEy.
Proof.
  intros Hi Hj Hk.
  assert (Hin : in_slab xs xf ys yf zs zf i j k) by (unfold in_slab; tauto).
  assert (Hr : (0 <= 0 < 2)%Z) by lia.
  pose proof (kernel_cell_field Magnetic xminus order1 xs xf ys yf zs zf
                nthreads d m i j k cHy Hin) as HHy.
  pose proof (kernel_cell_field Magnetic xminus order1 xs xf ys yf zs zf
                nthreads d m i j k cHz Hin) as HHz.
  pose proof (kernel_cell_Phi Magnetic xminus order1 xs xf ys yf zs zf
                nthreads d m 0 i j k Hin Hr) as [HP1 HP2].
  cbv zeta. repeat split; assumption.
Qed.

Lemma order1_xminus_magnetic_law_witness :
  Hy (HORIPML.order1_xminus (EV := Exact) 0 2 0 1 0 1 1 1 sample_mem) 1 0 0
  = 13.
Proof.
  etransitivity;
    [ exact (proj1 (order1_xminus_magnetic_law 0 2 0 1 0 1 1 1 sample_mem
                      0 0 0 ltac:(lia) ltac:(lia) ltac:(lia))) | ].
  cbn. lra.
Defined.

(** C3. Order-1 electric kernel of the xminus slab: with [IRA = 1/RA[0,i]],
    [IRA1 = IRA - 1] and [RC0 = IRA * RB[0,i] * RF[0,i]], the backward
    differences of [Hz] and [Hy] along x drive [Ey] (minus sign) and [Ez]
    (plus sign), and the new [Phi] is
    [RE0 * Phi + RC0 * dH - RC0 * Phi = (RE0 - RC0) * Phi + RC0 * dH] with
    the value of [Phi] before the call on the right. *)
Theorem order1_xminus_electric_law xs xf ys yf zs zf nthreads d m i j k :
  (0 <= i < xf - xs)%Z -> (0 <= j < yf - ys)%Z -> (0 <= k < zf - zs)%Z ->
  let m' := MRIPML.order1_xminus (EV := Exact) xs xf ys yf zs zf nthreads d m in
  let ii := (xf - i)%Z in
  let jj := (j + ys)%Z in
  let kk := (k + zs)%Z in
  let IRA := 1 / RA m 0 i in
  let IRA1 := IRA - 1 in
  let RC0 := IRA * RB m 0 i * RF m 0 i in
  let dHz := (Hz m ii jj kk - Hz m (ii - 1) jj kk) / d in
  let dHy := (Hy m ii jj kk - Hy m (ii - 1) jj kk) / d in
  let c_Ey := updatecoeffsE m (ID m 1 ii jj kk) 4 in
  let c_Ez := updatecoeffsE m (ID m 2 ii jj kk) 4 in
  Ey m' ii jj kk
  = Ey m ii jj kk - c_Ey * (IRA1 * dHz - IRA * Phi1 m 0 i j k) /\
  Ez m' ii jj kk
  = Ez m ii jj kk + c_Ez * (IRA1 * dHy - IRA * Phi2 m 0 i j k) /\
  Phi1 m' 0 i j k
  = RE m 0 i * Phi1 m 0 i j k + RC0 * dHz - RC0 * Phi1 m 0 i j k /\
  Phi1 m' 0 i j k = (RE m 0 i - RC0) * Phi1 m 0 i j k + RC0 * dHz /\
  Phi2 m' 0 i j k
  = RE m 0 i * Phi2 m 0 i j k + RC0 * dHy - RC0 * Phi2 m 0 i j k /\
  Phi2 m' 0 i j k = (RE m 0 i - RC0) * Phi2 m 0 i j k + RC0 * dHy.
Proof.
  intros Hi Hj Hk.
  assert (Hin : in_slab xs xf ys yf zs zf i j k) by (unfold in_slab; tauto).
  assert (Hr : (0 <= 0 < 2)%Z) by lia.
  pose proof (kernel_cell_field Electric xminus order1 xs xf ys yf zs zf
                nthreads d m i j k cEy Hin) as HEy.
  pose proof (kernel_cell_field Electric xminus order1 xs xf ys yf zs zf
                nthreads d m i j k cEz Hin) as HEz.
  pose proof (kernel_cell_Phi Electric xminus order1 xs xf ys yf zs zf
                nthreads d m 0 i j k Hin Hr) as [HP1 HP2].
  cbv zeta.
  split; [exact HEy|]. split; [exact HEz|].
  split; [exact HP1|]. split.
  - etransitivity; [exact HP1|].
    red_law. unfold Rdiv. ring.
  - split; [exact HP2|].
    etransitivity; [exact HP2|].
    red_law. unfold Rdiv. ring.
Qed.

Lemma order1_xminus_electric_law_witness :
  Phi1 (MRIPML.order1_xminus (EV := Exact) 0 2 0 1 0 1 1 1 sample_mem) 0 0 0 0
  = 1.
Proof.
  etransitivity;
    [ exact (proj1 (proj2 (proj2 (proj2
               (order1_xminus_electric_law 0 2 0 1 0 1 1 1 sample_mem 0 0 0
                  ltac:(lia) ltac:(lia) ltac:(lia)))))) | ].
  cbn. lra.
Defined.

(** C4. Order-2 magnetic kernel of the xminus slab: the field correction
    uses [RA0 * RA1 - 1], [RA1 * RB0 * Phi[0]] and [RB1 * Phi[1]]; then
    [Phi[1]] becomes [RE1 * Phi[1] - RF1 * (RA0 * dE + RB0 * Phi[0])] and
    [Phi[0]] becomes [RE0 * Phi[0] - RF0 * dE].  Every [Phi] on a right-hand
    side is the value before the call, so row [1] is computed from the old
    row [0]. *)
Theorem order2_xminus_magnetic_law xs xf ys yf zs zf nthreads d m i j k :
  (0 <= i < xf - xs)%Z -> (0 <= j < yf - ys)%Z -> (0 <= k < zf - zs)%Z ->
  let m' := HORIPML.order2_xminus (EV := Exact) xs xf ys yf zs zf nthreads d m in
  let ii := (xf - (i + 1))%Z in
  let jj := (j + ys)%Z in
  let kk := (k + zs)%Z in
  let dEz := (Ez m (ii + 1) jj kk - Ez m ii jj kk) / d in
  let dEy := (Ey m (ii + 1) jj kk - Ey m ii jj kk) / d in
  let c_Hy := updatecoeffsH m (ID m 4 ii jj kk) 4 in
  let c_Hz := updatecoeffsH m (ID m 5 ii jj kk) 4 in
  Hy m' ii jj kk
  = Hy m ii jj kk
    + c_Hy * ((RA m 0 i * RA m 1 i - 1) * dEz
              + RA m 1 i * RB m 0 i * Phi1 m 0 i j k
              + RB m 1 i * Phi1 m 1 i j k) /\
  Hz m' ii jj kk
  = Hz m ii jj kk
    - c_Hz * ((RA m 0 i * RA m 1 i - 1) * dEy
              + RA m 1 i * RB m 0 i * Phi2 m 0 i j k
              + RB m 1 i * Phi2 m 1 i j k) /\
  Phi1 m' 1 i j k
  = RE m 1 i * Phi1 m 1 i j k
    - RF m 1 i * (RA m 0 i * dEz + RB m 0 i * Phi1 m 0 i j k) /\
  Phi1 m' 0 i j k = RE m 0 i * Phi1 m 0 i j k - RF m 0 i * dEz /\
  Phi2 m' 1 i j k
  = RE m 1 i * Phi2 m 1 i j k
    - RF m 1 i * (RA m 0 i * dEy + RB m 0 i * Phi2 m 0 i j k) /\
  Phi2 m' 0 i j k = RE m 0 i * Phi2 m 0 i j k - RF m 0 i * dEy.
Proof.
  intros Hi Hj Hk.
  assert (Hin : in_slab xs xf ys yf zs zf i j k) by (unfold in_slab; tauto).
  assert (Hr0 : (0 <= 0 < 2)%Z) by lia.
  assert (Hr1 : (0 <= 1 < 2)%Z) by lia.
  pose proof (kernel_cell_field Magnetic xminus order2 xs xf ys yf zs zf
                nthreads d m i j k cHy Hin) as HHy.
  pose proof (kernel_cell_field Magnetic xminus order2 xs xf ys yf zs zf
                nthreads d m i j k cHz Hin) as HHz.
  pose proof (kernel_cell_Phi Magnetic xminus order2 xs xf ys yf zs zf
                nthreads d m 0 i j k Hin Hr0) as [HP10 HP20].
  pose proof (kernel_cell_Phi Magnetic xminus order2 xs xf ys yf zs zf
                nthreads d m 1 i j k Hin Hr1) as [HP11 HP21].
  cbv zeta. repeat split; assumption.
Qed.

Lemma order2_xminus_magnetic_law_witness :
  Phi1 (HORIPML.order2_xminus (EV := Exact) 0 2 0 1 0 1 1 1 sample_mem) 1 0 0 0
  = -22.
Proof.
  etransitivity;
    [ exact (proj1 (proj2 (proj2
               (order2_xminus_magnetic_law 0 2 0 1 0 1 1 1 sample_mem 0 0 0
                  ltac:(lia) ltac:(lia) ltac:(lia))))) | ].
  cbn. lra.
Defined.

(** ** Order 2 with a trivial second pole *)

Lemma law_field_reduction f d a b c n i j k cp m :
  RA m 1 n = 1 -> RB m 1 n = 0 ->
  law_field Magnetic f order2 d a b c n i j k cp m
  = law_field Magnetic f order1 d a b c n i j k cp m.
Proof.
  intros HA HB.
  destruct f, cp; red_law; rewrite ?HA, ?HB; try reflexivity; ring.
Qed.

Lemma law_Phi_row1_zero kd f d a b c n i j k m :
  RE m 1 n = 0 -> RF m 1 n = 0 ->
  law_Phi1 kd f order2 d a b c n 1 i j k m = 0 /\
  law_Phi2 kd f order2 d a b c n 1 i j k m = 0.
Proof.
  intros HE HF.
  destruct kd, f; red_law; rewrite ?HE, ?HF; split; unfold Rdiv; ring.
Qed.

(** Row [1] of the auxiliary arrays stays zero under an order-2 kernel of
    either kind. *)
Lemma order2_row1_stays_zero kd f xs xf ys yf zs zf nthreads d m :
  (forall n, RE m 1 n = 0 /\ RF m 1 n = 0) ->
  (forall i j k, Phi1 m 1 i j k = 0 /\ Phi2 m 1 i j k = 0) ->
  forall i j k,
    let m2 := kernel (EV := Exact) kd f order2 xs xf ys yf zs zf nthreads d m in
    Phi1 m2 1 i j k = 0 /\ Phi2 m2 1 i j k = 0.
Proof.
  intros Hrow Hzero i j k m2. subst m2.
  destruct (in_slab_dec xs xf ys yf zs zf i j k) as [Hin | Hout].
  - destruct (kernel_cell_Phi kd f order2 xs xf ys yf zs zf nthreads d m
                1 i j k Hin ltac:(lia)) as [H1 H2].
    rewrite H1, H2. unfold next_Phi1, next_Phi2.
    apply law_Phi_row1_zero; apply Hrow.
  - destruct (kernel_Phi_outside kd f order2 xs xf ys yf zs zf nthreads d m
                1 i j k ltac:(tauto)) as [H1 H2].
    rewrite H1, H2. apply Hzero.
Qed.

(** C5, as amended.  The reduction holds for the magnetic (HORIPML)
    kernels: with [RA[1] = 1], [RB[1] = RE[1] = RF[1] = 0] and row [1] of
    [Phi1], [Phi2] zero, the order-2 kernel of a face leaves every field
    array and row [0] of the auxiliary arrays exactly as the order-1 kernel
    of that face does, and row [1] stays zero.  For the electric (MRIPML)
    kernels the same rows keep row [1] zero; their field updates are not
    those of order 1. *)
Theorem order2_reduction f xs xf ys yf zs zf nthreads d m :
  (forall n, RA m 1 n = 1 /\ RB m 1 n = 0 /\ RE m 1 n = 0 /\ RF m 1 n = 0) ->
  (forall i j k, Phi1 m 1 i j k = 0 /\ Phi2 m 1 i j k = 0) ->
  (let m2 := kernel (EV := Exact) Magnetic f order2
               xs xf ys yf zs zf nthreads d m in
   let m1 := kernel (EV := Exact) Magnetic f order1
               xs xf ys yf zs zf nthreads d m in
   (forall cp a b c, field cp m2 a b c = field cp m1 a b c) /\
   (forall i j k, Phi1 m2 0 i j k = Phi1 m1 0 i j k /\
                  Phi2 m2 0 i j k = Phi2 m1 0 i j k) /\
   (forall i j k, Phi1 m2 1 i j k = 0 /\ Phi2 m2 1 i j k = 0))
  /\
  (let m2 := kernel (EV := Exact) Electric f order2
               xs xf ys yf zs zf nthreads d m in
   forall i j k, Phi1 m2 1 i j k = 0 /\ Phi2 m2 1 i j k = 0).
Proof.
  intros Hrow Hzero.
  assert (Hrow' : forall n, RE m 1 n = 0 /\ RF m 1 n = 0).
  { intros n. destruct (Hrow n) as (_ & _ & HE & HF). now split. }
  split; [cbv zeta; split; [|split] |].
  - intros cp a b c.
    destruct (written_dec Magnetic f xs xf ys yf zs zf a b c) as [Hw | Hw].
    + apply touched_written in Hw.
      destruct Hw as (i & j & k & Hin & -> & -> & ->).
      rewrite !kernel_cell_field by assumption.
      unfold next_field. apply law_field_reduction; apply Hrow.
    + now rewrite !kernel_not_written by assumption.
  - intros i j k.
    destruct (in_slab_dec xs xf ys yf zs zf i j k) as [Hin | Hout].
    + destruct (kernel_cell_Phi Magnetic f order2 xs xf ys yf zs zf nthreads
                  d m 0 i j k Hin ltac:(lia)) as [H1 H2].
      destruct (kernel_cell_Phi Magnetic f order1 xs xf ys yf zs zf nthreads
                  d m 0 i j k Hin ltac:(lia)) as [H3 H4].
      rewrite H1, H2, H3, H4. split; reflexivity.
    + destruct (kernel_Phi_outside Magnetic f order2 xs xf ys yf zs zf
                  nthreads d m 0 i j k ltac:(tauto)) as [H1 H2].
      destruct (kernel_Phi_outside Magnetic f order1 xs xf ys yf zs zf
                  nthreads d m 0 i j k ltac:(tauto)) as [H3 H4].
      rewrite H1, H2, H3, H4. split; reflexivity.
  - apply order2_row1_stays_zero; assumption.
  - apply order2_row1_stays_zero; assumption.
Qed.

Lemma order2_reduction_witness :
  field cHx (kernel (EV := Exact) Magnetic zplus order2 0 2 0 2 0 2 1 1
               reduction_run_mem) 1 1 1
  = field cHx (kernel (EV := Exact) Magnetic zplus order1 0 2 0 2 0 2 1 1
                 reduction_run_mem) 1 1 1
  /\ field cHx (kernel (EV := Exact) Magnetic zplus order1 0 2 0 2 0 2 1 1
                  reduction_run_mem) 1 1 1 = 54
  /\ field cHx reduction_run_mem 1 1 1 = 3.
Proof.
  assert (Hrow : forall n : Z,
             RA reduction_run_mem 1 n = 1 /\ RB reduction_run_mem 1 n = 0 /\
             RE reduction_run_mem 1 n = 0 /\ RF reduction_run_mem 1 n = 0)
    by (intros n; simpl; repeat split; reflexivity).
  assert (Hzero : forall i j k : Z,
             Phi1 reduction_run_mem 1 i j k = 0 /\
             Phi2 reduction_run_mem 1 i j k = 0)
    by (intros i j k; simpl; split; reflexivity).
  assert (Hin : in_slab 0 2 0 2 0 2 1 1 1) by (unfold in_slab; lia).
  split; [|split].
  - exact (proj1 (proj1 (order2_reduction zplus 0 2 0 2 0 2 1 1
                           reduction_run_mem Hrow Hzero)) cHx 1%Z 1%Z 1%Z).
  - etransitivity;
      [ exact (kernel_cell_field Magnetic zplus order1 0 2 0 2 0 2 1 1
                 reduction_run_mem 1 1 1 cHx Hin) | cbn; lra ].
  - cbn. lra.
Defined.

(** C5 as stated fails for the electric kernels: on [reduction_mem] the
    premises of the reduction hold, yet the order-2 and the order-1 kernel
    of the xminus slab leave different values in [Ey]. *)
Lemma order2_reduction_electric_counterexample :
  (forall n, RA reduction_mem 1 n = 1 /\ RB reduction_mem 1 n = 0 /\
             RE reduction_mem 1 n = 0 /\ RF reduction_mem 1 n = 0) /\
  (forall i j k, Phi1 reduction_mem 1 i j k = 0 /\
                 Phi2 reduction_mem 1 i j k = 0) /\
  Ey (MRIPML.order2_xminus (EV := Exact) 0 1 0 1 0 1 1 1 reduction_mem) 1 0 0
  <> Ey (MRIPML.order1_xminus (EV := Exact) 0 1 0 1 0 1 1 1 reduction_mem)
       1 0 0.
Proof.
  split; [intros n; simpl; repeat split; reflexivity|].
  split; [intros i j k; simpl; split; reflexivity|].
  assert (Hin : in_slab 0 1 0 1 0 1 0 0 0) by (unfold in_slab; lia).
  assert (H2 : Ey (MRIPML.order2_xminus (EV := Exact) 0 1 0 1 0 1 1 1
                      reduction_mem) 1 0 0 = 1 / 2).
  { etransitivity;
      [ exact (kernel_cell_field Electric xminus order2 0 1 0 1 0 1 1 1
                 reduction_mem 0 0 0 cEy Hin) | cbn; lra ]. }
  assert (H1 : Ey (MRIPML.order1_xminus (EV := Exact) 0 1 0 1 0 1 1 1
                      reduction_mem) 1 0 0 = 0).
  { etransitivity;
      [ exact (kernel_cell_field Electric xminus order1 0 1 0 1 0 1 1 1
                 reduction_mem 0 0 0 cEy Hin) | cbn; lra ]. }
  rewrite H1, H2. lra.
Qed.

(** C6, as amended.  A call leaves alone: the coefficient tables, [ID], the
    four profiles and the four field components that are not its targets
    (as whole arrays); every field entry outside the region it writes; and
    every auxiliary entry outside the rows of its order and the local slab.
    The written region is the slab [xs,xf) x [ys,yf) x [zs,zf) for the
    magnetic kernels and for the electric kernels of the plus faces; for
    the electric kernels of a minus face it is the slab moved up by one
    cell along the normal axis. *)
Theorem kernel_frame kd f o xs xf ys yf zs zf nthreads d m :
  let m' := kernel (EV := Exact) kd f o xs xf ys yf zs zf nthreads d m in
  (updatecoeffsE m' = updatecoeffsE m /\ updatecoeffsH m' = updatecoeffsH m /\
   ID m' = ID m /\
   RA m' = RA m /\ RB m' = RB m /\ RE m' = RE m /\ RF m' = RF m) /\
  (forall cp, cp <> target1 kd f -> cp <> target2 kd f ->
     field cp m' = field cp m) /\
  (forall cp a b c, ~ written kd f xs xf ys yf zs zf a b c ->
     field cp m' a b c = field cp m a b c) /\
  (forall cp a b c,
     kd = Magnetic \/ f = xplus \/ f = yplus \/ f = zplus ->
     ~ ((xs <= a < xf)%Z /\ (ys <= b < yf)%Z /\ (zs <= c < zf)%Z) ->
     field cp m' a b c = field cp m a b c) /\
  (forall r i j k,
     ~ (in_slab xs xf ys yf zs zf i j k /\ (0 <= r < rows o)%Z) ->
     Phi1 m' r i j k = Phi1 m r i j k /\ Phi2 m' r i j k = Phi2 m r i j k).
Proof.
  intros m'. subst m'.
  split; [apply kernel_readonly|].
  split; [intros cp H1 H2; now apply kernel_other_field|].
  split; [intros cp a b c Hw; now apply kernel_not_written|].
  split.
  - intros cp a b c Hk Hout. apply kernel_not_written.
    intros Hw. apply Hout. unfold written in Hw.
    destruct kd, f; cbv beta iota delta [normal_shift] in Hw;
      first [ lia
            | exfalso; destruct Hk as [Hk | [Hk | [Hk | Hk]]]; discriminate ].
  - intros r i j k Hout. now apply kernel_Phi_outside.
Qed.

Lemma kernel_frame_witness :
  Ey (kernel (EV := Exact) Electric xplus order1 0 1 0 1 0 1 1 1 sample_mem)
    1 0 0
  = Ey sample_mem 1 0 0.
Proof.
  apply (proj1 (proj2 (proj2 (proj2
           (kernel_frame Electric xplus order1 0 1 0 1 0 1 1 1 sample_mem))))
           cEy 1%Z 0%Z 0%Z).
  - right. left. reflexivity.
  - lia.
Defined.

(** C6 as stated fails for the electric kernels of the minus faces: the
    order-1 kernel of the xminus slab [0,1) x [0,1) x [0,1) changes
    [Ey[1,0,0]], and 1 is not in [0,1). *)
Lemma kernel_frame_counterexample :
  ~ (0 <= 1 < 1)%Z /\
  Ey (MRIPML.order1_xminus (EV := Exact) 0 1 0 1 0 1 1 1 sample_mem) 1 0 0
  <> Ey sample_mem 1 0 0.
Proof.
  split; [lia|].
  assert (Hin : in_slab 0 1 0 1 0 1 0 0 0) by (unfold in_slab; lia).
  assert (H : Ey (MRIPML.order1_xminus (EV := Exact) 0 1 0 1 0 1 1 1
                    sample_mem) 1 0 0 = 4).
  { etransitivity;
      [ exact (kernel_cell_field Electric xminus order1 0 1 0 1 0 1 1 1
                 sample_mem 0 0 0 cEy Hin) | cbn; lra ]. }
  rewrite H. cbn. lra.
Qed.

(** ** Decay of the auxiliary variables under zero excitation *)

Lemma source_not_target kd f :
  source1 kd f <> target1 kd f /\ source1 kd f <> target2 kd f /\
  source2 kd f <> target1 kd f /\ source2 kd f <> target2 kd f.
Proof. destruct kd, f; cbv; repeat split; discriminate. Qed.

Lemma quiet_kernel kd f o xs xf ys yf zs zf nthreads d m :
  quiet kd f xs xf ys yf zs zf d m ->
  quiet kd f xs xf ys yf zs zf d
    (kernel (EV := Exact) kd f o xs xf ys yf zs zf nthreads d m).
Proof.
  intros Hq i j k Hin.
  destruct (source_not_target kd f) as (H1 & H2 & H3 & H4).
  cbv zeta. rewrite !kernel_other_field by assumption.
  exact (Hq i j k Hin).
Qed.

Lemma calls_invariant kd f o xs xf ys yf zs zf nthreads d n m :
  quiet kd f xs xf ys yf zs zf d m ->
  let m' := calls kd f o xs xf ys yf zs zf nthreads d n m in
  quiet kd f xs xf ys yf zs zf d m' /\
  RA m' = RA m /\ RB m' = RB m /\ RE m' = RE m /\ RF m' = RF m.
Proof.
  intros Hq. induction n as [|n IH]; cbv zeta.
  - simpl. split; [exact Hq | repeat split; reflexivity].
  - destruct IH as (IHq & IHA & IHB & IHE & IHF).
    unfold calls in *. rewrite Nat.iter_succ.
    destruct (kernel_readonly kd f o xs xf ys yf zs zf nthreads d
                (Nat.iter n (kernel (EV := Exact) kd f o xs xf ys yf zs zf
                               nthreads d) m))
      as (_ & _ & _ & HA & HB & HE & HF).
    cbv zeta in HA, HB, HE, HF.
    split; [apply quiet_kernel; exact IHq | repeat split; congruence].
Qed.

(** One quiet call: the new auxiliary values in terms of the old. *)
Lemma quiet_call kd f o xs xf ys yf zs zf nthreads d m r i j k :
  quiet kd f xs xf ys yf zs zf d m ->
  in_slab xs xf ys yf zs zf i j k -> (0 <= r < 2)%Z ->
  let m' := kernel (EV := Exact) kd f o xs xf ys yf zs zf nthreads d m in
  let n := profile_index f i j k in
  let next := fun P0 P1 =>
    if (r =? 0)%Z then next_phi0 kd o m n 0 P0 P1
    else next_phi1 kd o m n 0 P0 P1 in
  Phi1 m' r i j k = next (Phi1 m 0 i j k) (Phi1 m 1 i j k) /\
  Phi2 m' r i j k = next (Phi2 m 0 i j k) (Phi2 m 1 i j k).
Proof.
  intros Hq Hin Hr. cbv zeta.
  destruct (kernel_cell_Phi kd f o xs xf ys yf zs zf nthreads d m r i j k
              Hin Hr) as [H1 H2].
  destruct (Hq i j k Hin) as [Hd1 Hd2]. cbv zeta in Hd1, Hd2.
  rewrite H1, H2. unfold next_Phi1, next_Phi2, law_Phi1, law_Phi2.
  rewrite Hd1, Hd2. split; reflexivity.
Qed.

(** Geometric decay of a row-0 entry whose one-call map is a scaling. *)
Lemma quiet_calls_scale kd f o xs xf ys yf zs zf nthreads d m i j k q :
  quiet kd f xs xf ys yf zs zf d m ->
  in_slab xs xf ys yf zs zf i j k ->
  (forall m' P0 P1,
     RA m' = RA m -> RB m' = RB m -> RE m' = RE m -> RF m' = RF m ->
     next_phi0 kd o m' (profile_index f i j k) 0 P0 P1 = q * P0) ->
  forall n,
    let m' := calls kd f o xs xf ys yf zs zf nthreads d n m in
    Phi1 m' 0 i j k = q ^ n * Phi1 m 0 i j k /\
    Phi2 m' 0 i j k = q ^ n * Phi2 m 0 i j k.
Proof.
  intros Hq Hin Hscale n. induction n as [|n IH]; cbv zeta.
  - simpl. split; ring.
  - destruct (calls_invariant kd f o xs xf ys yf zs zf nthreads d n m Hq)
      as (Hqn & HA & HB & HE & HF).
    cbv zeta in IH. destruct IH as [IH1 IH2].
    unfold calls in *. rewrite Nat.iter_succ.
    destruct (quiet_call kd f o xs xf ys yf zs zf nthreads d _ 0 i j k
                Hqn Hin ltac:(lia)) as [H1 H2].
    cbv beta iota zeta delta [Z.eqb] in H1, H2.
    rewrite H1, H2, !Hscale, IH1, IH2 by assumption.
    simpl pow. split; ring.
Qed.

(** C7, as amended.  Under zero excitation:
    - a magnetic (HORIPML) kernel of either order maps each row-0 entry of
      [Phi1], [Phi2] to [RE[0,n]] times its old value, so [N] successive
      calls multiply it by [RE[0,n]^N];
    - an order-1 electric (MRIPML) kernel maps it to [RE0 - RC0] times its
      old value, [RC0 = (1/RA[0,n]) * RB[0,n] * RF[0,n]], so [N] calls
      multiply it by [(RE0 - RC0)^N]; starting from [Phi1 = 0], one call
      with a unit difference followed by [N] quiet calls leaves
      [(RE0 - RC0)^N * RC0];
    - at order 2 the rows are coupled: a magnetic kernel maps row 1 to
      [RE1 * Phi[1] - RF1 * RB0 * Phi[0]], an electric kernel maps row [r]
      to [RE_r * Phi[r] - RC_r * (RB0 * Phi[0] + RB1 * Phi[1])] with
      [RC_r = RF[r,n] / (RA[0,n] + RA[1,n])]. *)
Theorem zero_excitation_decay f xs xf ys yf zs zf nthreads d i j k :
  in_slab xs xf ys yf zs zf i j k ->
  let n := profile_index f i j k in
  (forall o m N, quiet Magnetic f xs xf ys yf zs zf d m ->
     let m' := calls Magnetic f o xs xf ys yf zs zf nthreads d N m in
     Phi1 m' 0 i j k = RE m 0 n ^ N * Phi1 m 0 i j k /\
     Phi2 m' 0 i j k = RE m 0 n ^ N * Phi2 m 0 i j k)
  /\
  (forall m N, quiet Electric f xs xf ys yf zs zf d m ->
     let RC0 := 1 / RA m 0 n * RB m 0 n * RF m 0 n in
     let m' := calls Electric f order1 xs xf ys yf zs zf nthreads d N m in
     Phi1 m' 0 i j k = (RE m 0 n - RC0) ^ N * Phi1 m 0 i j k /\
     Phi2 m' 0 i j k = (RE m 0 n - RC0) ^ N * Phi2 m 0 i j k)
  /\
  (forall m0 m2 N,
     Phi1 m0 0 i j k = 0 ->
     curl_diff Electric (normal f) (field (source1 Electric f) m0)
       (gx Electric f xs xf i) (gy Electric f ys yf j) (gz Electric f zs zf k)
       d = 1 ->
     let m1 := kernel (EV := Exact) Electric f order1
                 xs xf ys yf zs zf nthreads d m0 in
     RA m2 = RA m0 -> RB m2 = RB m0 -> RE m2 = RE m0 -> RF m2 = RF m0 ->
     Phi1 m2 0 i j k = Phi1 m1 0 i j k ->
     quiet Electric f xs xf ys yf zs zf d m2 ->
     let RC0 := 1 / RA m0 0 n * RB m0 0 n * RF m0 0 n in
     Phi1 (calls Electric f order1 xs xf ys yf zs zf nthreads d N m2) 0 i j k
     = (RE m0 0 n - RC0) ^ N * RC0)
  /\
  (forall m, quiet Magnetic f xs xf ys yf zs zf d m ->
     let m' := kernel (EV := Exact) Magnetic f order2
                 xs xf ys yf zs zf nthreads d m in
     Phi1 m' 1 i j k
     = RE m 1 n * Phi1 m 1 i j k - RF m 1 n * RB m 0 n * Phi1 m 0 i j k /\
     Phi2 m' 1 i j k
     = RE m 1 n * Phi2 m 1 i j k - RF m 1 n * RB m 0 n * Phi2 m 0 i j k)
  /\
  (forall m r, (0 <= r < 2)%Z -> quiet Electric f xs xf ys yf zs zf d m ->
     let m' := kernel (EV := Exact) Electric f order2
                 xs xf ys yf zs zf nthreads d m in
     let RC := RF m r n / (RA m 0 n + RA m 1 n) in
     Phi1 m' r i j k
     = RE m r n * Phi1 m r i j k
       - RC * (RB m 0 n * Phi1 m 0 i j k + RB m 1 n * Phi1 m 1 i j k) /\
     Phi2 m' r i j k
     = RE m r n * Phi2 m r i j k
       - RC * (RB m 0 n * Phi2 m 0 i j k + RB m 1 n * Phi2 m 1 i j k)).
Proof.
  intros Hin n.
  split; [|split; [|split; [|split]]].
  - intros o m N Hq.
    apply quiet_calls_scale; try assumption.
    intros m' P0 P1 _ _ HE _. destruct o; cbn [next_phi0]; rewrite HE;
      fold n; ring.
  - intros m N Hq RC0.
    apply quiet_calls_scale; try assumption.
    intros m' P0 P1 HA HB HE HF. cbn [next_phi0].
    rewrite HA, HB, HE, HF. subst RC0. fold n. ring.
  - intros m0 m2 N HP Hd m1 HA HB HE HF H21 Hq RC0.
    destruct (quiet_calls_scale Electric f order1 xs xf ys yf zs zf nthreads
                d m2 i j k (RE m0 0 n - RC0) Hq Hin) with (n := N)
      as [H1 _].
    { intros m' P0 P1 HA' HB' HE' HF'. cbn [next_phi0].
      rewrite HA', HB', HE', HF', HA, HB, HE, HF. subst RC0. fold n. ring. }
    cbv zeta in H1. rewrite H1, H21. f_equal.
    destruct (kernel_cell_Phi Electric f order1 xs xf ys yf zs zf nthreads d
                m0 0 i j k Hin ltac:(lia)) as [H _].
    fold m1 in H. rewrite H.
    unfold next_Phi1, law_Phi1. rewrite Hd, HP. cbn [next_phi0 Z.eqb].
    subst RC0. fold n. ring.
  - intros m Hq.
    destruct (quiet_call Magnetic f order2 xs xf ys yf zs zf nthreads d m
                1 i j k Hq Hin ltac:(lia)) as [H1 H2].
    cbv beta iota zeta delta [Z.eqb Pos.eqb] in H1, H2. cbv zeta.
    rewrite H1, H2. cbn [next_phi1]. fold n. split; ring.
  - intros m r Hr Hq.
    destruct (quiet_call Electric f order2 xs xf ys yf zs zf nthreads d m
                r i j k Hq Hin Hr) as [H1 H2].
    cbv zeta in H1, H2 |- *. rewrite H1, H2.
    assert (Hr' : r = 0%Z \/ r = 1%Z) by lia.
    destruct Hr' as [-> | ->]; cbn [next_phi0 next_phi1 Z.eqb Pos.eqb];
      fold n; unfold Rdiv; split; ring.
Qed.

Lemma decay_mem_quiet kd f xs xf ys yf zs zf :
  quiet kd f xs xf ys yf zs zf 1 decay_mem.
Proof.
  intros i j k _. destruct kd, f; cbn; split; lra.
Qed.

Lemma zero_excitation_decay_witness :
  Phi1 (calls Magnetic xminus order1 0 1 0 1 0 1 1 1 3 decay_mem) 0 0 0 0 = 8.
Proof.
  etransitivity;
    [ exact (proj1 (proj1 (zero_excitation_decay xminus 0 1 0 1 0 1 1 1
                             0 0 0 ltac:(unfold in_slab; lia))
                      order1 decay_mem 3%nat
                      (decay_mem_quiet Magnetic xminus 0 1 0 1 0 1))) | ].
  cbn. lra.
Defined.

(** C7 as stated fails for the electric kernels: on [decay_mem] all fields
    are zero, so the excitation is zero, [RE = 2] and [RC0 = 1]; one call of
    the order-1 kernel of the xminus slab takes [Phi1[0,0,0,0]] from 1 to
    [(2 - 1) * 1 = 1], not to [RE * 1 = 2]. *)
Lemma zero_excitation_decay_counterexample :
  quiet Electric xminus 0 1 0 1 0 1 1 decay_mem /\
  Phi1 (MRIPML.order1_xminus (EV := Exact) 0 1 0 1 0 1 1 1 decay_mem) 0 0 0 0
  <> RE decay_mem 0 0 * Phi1 decay_mem 0 0 0 0.
Proof.
  split; [apply decay_mem_quiet|].
  assert (Hin : in_slab 0 1 0 1 0 1 0 0 0) by (unfold in_slab; lia).
  assert (H : Phi1 (MRIPML.order1_xminus (EV := Exact) 0 1 0 1 0 1 1 1
                      decay_mem) 0 0 0 0 = 1).
  { etransitivity;
      [ exact (proj1 (kernel_cell_Phi Electric xminus order1 0 1 0 1 0 1 1 1
                        decay_mem 0 0 0 0 Hin ltac:(lia))) | cbn; lra ]. }
  rewrite H. cbn. lra.
Qed.

(** ** The fractal generator *)

Lemma fpow_half_sqrt x :
  0 <= x ->
  Fractals.fpow (Fractals.Finite x) (1 / 2) = Fractals.Finite (sqrt x).
Proof.
  intros Hx. unfold Fractals.fpow.
  destruct (Req_dec_T x 0) as [-> | Hne].
  - destruct (Req_dec_T (1 / 2) 0); [lra|].
    destruct (Rlt_dec 0 (1 / 2)); [now rewrite sqrt_0 | lra].
  - replace (1 / 2) with (/ 2) by lra. f_equal. apply Rpower_sqrt. lra.
Qed.

(** The power of a positive real and of zero. *)
Lemma fpow_pos x y :
  0 < x -> Fractals.fpow (Fractals.Finite x) y = Fractals.Finite (Rpower x y).
Proof.
  intros Hx. unfold Fractals.fpow.
  destruct (Req_dec_T x 0); [lra | reflexivity].
Qed.

Lemma fpow_zero_pos y :
  0 < y -> Fractals.fpow (Fractals.Finite 0) y = Fractals.Finite 0.
Proof.
  intros Hy. unfold Fractals.fpow.
  destruct (Req_dec_T 0 0) as [_ | E]; [|contradiction].
  destruct (Req_dec_T y 0); [lra|].
  destruct (Rlt_dec 0 y); [reflexivity | contradiction].
Qed.

Lemma is_zero_Finite x :
  x <> 0 -> Fractals.is_zero (Fractals.Finite x) = false.
Proof.
  intros Hx. unfold Fractals.is_zero.
  destruct (Req_dec_T x 0); [contradiction | reflexivity].
Qed.

Lemma is_zero_zero : Fractals.is_zero (Fractals.Finite 0) = true.
Proof.
  unfold Fractals.is_zero.
  destruct (Req_dec_T 0 0); [reflexivity | contradiction].
Qed.

Lemma generate_fractal2D_cell nx ny ox oy gx gy nthreads D weighting v1 A S i j :
  (0 <= i < nx)%Z -> (0 <= j < ny)%Z ->
  Fractals.generate_fractal2D nx ny ox oy gx gy nthreads D weighting v1 A S i j
  = Fractals.Cdiv (A i j)
      (fractal_divisor ox oy gx gy D weighting v1 i j).
Proof.
  intros Hi Hj.
  unfold Fractals.generate_fractal2D, prange. cbv zeta.
  assert (Hmiss : forall t t' (s : Z -> Z -> Fractals.complex) v,
             (t <> i \/ t' <> j) -> Fractals.upd_surface s t t' v i j = s i j).
  { intros t t' s v Hne. unfold Fractals.upd_surface.
    destruct (Z.eqb_spec i t), (Z.eqb_spec j t'); simpl; try reflexivity.
    exfalso. lia. }
  apply range_hit with (vw := fun s : Z -> Z -> Fractals.complex => s i j)
                       (pr := fun v => v) (v0 := S i j) (t0 := i).
  - lia.
  - reflexivity.
  - intros t s Ht Hne.
    apply range_preserve
      with (obs := fun s : Z -> Z -> Fractals.complex => s i j).
    intros t' s' Ht'. apply Hmiss. left. exact Hne.
  - intros s _.
    apply range_hit with (vw := fun s : Z -> Z -> Fractals.complex => s i j)
                         (pr := fun v => v) (v0 := s i j) (t0 := j).
    + lia.
    + reflexivity.
    + intros t s' Ht Hne. apply Hmiss. right. exact Hne.
    + intros s' _. unfold Fractals.upd_surface. rewrite !Z.eqb_refl.
      cbn [andb]. unfold fractal_divisor, fractal_radius.
      rewrite fpow_half_sqrt; [reflexivity|].
      apply Rplus_le_le_0_compat; apply pow2_ge_0.
Qed.

Lemma Rpower_neq_0 x y : Rpower x y <> 0.
Proof. unfold Rpower. apply Rgt_not_eq, exp_pos. Qed.

(** The guard leaves no zero. *)
Lemma guard_nonzero (B : Fractals.xreal) :
  (if Fractals.is_zero B then Fractals.Finite 0.9 else B)
  <> Fractals.Finite 0.
Proof.
  destruct B as [b |]; cbn [Fractals.is_zero]; [|discriminate].
  destruct (Req_dec_T b 0) as [E | E]; intros H; injection H as H; lra.
Qed.

Lemma fractal_divisor_nonzero ox oy gx gy D weighting v1 i j :
  fractal_divisor ox oy gx gy D weighting v1 i j <> Fractals.Finite 0.
Proof. unfold fractal_divisor. cbv zeta. apply guard_nonzero. Qed.

Lemma run_delta_values :
  run_delta 0 = 0 /\ run_delta 1 = 1 /\ run_delta 2 = -2 /\ run_delta 3 = -1.
Proof.
  unfold run_delta.
  change ((0 + 0 + 4 / 2) mod 4)%Z with 2%Z.
  change ((1 + 0 + 4 / 2) mod 4)%Z with 3%Z.
  change ((2 + 0 + 4 / 2) mod 4)%Z with 0%Z.
  change ((3 + 0 + 4 / 2) mod 4)%Z with 1%Z.
  repeat split; lra.
Qed.

Lemma run_radius i j :
  fractal_radius 0 0 4 4 run_weighting run_centre i j
  = sqrt (run_delta i ^ 2 + run_delta j ^ 2).
Proof.
  unfold fractal_radius, run_delta, run_weighting, run_centre.
  f_equal. ring.
Qed.

(** Away from the cell whose wrapped coordinate is the centre, the divisor
    of the concrete run is [(dx^2 + dy^2)^1.25]. *)
Lemma run_divisor i j :
  0 < run_delta i ^ 2 + run_delta j ^ 2 ->
  fractal_divisor 0 0 4 4 2.5 run_weighting run_centre i j
  = Fractals.Finite (Rpower (run_delta i ^ 2 + run_delta j ^ 2) 1.25).
Proof.
  intros Hpos. unfold fractal_divisor. cbv zeta. rewrite run_radius.
  rewrite fpow_pos by (apply sqrt_lt_R0, Hpos).
  rewrite <- (Rpower_sqrt _ Hpos), Rpower_mult.
  replace (/ 2 * 2.5) with 1.25 by lra.
  now rewrite is_zero_Finite by apply Rpower_neq_0.
Qed.

(** C8, as amended.  [generate_fractal2D] writes [A[i,j] / B] into every
    cell, for every dimension [D], where [B] is [r^D] for the Euclidean
    distance [r] of the weighted, half-size-shifted, wrapped index from
    [v1], with 0.9 in place of an [r^D] equal to zero; [B] is never zero.
    In the concrete 4 x 4 run the cell with distance zero is [(0, 0)]: it
    receives [1/0.9], and every other cell receives
    [1 / (dx^2 + dy^2)^1.25] for its wrapped coordinate differences [dx],
    [dy]. *)
Theorem generate_fractal2D_contract :
  (forall nx ny ox oy gx gy nthreads D weighting v1 A S i j,
     (0 <= i < nx)%Z -> (0 <= j < ny)%Z ->
     Fractals.generate_fractal2D nx ny ox oy gx gy nthreads D weighting v1
       A S i j
     = Fractals.Cdiv (A i j)
         (fractal_divisor ox oy gx gy D weighting v1 i j)
     /\ fractal_divisor ox oy gx gy D weighting v1 i j
        <> Fractals.Finite 0)
  /\ run_surface 0 0 = (1 / 0.9, 0)
  /\ (forall i j, (0 <= i < 4)%Z -> (0 <= j < 4)%Z -> (i, j) <> (0%Z, 0%Z) ->
        run_surface i j
        = (1 / Rpower (run_delta i ^ 2 + run_delta j ^ 2) 1.25, 0)).
Proof.
  destruct run_delta_values as (D0 & D1 & D2 & D3).
  split; [|split].
  - intros. split.
    + now apply generate_fractal2D_cell.
    + apply fractal_divisor_nonzero.
  - unfold run_surface. rewrite generate_fractal2D_cell by lia.
    unfold fractal_divisor. cbv zeta. rewrite run_radius, D0.
    replace (0 ^ 2 + 0 ^ 2) with 0 by ring. rewrite sqrt_0.
    rewrite fpow_zero_pos by lra. rewrite is_zero_zero.
    unfold Fractals.Cdiv, Fractals.Cdiv_real, run_A. simpl fst. simpl snd.
    f_equal. lra.
  - intros i j Hi Hj Hne.
    unfold run_surface. rewrite generate_fractal2D_cell by lia.
    rewrite run_divisor.
    + unfold Fractals.Cdiv, Fractals.Cdiv_real, run_A. simpl fst. simpl snd.
      f_equal. unfold Rdiv. ring.
    + assert (Hi' : i = 0%Z \/ i = 1%Z \/ i = 2%Z \/ i = 3%Z) by lia.
      assert (Hj' : j = 0%Z \/ j = 1%Z \/ j = 2%Z \/ j = 3%Z) by lia.
      destruct Hi' as [-> | [-> | [-> | ->]]];
        destruct Hj' as [-> | [-> | [-> | ->]]];
        try (exfalso; apply Hne; reflexivity);
        rewrite ?D0, ?D1, ?D2, ?D3; simpl pow; lra.
Qed.

Lemma generate_fractal2D_contract_witness :
  run_surface 1 3
  = (1 / Rpower (run_delta 1 ^ 2 + run_delta 3 ^ 2) 1.25, 0).
Proof.
  apply (proj2 (proj2 generate_fractal2D_contract) 1%Z 3%Z).
  - lia.
  - lia.
  - discriminate.
Defined.

(** C8 as stated fails in the concrete run: the centre cell [(2, 2)] has
    wrapped coordinate [(0, 0)], at distance [sqrt 8] from the centre
    [(2, 2)], and does not receive [1/0.9]. *)
Lemma generate_fractal2D_counterexample : run_surface 2 2 <> (1 / 0.9, 0).
Proof.
  destruct run_delta_values as (D0 & D1 & D2 & D3).
  unfold run_surface. rewrite generate_fractal2D_cell by lia.
  rewrite run_divisor by (rewrite D2; simpl pow; lra).
  rewrite D2. unfold Fractals.Cdiv, Fractals.Cdiv_real, run_A.
  simpl fst. simpl snd.
  intros H. injection H as H1 H2.
  assert (Hgt : 1 < Rpower ((-2) ^ 2 + (-2) ^ 2) 1.25).
  { rewrite <- (Rpower_O ((-2) ^ 2 + (-2) ^ 2)) at 1 by (simpl pow; lra).
    apply Rpower_lt; [simpl pow; lra | lra]. }
  assert (Hinv : / Rpower ((-2) ^ 2 + (-2) ^ 2) 1.25 < 1).
  { rewrite <- Rinv_1. apply Rinv_lt_contravar; lra. }
  simpl pow in Hinv. lra.
Qed.

(** C9. Signs of the correction terms: on every face and at either order,
    a component the sign table marks [+] (resp. [-]) gets its correction
    term added (resp. subtracted) at every slab cell, and the component
    normal to the face is left as it was by both kernels of the face. *)
Theorem face_sign_table f o xs xf ys yf zs zf nthreads d m cp :
  match sign_table f cp with
  | Some s =>
      forall i j k, in_slab xs xf ys yf zs zf i j k ->
        let kd := kind_of cp in
        let a := gx kd f xs xf i in
        let b := gy kd f ys yf j in
        let c := gz kd f zs zf k in
        field cp (kernel (EV := Exact) kd f o xs xf ys yf zs zf nthreads d m)
          a b c
        = signed s (field cp m a b c)
            (correction_term kd f o d a b c (profile_index f i j k) i j k cp m)
  | None =>
      forall kd,
        field cp (kernel (EV := Exact) kd f o xs xf ys yf zs zf nthreads d m)
        = field cp m
  end.
Proof.
  destruct f, cp; cbv beta iota delta [sign_table normal];
    try (intros kd; apply kernel_other_field; destruct kd; cbv; discriminate);
    intros i j k Hin; cbv zeta;
    rewrite kernel_cell_field by assumption; reflexivity.
Qed.

Lemma face_sign_table_witness :
  Hy (kernel (EV := Exact) Magnetic zplus order1 0 1 0 1 0 2 1 1 sample_mem)
    0 0 1
  = -44.
Proof.
  etransitivity;
    [ exact (face_sign_table zplus order1 0 1 0 1 0 2 1 1 sample_mem cHy
               0%Z 0%Z 1%Z ltac:(unfold in_slab; lia)) | ].
  unfold correction_term. cbn. lra.
Defined.

Lemma divisor_zero_dec o m hi :
  (forall n, (0 <= n < hi)%Z -> divisor o m n <> 0) \/
  (exists n, (0 <= n < hi)%Z /\ divisor o m n = 0).
Proof.
  destruct (Z_lt_le_dec hi 0) as [Hneg | Hpos]; [left; intros; lia|].
  pattern hi. apply natlike_ind; [left; intros; lia | | exact Hpos].
  intros k Hk [IH | (n & Hn & H0)].
  - destruct (Req_dec_T (divisor o m k) 0) as [E | E].
    + right. exists k. split; [lia | exact E].
    + left. intros n Hn.
      destruct (Z.eq_dec n k) as [-> | Hne]; [exact E | apply IH; lia].
  - right. exists n. split; [lia | exact H0].
Qed.

(** C10, as amended.  With a non-zero spatial step [d]:
    - a magnetic (HORIPML) kernel never divides by zero, whatever the
      coefficients, and returns what exact arithmetic computes;
    - an electric (MRIPML) kernel on a slab that is non-empty along every
      axis is free of division by zero if and only if [RA[0,n]] (order 1),
      resp. [RA[0,n] + RA[1,n]] (order 2), is non-zero for every [n] in
      [0, depth) along the normal axis;
    - under that condition an electric kernel returns what exact
      arithmetic computes, on any slab. *)
Theorem division_safety f o xs xf ys yf zs zf nthreads d m :
  d <> 0 ->
  kernel (EV := Checked) Magnetic f o xs xf ys yf zs zf nthreads d m
  = Some (kernel (EV := Exact) Magnetic f o xs xf ys yf zs zf nthreads d m)
  /\
  ((0 < xf - xs)%Z -> (0 < yf - ys)%Z -> (0 < zf - zs)%Z ->
   (kernel (EV := Checked) Electric f o xs xf ys yf zs zf nthreads d m <> None
    <-> forall n, (0 <= n < depth f xs xf ys yf zs zf)%Z ->
                  divisor o m n <> 0))
  /\
  ((forall n, (0 <= n < depth f xs xf ys yf zs zf)%Z -> divisor o m n <> 0) ->
   kernel (EV := Checked) Electric f o xs xf ys yf zs zf nthreads d m
   = Some (kernel (EV := Exact) Electric f o xs xf ys yf zs zf nthreads d m)).
Proof.
  intros Hd. split; [|split].
  - apply kernel_checked_exact; [exact Hd | discriminate].
  - intros Hx Hy Hz. split.
    + intros Hsome.
      destruct (divisor_zero_dec o m (depth f xs xf ys yf zs zf))
        as [Hall | (n0 & Hn0 & H0)]; [exact Hall|].
      exfalso. apply Hsome.
      now apply kernel_checked_none with (n0 := n0).
    + intros Hall.
      rewrite kernel_checked_exact by (try assumption; intros _; exact Hall).
      discriminate.
  - intros Hall. apply kernel_checked_exact; [exact Hd | intros _; exact Hall].
Qed.

Lemma division_safety_witness :
  kernel (EV := Checked) Magnetic zminus order2 0 2 0 2 0 2 1 1 zero_RA_mem
  = Some (kernel (EV := Exact) Magnetic zminus order2 0 2 0 2 0 2 1 1
            zero_RA_mem).
Proof.
  apply (proj1 (division_safety zminus order2 0 2 0 2 0 2 1 1 zero_RA_mem
                  R1_neq_R0)).
Defined.

(** C10 as stated fails on a slab that is empty along an outer loop axis:
    the order-1 electric kernel of the yminus slab [0,0) x [0,1) x [0,1)
    performs no division, so it does not raise although [RA[0,0] = 0]. *)
Lemma division_safety_counterexample :
  (exists n, (0 <= n < depth yminus 0 0 0 1 0 1)%Z /\
             divisor order1 zero_RA_mem n = 0) /\
  MRIPML.order1_yminus (EV := Checked) 0 0 0 1 0 1 1 1 zero_RA_mem <> None.
Proof.
  split.
  - exists 0%Z. split; [unfold depth; simpl; lia | reflexivity].
  - discriminate.
Qed.

(** * Further properties of the kernels and the generators *)

(** ** Comparing two calls cell by cell *)

Lemma kernel_field_rel kd f o1 o2 xs xf ys yf zs zf nthreads d m1 m2 cp :
  (forall i j k, in_slab xs xf ys yf zs zf i j k ->
     next_field kd f o1 xs xf ys yf zs zf d i j k cp m1
     = next_field kd f o2 xs xf ys yf zs zf d i j k cp m2) ->
  (forall x y z, ~ written kd f xs xf ys yf zs zf x y z ->
     field cp m1 x y z = field cp m2 x y z) ->
  forall x y z,
    field cp (kernel (EV := Exact) kd f o1 xs xf ys yf zs zf nthreads d m1) x y z
    = field cp (kernel (EV := Exact) kd f o2 xs xf ys yf zs zf nthreads d m2)
        x y z.
Proof.
  intros Hin Hout x y z.
  destruct (written_dec kd f xs xf ys yf zs zf x y z) as [Hw | Hw].
  - apply touched_written in Hw.
    destruct Hw as (i & j & k & Hs & -> & -> & ->).
    rewrite !kernel_cell_field by assumption. now apply Hin.
  - rewrite !kernel_not_written by assumption. now apply Hout.
Qed.

Lemma phi_cell_dec xs xf ys yf zs zf r i j k :
  {in_slab xs xf ys yf zs zf i j k /\ (0 <= r < 2)%Z}
  + {~ (in_slab xs xf ys yf zs zf i j k /\ (0 <= r < 2)%Z)}.
Proof.
  destruct (in_slab_dec xs xf ys yf zs zf i j k);
    destruct (Z_le_dec 0 r); destruct (Z_lt_dec r 2);
    first [left; split; [assumption | lia] | right; intros [? ?]; tauto || lia].
Qed.

(** An auxiliary entry outside the slab or outside rows 0 and 1 is not
    changed. *)
Lemma kernel_Phi_unused kd f o xs xf ys yf zs zf nthreads d m r i j k :
  ~ (in_slab xs xf ys yf zs zf i j k /\ (0 <= r < 2)%Z) ->
  let m' := kernel (EV := Exact) kd f o xs xf ys yf zs zf nthreads d m in
  Phi1 m' r i j k = Phi1 m r i j k /\ Phi2 m' r i j k = Phi2 m r i j k.
Proof.
  intros Hout. apply kernel_Phi_outside.
  intros [Hin Hr]. apply Hout. split; [exact Hin|].
  destruct o; cbn [rows] in Hr; lia.
Qed.

Lemma profile_index_depth f xs xf ys yf zs zf i j k :
  in_slab xs xf ys yf zs zf i j k ->
  (0 <= profile_index f i j k < depth f xs xf ys yf zs zf)%Z.
Proof.
  intros (Hi & Hj & Hk).
  destruct f; cbv beta iota delta [profile_index depth normal]; assumption.
Qed.

(** ** What the update law depends on *)

Lemma correction_ext kd o m1 m2 n dF P0 P1 :
  RA m1 = RA m2 -> RB m1 = RB m2 ->
  correction kd o m1 n dF P0 P1 = correction kd o m2 n dF P0 P1.
Proof. intros HA HB. unfold correction. now rewrite HA, HB. Qed.

Lemma next_phi0_ext kd o m1 m2 n dF P0 P1 :
  RA m1 = RA m2 -> RB m1 = RB m2 -> RE m1 = RE m2 -> RF m1 = RF m2 ->
  next_phi0 kd o m1 n dF P0 P1 = next_phi0 kd o m2 n dF P0 P1.
Proof. intros HA HB HE HF. unfold next_phi0. now rewrite HA, HB, HE, HF. Qed.

Lemma next_phi1_ext kd o m1 m2 n dF P0 P1 :
  RA m1 = RA m2 -> RB m1 = RB m2 -> RE m1 = RE m2 -> RF m1 = RF m2 ->
  next_phi1 kd o m1 n dF P0 P1 = next_phi1 kd o m2 n dF P0 P1.
Proof. intros HA HB HE HF. unfold next_phi1. now rewrite HA, HB, HE, HF. Qed.

(** The curl difference at a slab cell reads its source at two cells of
    the read region. *)
Lemma curl_diff_read kd f xs xf ys yf zs zf d i j k
    (S1 S2 : Z -> Z -> Z -> R) :
  in_slab xs xf ys yf zs zf i j k ->
  (forall x y z, read kd f xs xf ys yf zs zf x y z -> S1 x y z = S2 x y z) ->
  curl_diff kd (normal f) S1
    (gx kd f xs xf i) (gy kd f ys yf j) (gz kd f zs zf k) d
  = curl_diff kd (normal f) S2
      (gx kd f xs xf i) (gy kd f ys yf j) (gz kd f zs zf k) d.
Proof.
  intros (Hi & Hj & Hk) HS.
  destruct kd, f;
    cbv beta iota delta [curl_diff normal gx gy gz minus_index plus_index];
    rewrite !HS;
    try reflexivity;
    cbv beta iota delta [read written normal normal_shift];
    first [left; lia | right; lia].
Qed.

(** ** Linear combinations *)

Ltac red_combine :=
  cbn [combine updatecoeffsE updatecoeffsH ID Ex Ey Ez Hx Hy Hz Phi1 Phi2
       RA RB RE RF].

Lemma next_field_combine kd f o xs xf ys yf zs zf d i j k cp a b m1 m2 :
  same_coefficients m1 m2 ->
  next_field kd f o xs xf ys yf zs zf d i j k cp (combine a b m1 m2)
  = a * next_field kd f o xs xf ys yf zs zf d i j k cp m1
    + b * next_field kd f o xs xf ys yf zs zf d i j k cp m2.
Proof.
  intros (HE & HH & HID & HRA & HRB & HRE & HRF).
  destruct kd, f, o, cp; red_law; red_combine;
    rewrite <- ?HE, <- ?HH, <- ?HID, <- ?HRA, <- ?HRB, <- ?HRE, <- ?HRF;
    unfold Rdiv; ring.
Qed.

Lemma next_Phi_combine kd f o xs xf ys yf zs zf d r i j k a b m1 m2 :
  same_coefficients m1 m2 ->
  next_Phi1 kd f o xs xf ys yf zs zf d r i j k (combine a b m1 m2)
  = a * next_Phi1 kd f o xs xf ys yf zs zf d r i j k m1
    + b * next_Phi1 kd f o xs xf ys yf zs zf d r i j k m2 /\
  next_Phi2 kd f o xs xf ys yf zs zf d r i j k (combine a b m1 m2)
  = a * next_Phi2 kd f o xs xf ys yf zs zf d r i j k m1
    + b * next_Phi2 kd f o xs xf ys yf zs zf d r i j k m2.
Proof.
  intros (HE & HH & HID & HRA & HRB & HRE & HRF).
  unfold next_Phi1, next_Phi2, law_Phi1, law_Phi2.
  destruct (r =? 0)%Z; destruct kd, f, o; red_law; red_combine;
    rewrite <- ?HRA, <- ?HRB, <- ?HRE, <- ?HRF;
    split; unfold Rdiv; ring.
Qed.

(** ** Mirrored profiles *)

Ltac red_mirror :=
  cbn [mirror updatecoeffsE updatecoeffsH ID Ex Ey Ez Hx Hy Hz Phi1 Phi2
       RA RB RE RF].

(** Two expressions that differ in their index arguments only. *)
Ltac index_eq :=
  lazymatch goal with
  | |- @eq Z _ _ => first [lia | f_equal; index_eq]
  | |- @eq R ?x ?x => reflexivity
  | |- @eq R _ _ => f_equal; index_eq
  end.

Lemma next_field_mirror kd ax o xs xf ys yf zs zf d m i j k cp :
  in_slab xs xf ys yf zs zf i j k ->
  let len := depth (minus_face ax) xs xf ys yf zs zf in
  let f := minus_face ax in
  let sx := normal_shift kd f axis_x in
  let sy := normal_shift kd f axis_y in
  let sz := normal_shift kd f axis_z in
  let i' := match ax with axis_x => (len - 1 - i)%Z | _ => i end in
  let j' := match ax with axis_y => (len - 1 - j)%Z | _ => j end in
  let k' := match ax with axis_z => (len - 1 - k)%Z | _ => k end in
  next_field kd (plus_face ax) o (xs + sx) (xf + sx) (ys + sy) (yf + sy)
    (zs + sz) (zf + sz) d i' j' k' cp (mirror ax len m)
  = next_field kd f o xs xf ys yf zs zf d i j k cp m.
Proof.
  intros Hin len f sx sy sz i' j' k'. subst len f sx sy sz i' j' k'.
  destruct kd, ax, o, cp;
    cbv beta iota delta [minus_face plus_face depth normal normal_shift];
    red_law; red_mirror; index_eq.
Qed.

Lemma next_Phi_mirror kd ax o xs xf ys yf zs zf d m r i j k :
  let len := depth (minus_face ax) xs xf ys yf zs zf in
  let f := minus_face ax in
  let sx := normal_shift kd f axis_x in
  let sy := normal_shift kd f axis_y in
  let sz := normal_shift kd f axis_z in
  let i' := match ax with axis_x => (len - 1 - i)%Z | _ => i end in
  let j' := match ax with axis_y => (len - 1 - j)%Z | _ => j end in
  let k' := match ax with axis_z => (len - 1 - k)%Z | _ => k end in
  next_Phi1 kd (plus_face ax) o (xs + sx) (xf + sx) (ys + sy) (yf + sy)
    (zs + sz) (zf + sz) d r i' j' k' (mirror ax len m)
  = next_Phi1 kd f o xs xf ys yf zs zf d r i j k m /\
  next_Phi2 kd (plus_face ax) o (xs + sx) (xf + sx) (ys + sy) (yf + sy)
    (zs + sz) (zf + sz) d r i' j' k' (mirror ax len m)
  = next_Phi2 kd f o xs xf ys yf zs zf d r i j k m.
Proof.
  intros len f sx sy sz i' j' k'. subst len f sx sy sz i' j' k'.
  unfold next_Phi1, next_Phi2, law_Phi1, law_Phi2.
  destruct (r =? 0)%Z; destruct kd, ax, o;
    cbv beta iota delta [minus_face plus_face depth normal normal_shift];
    red_law; red_mirror; split; index_eq.
Qed.

Lemma Phi_mirror ax len m r i j k :
  let i' := match ax with axis_x => (len - 1 - i)%Z | _ => i end in
  let j' := match ax with axis_y => (len - 1 - j)%Z | _ => j end in
  let k' := match ax with axis_z => (len - 1 - k)%Z | _ => k end in
  Phi1 (mirror ax len m) r i j k = Phi1 m r i' j' k' /\
  Phi2 (mirror ax len m) r i j k = Phi2 m r i' j' k'.
Proof. destruct ax; split; reflexivity. Qed.

Ltac red_absorb :=
  cbn [absorb_RB updatecoeffsE updatecoeffsH ID Ex Ey Ez Hx Hy Hz Phi1 Phi2
       RA RB RE RF];
  cbv beta iota delta [profile_index normal].

(** ** Divisions in checked mode, on any slab *)

Ltac absurd_division E :=
  exfalso;
  repeat match goal with
  | H : _ \/ _ |- _ => destruct H
  end;
  first
    [ contradiction
    | lia
    | tauto
    | lazymatch type of E with
      | RA _ 0 ?n = 0 =>
          match goal with
          | HRA : forall n : Z, _ -> RA _ 0 n <> 0 |- _ =>
              pose proof (HRA n ltac:(lia)); congruence
          end
      | RA _ 0 ?n + RA _ 1 ?n = 0 =>
          match goal with
          | HRA : forall n : Z, _ -> RA _ 0 n + RA _ 1 n <> 0 |- _ =>
              pose proof (HRA n ltac:(lia)); congruence
          end
      end ].

Ltac checked_some m :=
  repeat
    (cbv beta;
     lazymatch goal with
     | |- range _ _ _ _ = Some _ /\ _ =>
         apply range_checked_exact with (I := fun s : mem => RA s = RA m);
         [ first [reflexivity | assumption] | intros ? ? ? ? ]
     | |- match (if Req_dec_T ?b 0 then _ else _) with _ => _ end = _ /\ _ =>
         let E := fresh "E" in
         destruct (Req_dec_T b 0) as [E | _]; [absurd_division E | ]
     | |- Some _ = Some _ /\ _ => split; [reflexivity | assumption]
     end).

(** A call whose divisions all have a non-zero divisor, or are not
    reached, returns what the exact call computes. *)
Lemma kernel_checked_some kd f o xs xf ys yf zs zf nthreads d m :
  (d <> 0 \/ (xf <= xs \/ yf <= ys \/ zf <= zs)%Z) ->
  (kd = Electric ->
   (forall n, (0 <= n < depth f xs xf ys yf zs zf)%Z -> divisor o m n <> 0)
   \/ ~ outer_loops_run f xs xf ys yf) ->
  kernel (EV := Checked) kd f o xs xf ys yf zs zf nthreads d m
  = Some (kernel (EV := Exact) kd f o xs xf ys yf zs zf nthreads d m).
Proof.
  intros Hd HRA.
  cut (kernel (EV := Checked) kd f o xs xf ys yf zs zf nthreads d m
       = Some (kernel (EV := Exact) kd f o xs xf ys yf zs zf nthreads d m)
       /\ RA (kernel (EV := Exact) kd f o xs xf ys yf zs zf nthreads d m)
          = RA m); [tauto|].
  destruct kd;
    [ clear HRA | specialize (HRA eq_refl) ];
    destruct f, o;
    try (cbv beta iota delta [depth divisor normal outer_loops_run] in HRA);
    unfold_both; checked_some m.
Qed.

(** Iteration [0] of every loop is run, and the division by the step
    raises there if no division before it did. *)
Ltac checked_zero_step m :=
  repeat
    (cbv beta;
     lazymatch goal with
     | |- range _ _ _ _ = None =>
         apply range_checked_none
           with (I := fun s : mem => RA s = RA m) (t0 := 0%Z);
         [ lia
         | first [reflexivity | assumption]
         | intros ? ? ? ?; checked_inv m
         | intros ? ? ]
     | |- match (if Req_dec_T ?b 0 then _ else _) with _ => _ end = None =>
         destruct (Req_dec_T b 0); [reflexivity | try (exfalso; congruence)]
     end).

(** With a zero step every kernel raises on a non-empty slab. *)
Lemma kernel_checked_zero_step kd f o xs xf ys yf zs zf nthreads m :
  nonempty xs xf ys yf zs zf ->
  kernel (EV := Checked) kd f o xs xf ys yf zs zf nthreads 0 m = None.
Proof.
  intros (Hx & Hy & Hz).
  destruct kd, f, o; unfold_both; checked_zero_step m.
Qed.

(** An electric kernel raises if one of its divisors is zero and the loops
    around the division run. *)
Lemma kernel_checked_zero_divisor f o xs xf ys yf zs zf nthreads d m n0 :
  outer_loops_run f xs xf ys yf ->
  (0 <= n0 < depth f xs xf ys yf zs zf)%Z -> divisor o m n0 = 0 ->
  kernel (EV := Checked) Electric f o xs xf ys yf zs zf nthreads d m = None.
Proof.
  intros Hrun Hn H0.
  destruct f, o;
    cbv beta iota delta [depth divisor normal outer_loops_run] in Hrun, Hn, H0;
    try match type of Hrun with _ /\ _ => destruct Hrun as [Hx Hy] end;
    unfold_both; checked_none m n0.
Qed.

Lemma nonempty_dec xs xf ys yf zs zf :
  nonempty xs xf ys yf zs zf \/ (xf <= xs \/ yf <= ys \/ zf <= zs)%Z.
Proof. unfold nonempty. lia. Qed.

Lemma outer_loops_run_dec f xs xf ys yf :
  outer_loops_run f xs xf ys yf \/ ~ outer_loops_run f xs xf ys yf.
Proof.
  destruct f; cbv beta iota delta [outer_loops_run normal];
    first [left; exact I | lia].
Qed.

(** ** The generators, cell by cell *)

(** A cell outside the surface is not written. *)
Lemma generate_fractal2D_outside
    nx ny ox oy gx gy nthreads D weighting v1 A S i j :
  ~ ((0 <= i < nx)%Z /\ (0 <= j < ny)%Z) ->
  Fractals.generate_fractal2D nx ny ox oy gx gy nthreads D weighting v1 A S i j
  = S i j.
Proof.
  intros Hout.
  unfold Fractals.generate_fractal2D, prange. cbv zeta.
  apply range_preserve
    with (obs := fun s : Z -> Z -> Fractals.complex => s i j).
  intros t s Ht.
  apply range_preserve
    with (obs := fun s : Z -> Z -> Fractals.complex => s i j).
  intros t' s' Ht'. unfold Fractals.upd_surface.
  destruct (Z.eqb_spec i t), (Z.eqb_spec j t'); simpl; try reflexivity.
  exfalso. apply Hout. subst. split; assumption.
Qed.

Lemma fractal_divisor_at ox oy gx gy D weighting v1 i j :
  fractal_divisor ox oy gx gy D weighting v1 i j
  = divisor_at (fractal_dx ox gx weighting v1 i ^ 2
                + fractal_dy oy gy weighting v1 j ^ 2) D.
Proof. reflexivity. Qed.

Lemma upd_volume_miss (V : Z -> Z -> Z -> Fractals.complex) t t' t'' v i j k :
  (t <> i \/ t' <> j \/ t'' <> k)%Z ->
  Fractals.upd_volume V t t' t'' v i j k = V i j k.
Proof.
  intros Hne. unfold Fractals.upd_volume.
  destruct (Z.eqb_spec i t), (Z.eqb_spec j t'), (Z.eqb_spec k t'');
    simpl; try reflexivity.
  exfalso. lia.
Qed.

Lemma generate_fractal3D_cell
    nx ny nz ox oy oz gx gy gz nthreads D weighting v1 A V i j k :
  (0 <= i < nx)%Z -> (0 <= j < ny)%Z -> (0 <= k < nz)%Z ->
  Fractals.generate_fractal3D nx ny nz ox oy oz gx gy gz nthreads D
    weighting v1 A V i j k
  = Fractals.Cdiv (A i j k)
      (divisor_at (fractal_dx ox gx weighting v1 i ^ 2
                   + fractal_dy oy gy weighting v1 j ^ 2
                   + fractal_dz oz gz weighting v1 k ^ 2) D).
Proof.
  intros Hi Hj Hk.
  unfold Fractals.generate_fractal3D, prange. cbv zeta.
  set (obs := fun s : Z -> Z -> Z -> Fractals.complex => s i j k).
  apply range_hit with (vw := obs) (pr := fun v => v) (v0 := V i j k) (t0 := i).
  - lia.
  - reflexivity.
  - intros t s Ht Hne.
    repeat (apply range_preserve with (obs := obs); intros ? ? ?).
    apply upd_volume_miss. left. exact Hne.
  - intros s _.
    apply range_hit with (vw := obs) (pr := fun v => v) (v0 := s i j k)
                         (t0 := j).
    + lia.
    + reflexivity.
    + intros t s' Ht Hne.
      apply range_preserve with (obs := obs). intros ? ? ?.
      apply upd_volume_miss. right. left. exact Hne.
    + intros s' _.
      apply range_hit with (vw := obs) (pr := fun v => v) (v0 := s' i j k)
                           (t0 := k).
      * lia.
      * reflexivity.
      * intros t s'' Ht Hne. apply upd_volume_miss. right. right. exact Hne.
      * intros s'' _. unfold obs, Fractals.upd_volume.
        rewrite !Z.eqb_refl. cbn [andb].
        unfold divisor_at, fractal_dx, fractal_dy, fractal_dz.
        rewrite fpow_half_sqrt; [reflexivity|].
        repeat apply Rplus_le_le_0_compat; apply pow2_ge_0.
Qed.

Lemma generate_fractal3D_outside
    nx ny nz ox oy oz gx gy gz nthreads D weighting v1 A V i j k :
  ~ ((0 <= i < nx)%Z /\ (0 <= j < ny)%Z /\ (0 <= k < nz)%Z) ->
  Fractals.generate_fractal3D nx ny nz ox oy oz gx gy gz nthreads D
    weighting v1 A V i j k
  = V i j k.
Proof.
  intros Hout.
  unfold Fractals.generate_fractal3D, prange. cbv zeta.
  repeat (apply range_preserve
            with (obs := fun s : Z -> Z -> Z -> Fractals.complex => s i j k);
          intros ? ? ?).
  apply upd_volume_miss. lia.
Qed.

(** The divisor is never zero; it is 0.9 at distance zero and a power of
    the squared distance elsewhere; with dimension zero it is one. *)
Lemma divisor_at_nonzero s D : divisor_at s D <> Fractals.Finite 0.
Proof. unfold divisor_at. cbv zeta. apply guard_nonzero. Qed.

Lemma divisor_at_zero D : 0 < D -> divisor_at 0 D = Fractals.Finite 0.9.
Proof.
  intros HD. unfold divisor_at. cbv zeta. rewrite sqrt_0.
  rewrite fpow_zero_pos by exact HD. now rewrite is_zero_zero.
Qed.

Lemma divisor_at_pos s D :
  0 < s -> divisor_at s D = Fractals.Finite (Rpower s (D / 2)).
Proof.
  intros Hpos. unfold divisor_at. cbv zeta.
  rewrite fpow_pos by (apply sqrt_lt_R0, Hpos).
  rewrite <- (Rpower_sqrt _ Hpos), Rpower_mult.
  replace (/ 2 * D) with (D / 2) by lra.
  now rewrite is_zero_Finite by apply Rpower_neq_0.
Qed.

Lemma divisor_at_dimension_zero s : divisor_at s 0 = Fractals.Finite 1.
Proof.
  unfold divisor_at. cbv zeta.
  assert (HP : Fractals.fpow (Fractals.Finite (sqrt s)) 0 = Fractals.Finite 1).
  { unfold Fractals.fpow.
    destruct (Req_dec_T _ 0) as [_ | _].
    - destruct (Req_dec_T 0 0) as [_ | E]; [reflexivity | contradiction].
    - f_equal. unfold Rpower. rewrite Rmult_0_l. apply exp_0. }
  rewrite HP. rewrite is_zero_Finite by lra. reflexivity.
Qed.

Lemma sum_squares2_pos x y : ~ (x = 0 /\ y = 0) -> 0 < x ^ 2 + y ^ 2.
Proof.
  intros Hne.
  destruct (Req_dec_T (x ^ 2 + y ^ 2) 0) as [E | E].
  - exfalso. apply Hne. split; nra.
  - assert (0 <= x ^ 2) by apply pow2_ge_0.
    assert (0 <= y ^ 2) by apply pow2_ge_0. lra.
Qed.

Lemma sum_squares3_pos x y z :
  ~ (x = 0 /\ y = 0 /\ z = 0) -> 0 < x ^ 2 + y ^ 2 + z ^ 2.
Proof.
  intros Hne.
  destruct (Req_dec_T (x ^ 2 + y ^ 2 + z ^ 2) 0) as [E | E].
  - exfalso. apply Hne. repeat split; nra.
  - assert (0 <= x ^ 2) by apply pow2_ge_0.
    assert (0 <= y ^ 2) by apply pow2_ge_0.
    assert (0 <= z ^ 2) by apply pow2_ge_0. lra.
Qed.

(** ** One slab call after another *)

(** The sources of a kernel are not targets of a kernel of the same
    kind. *)
Lemma source_not_target_of kd fA fB :
  source1 kd fB <> target1 kd fA /\ source1 kd fB <> target2 kd fA /\
  source2 kd fB <> target1 kd fA /\ source2 kd fB <> target2 kd fA.
Proof. destruct kd, fA, fB; cbv; repeat split; discriminate. Qed.

(** What a call adds to a field entry does not depend on the target
    components. *)
Lemma kernel_increment_ext kd f o xs xf ys yf zs zf nthreads d m1 m2 cp x y z :
  same_coefficients m1 m2 ->
  (forall r i j k, Phi1 m1 r i j k = Phi1 m2 r i j k /\
                   Phi2 m1 r i j k = Phi2 m2 r i j k) ->
  field (source1 kd f) m1 = field (source1 kd f) m2 ->
  field (source2 kd f) m1 = field (source2 kd f) m2 ->
  field cp (kernel (EV := Exact) kd f o xs xf ys yf zs zf nthreads d m1) x y z
  - field cp m1 x y z
  = field cp (kernel (EV := Exact) kd f o xs xf ys yf zs zf nthreads d m2) x y z
    - field cp m2 x y z.
Proof.
  intros (HcE & HcH & HID & HRA & HRB & HRE & HRF) HPhi Hs1 Hs2.
  assert (Hc : updatecoeffs kd m1 = updatecoeffs kd m2)
    by (destruct kd; assumption).
  destruct (written_dec kd f xs xf ys yf zs zf x y z) as [Hw | Hw].
  - apply touched_written in Hw.
    destruct Hw as (i & j & k & Hin & -> & -> & ->).
    rewrite !kernel_cell_field by assumption.
    unfold next_field, law_field. cbv zeta.
    rewrite Hs1, Hs2, Hc, HID.
    rewrite !(proj1 (HPhi _ _ _ _)), !(proj2 (HPhi _ _ _ _)).
    rewrite !(correction_ext kd o m1 m2) by assumption.
    destruct (component_eqb cp (target1 kd f));
      [ destruct (sign1 kd f); cbn [signed]; ring |].
    destruct (component_eqb cp (target2 kd f));
      [ destruct (sign2 kd f); cbn [signed]; ring |].
    ring.
  - rewrite !kernel_not_written by assumption. ring.
Qed.

(** The auxiliary arrays after a call, from the profiles, the auxiliary
    arrays and the sources in the read region. *)
Lemma kernel_Phi_ext kd f o xs xf ys yf zs zf nthreads d m1 m2 :
  RA m1 = RA m2 -> RB m1 = RB m2 -> RE m1 = RE m2 -> RF m1 = RF m2 ->
  (forall r i j k, Phi1 m1 r i j k = Phi1 m2 r i j k /\
                   Phi2 m1 r i j k = Phi2 m2 r i j k) ->
  (forall x y z, read kd f xs xf ys yf zs zf x y z ->
     field (source1 kd f) m1 x y z = field (source1 kd f) m2 x y z /\
     field (source2 kd f) m1 x y z = field (source2 kd f) m2 x y z) ->
  forall r i j k,
    Phi1 (kernel (EV := Exact) kd f o xs xf ys yf zs zf nthreads d m1) r i j k
    = Phi1 (kernel (EV := Exact) kd f o xs xf ys yf zs zf nthreads d m2)
        r i j k /\
    Phi2 (kernel (EV := Exact) kd f o xs xf ys yf zs zf nthreads d m1) r i j k
    = Phi2 (kernel (EV := Exact) kd f o xs xf ys yf zs zf nthreads d m2)
        r i j k.
Proof.
  intros HRA HRB HRE HRF HPhi Hsrc r i j k.
  destruct (phi_cell_dec xs xf ys yf zs zf r i j k) as [[Hin Hr] | Hout].
  - destruct (kernel_cell_Phi kd f o xs xf ys yf zs zf nthreads d
                m1 r i j k Hin Hr) as [-> ->].
    destruct (kernel_cell_Phi kd f o xs xf ys yf zs zf nthreads d
                m2 r i j k Hin Hr) as [-> ->].
    unfold next_Phi1, next_Phi2, law_Phi1, law_Phi2. cbv zeta.
    rewrite (curl_diff_read kd f xs xf ys yf zs zf d i j k
               (field (source1 kd f) m1) (field (source1 kd f) m2) Hin)
      by (intros x y z Hx; apply Hsrc, Hx).
    rewrite (curl_diff_read kd f xs xf ys yf zs zf d i j k
               (field (source2 kd f) m1) (field (source2 kd f) m2) Hin)
      by (intros x y z Hx; apply Hsrc, Hx).
    rewrite !(proj1 (HPhi _ _ _ _)), !(proj2 (HPhi _ _ _ _)).
    rewrite !(next_phi0_ext kd o m1 m2), !(next_phi1_ext kd o m1 m2)
      by assumption.
    split; reflexivity.
  - destruct (kernel_Phi_unused kd f o xs xf ys yf zs zf nthreads d
                m1 r i j k Hout) as [-> ->].
    destruct (kernel_Phi_unused kd f o xs xf ys yf zs zf nthreads d
                m2 r i j k Hout) as [-> ->].
    apply HPhi.
Qed.

Lemma field_with_slab cp m p : field cp (with_slab m p) = field cp m.
Proof. destruct cp; reflexivity. Qed.

(** A field entry a call does not assign is left as it was. *)
Lemma kernel_not_assigned kd f o xs xf ys yf zs zf nthreads d m cp x y z :
  ~ assigns kd f xs xf ys yf zs zf cp x y z ->
  field cp (kernel (EV := Exact) kd f o xs xf ys yf zs zf nthreads d m) x y z
  = field cp m x y z.
Proof.
  intros Hn.
  destruct (written_dec kd f xs xf ys yf zs zf x y z) as [Hw | Hw];
    [|now apply kernel_not_written].
  rewrite kernel_other_field; [reflexivity | |];
    intros ->; apply Hn; (split; [|exact Hw]); [left | right]; reflexivity.
Qed.

(** One slab call after another of the same kind: the second call sees
    the tables, [ID], profiles and sources the first call saw. *)
Lemma slab_call_then kd fA oA xsA xfA ysA yfA zsA zfA ntA dA pA
    fB oB xsB xfB ysB yfB zsB zfB ntB dB pB m :
  let A := fun m =>
    kernel (EV := Exact) kd fA oA xsA xfA ysA yfA zsA zfA ntA dA
      (with_slab m pA) in
  let B := fun m =>
    kernel (EV := Exact) kd fB oB xsB xfB ysB yfB zsB zfB ntB dB
      (with_slab m pB) in
  (forall cp x y z,
     field cp (B (A m)) x y z
     = field cp (A m) x y z + field cp (B m) x y z - field cp m x y z) /\
  (forall r i j k,
     Phi1 (B (A m)) r i j k = Phi1 (B m) r i j k /\
     Phi2 (B (A m)) r i j k = Phi2 (B m) r i j k).
Proof.
  intros A B.
  destruct (kernel_readonly kd fA oA xsA xfA ysA yfA zsA zfA ntA dA
              (with_slab m pA)) as (HcE & HcH & HID & _).
  fold (A m) in HcE, HcH, HID.
  destruct (source_not_target_of kd fA fB) as (N1 & N2 & N3 & N4).
  assert (Hs1 : field (source1 kd fB) (A m) = field (source1 kd fB) m).
  { subst A. cbv beta. rewrite kernel_other_field by assumption.
    apply field_with_slab. }
  assert (Hs2 : field (source2 kd fB) (A m) = field (source2 kd fB) m).
  { subst A. cbv beta. rewrite kernel_other_field by assumption.
    apply field_with_slab. }
  split.
  - intros cp x y z.
    pose proof (kernel_increment_ext kd fB oB xsB xfB ysB yfB zsB zfB ntB dB
                  (with_slab (A m) pB) (with_slab m pB) cp x y z) as H.
    rewrite !field_with_slab in H. fold (B (A m)) (B m) in H.
    assert (E : field cp (B (A m)) x y z - field cp (A m) x y z
                = field cp (B m) x y z - field cp m x y z).
    { apply H.
      - repeat split; try reflexivity; assumption.
      - intros; split; reflexivity.
      - exact Hs1.
      - exact Hs2. }
    lra.
  - intros r i j k. subst B. cbv beta.
    apply kernel_Phi_ext; try reflexivity.
    + intros; split; reflexivity.
    + intros x y z _. rewrite !field_with_slab, Hs1, Hs2. split; reflexivity.
Qed.

(** ** The rows a call reads *)

(** The bracket and the new auxiliary values read the rows of the order
    only. *)
Lemma correction_rows kd o m1 m2 n dF P0 P1 Q1 :
  (forall r, (0 <= r < rows o)%Z ->
     RA m1 r n = RA m2 r n /\ RB m1 r n = RB m2 r n /\
     RE m1 r n = RE m2 r n /\ RF m1 r n = RF m2 r n) ->
  (o = order2 -> P1 = Q1) ->
  correction kd o m1 n dF P0 P1 = correction kd o m2 n dF P0 Q1.
Proof.
  intros Hrow HP.
  destruct o; cbn [rows] in Hrow.
  - destruct (Hrow 0%Z ltac:(lia)) as (HA & HB & _).
    destruct kd; cbn [correction]; now rewrite ?HA, ?HB.
  - destruct (Hrow 0%Z ltac:(lia)) as (HA & HB & _).
    destruct (Hrow 1%Z ltac:(lia)) as (HA' & HB' & _).
    rewrite (HP eq_refl).
    destruct kd; cbn [correction]; now rewrite ?HA, ?HB, ?HA', ?HB'.
Qed.

Lemma next_phi_rows kd o m1 m2 n dF P0 P1 Q1 :
  (forall r, (0 <= r < rows o)%Z ->
     RA m1 r n = RA m2 r n /\ RB m1 r n = RB m2 r n /\
     RE m1 r n = RE m2 r n /\ RF m1 r n = RF m2 r n) ->
  (o = order2 -> P1 = Q1) ->
  next_phi0 kd o m1 n dF P0 P1 = next_phi0 kd o m2 n dF P0 Q1 /\
  (o = order2 ->
   next_phi1 kd o m1 n dF P0 P1 = next_phi1 kd o m2 n dF P0 Q1).
Proof.
  intros Hrow HP.
  destruct o; cbn [rows] in Hrow.
  - destruct (Hrow 0%Z ltac:(lia)) as (HA & HB & HE & HF).
    split; [|discriminate].
    destruct kd; cbn [next_phi0]; now rewrite ?HA, ?HB, ?HE, ?HF.
  - destruct (Hrow 0%Z ltac:(lia)) as (HA & HB & HE & HF).
    destruct (Hrow 1%Z ltac:(lia)) as (HA' & HB' & HE' & HF').
    rewrite (HP eq_refl).
    split; [|intros _];
      destruct kd; cbn [next_phi0 next_phi1];
      now rewrite ?HA, ?HB, ?HE, ?HF, ?HA', ?HB', ?HE', ?HF'.
Qed.

(** ** Indexing and update laws of the other kernels *)

(** X1. On a plus face every kernel, magnetic or electric, works at the
    global cell [(i + xs, j + ys, k + zs)] of the slab-local cell
    [(i, j, k)], reads the profiles at the local index along the normal
    axis, and leaves every field entry outside
    [xs,xf) x [ys,yf) x [zs,zf) as it was. *)
Theorem plus_face_indexing kd o xs xf ys yf zs zf nthreads d m i j k r cp :
  in_slab xs xf ys yf zs zf i j k -> (0 <= r < 2)%Z ->
  let a := (i + xs)%Z in
  let b := (j + ys)%Z in
  let c := (k + zs)%Z in
  let inside := fun a' b' c' : Z =>
    (xs <= a' < xf)%Z /\ (ys <= b' < yf)%Z /\ (zs <= c' < zf)%Z in
  (let m' := kernel (EV := Exact) kd xplus o xs xf ys yf zs zf nthreads d m in
   field cp m' a b c = law_field kd xplus o d a b c i i j k cp m /\
   Phi1 m' r i j k = law_Phi1 kd xplus o d a b c i r i j k m /\
   Phi2 m' r i j k = law_Phi2 kd xplus o d a b c i r i j k m /\
   (forall a' b' c', ~ inside a' b' c' ->
      field cp m' a' b' c' = field cp m a' b' c'))
  /\
  (let m' := kernel (EV := Exact) kd yplus o xs xf ys yf zs zf nthreads d m in
   field cp m' a b c = law_field kd yplus o d a b c j i j k cp m /\
   Phi1 m' r i j k = law_Phi1 kd yplus o d a b c j r i j k m /\
   Phi2 m' r i j k = law_Phi2 kd yplus o d a b c j r i j k m /\
   (forall a' b' c', ~ inside a' b' c' ->
      field cp m' a' b' c' = field cp m a' b' c'))
  /\
  (let m' := kernel (EV := Exact) kd zplus o xs xf ys yf zs zf nthreads d m in
   field cp m' a b c = law_field kd zplus o d a b c k i j k cp m /\
   Phi1 m' r i j k = law_Phi1 kd zplus o d a b c k r i j k m /\
   Phi2 m' r i j k = law_Phi2 kd zplus o d a b c k r i j k m /\
   (forall a' b' c', ~ inside a' b' c' ->
      field cp m' a' b' c' = field cp m a' b' c')).
Proof.
  intros Hin Hr a b c inside.
  assert (Hframe : forall f, f = xplus \/ f = yplus \/ f = zplus ->
            forall a' b' c', ~ inside a' b' c' ->
              field cp (kernel (EV := Exact) kd f o xs xf ys yf zs zf
                          nthreads d m) a' b' c'
              = field cp m a' b' c').
  { intros f Hf a' b' c' Hout. apply kernel_not_written.
    intros Hw. apply Hout. unfold inside, written in *.
    destruct kd; destruct Hf as [-> | [-> | ->]];
      cbv beta iota delta [normal_shift] in Hw; lia. }
  repeat split.
  - exact (kernel_cell_field kd xplus o xs xf ys yf zs zf nthreads d m i j k cp Hin).
  - exact (proj1 (kernel_cell_Phi kd xplus o xs xf ys yf zs zf nthreads d m r i j k Hin Hr)).
  - exact (proj2 (kernel_cell_Phi kd xplus o xs xf ys yf zs zf nthreads d m r i j k Hin Hr)).
  - apply Hframe. tauto.
  - exact (kernel_cell_field kd yplus o xs xf ys yf zs zf nthreads d m i j k cp Hin).
  - exact (proj1 (kernel_cell_Phi kd yplus o xs xf ys yf zs zf nthreads d m r i j k Hin Hr)).
  - exact (proj2 (kernel_cell_Phi kd yplus o xs xf ys yf zs zf nthreads d m r i j k Hin Hr)).
  - apply Hframe. tauto.
  - exact (kernel_cell_field kd zplus o xs xf ys yf zs zf nthreads d m i j k cp Hin).
  - exact (proj1 (kernel_cell_Phi kd zplus o xs xf ys yf zs zf nthreads d m r i j k Hin Hr)).
  - exact (proj2 (kernel_cell_Phi kd zplus o xs xf ys yf zs zf nthreads d m r i j k Hin Hr)).
  - apply Hframe. tauto.
Qed.

Lemma plus_face_indexing_witness :
  let m' := kernel (EV := Exact) Magnetic zplus order2 0 1 0 2 0 3 1 1
              sample_mem in
  Phi1 m' 1 0 1 2 = law_Phi1 Magnetic zplus order2 1 0 1 2 2 1 0 1 2
                      sample_mem.
Proof.
  assert (Hin : in_slab 0 1 0 2 0 3 0 1 2) by (unfold in_slab; lia).
  assert (Hr : (0 <= 1 < 2)%Z) by lia.
  exact (proj1 (proj2 (proj2 (proj2
           (plus_face_indexing Magnetic order2 0 1 0 2 0 3 1 1 sample_mem
              0 1 2 1 cEx Hin Hr))))).
Defined.

(** X2. Order-2 electric kernel of the xminus slab: with
    [IRA = 1 / (RA[0,i] + RA[1,i])], [IRA1 = IRA - 1], [RC0 = IRA * RF[0,i]],
    [RC1 = IRA * RF[1,i]] and [Psi = RB[0,i] * Phi[0] + RB[1,i] * Phi[1]],
    the backward differences of [Hz] and [Hy] along x drive [Ey] (minus
    sign) and [Ez] (plus sign) with bracket [IRA1 * dH - IRA * Psi], and
    row [r] of the auxiliary array becomes
    [RE[r,i] * Phi[r] + RC_r * (dH - Psi)]; all right-hand sides read the
    memory before the call. *)
Theorem order2_xminus_electric_law xs xf ys yf zs zf nthreads d m i j k :
  (0 <= i < xf - xs)%Z -> (0 <= j < yf - ys)%Z -> (0 <= k < zf - zs)%Z ->
  let m' := MRIPML.order2_xminus (EV := Exact) xs xf ys yf zs zf nthreads d m in
  let ii := (xf - i)%Z in
  let jj := (j + ys)%Z in
  let kk := (k + zs)%Z in
  let IRA := 1 / (RA m 0 i + RA m 1 i) in
  let IRA1 := IRA - 1 in
  let RC0 := IRA * RF m 0 i in
  let RC1 := IRA * RF m 1 i in
  let Psi1 := RB m 0 i * Phi1 m 0 i j k + RB m 1 i * Phi1 m 1 i j k in
  let Psi2 := RB m 0 i * Phi2 m 0 i j k + RB m 1 i * Phi2 m 1 i j k in
  let dHz := (Hz m ii jj kk - Hz m (ii - 1) jj kk) / d in
  let dHy := (Hy m ii jj kk - Hy m (ii - 1) jj kk) / d in
  let c_Ey := updatecoeffsE m (ID m 1 ii jj kk) 4 in
  let c_Ez := updatecoeffsE m (ID m 2 ii jj kk) 4 in
  Ey m' ii jj kk = Ey m ii jj kk - c_Ey * (IRA1 * dHz - IRA * Psi1) /\
  Ez m' ii jj kk = Ez m ii jj kk + c_Ez * (IRA1 * dHy - IRA * Psi2) /\
  Phi1 m' 1 i j k = RE m 1 i * Phi1 m 1 i j k + RC1 * (dHz - Psi1) /\
  Phi1 m' 0 i j k = RE m 0 i * Phi1 m 0 i j k + RC0 * (dHz - Psi1) /\
  Phi2 m' 1 i j k = RE m 1 i * Phi2 m 1 i j k + RC1 * (dHy - Psi2) /\
  Phi2 m' 0 i j k = RE m 0 i * Phi2 m 0 i j k + RC0 * (dHy - Psi2).
Proof.
  intros Hi Hj Hk.
  assert (Hin : in_slab xs xf ys yf zs zf i j k) by (unfold in_slab; tauto).
  pose proof (kernel_cell_field Electric xminus order2 xs xf ys yf zs zf
                nthreads d m i j k cEy Hin) as HEy.
  pose proof (kernel_cell_field Electric xminus order2 xs xf ys yf zs zf
                nthreads d m i j k cEz Hin) as HEz.
  pose proof (kernel_cell_Phi Electric xminus order2 xs xf ys yf zs zf
                nthreads d m 0 i j k Hin ltac:(lia)) as [HP1 HP2].
  pose proof (kernel_cell_Phi Electric xminus order2 xs xf ys yf zs zf
                nthreads d m 1 i j k Hin ltac:(lia)) as [HQ1 HQ2].
  cbv zeta. repeat split; assumption.
Qed.

Lemma order2_xminus_electric_law_witness :
  Ey (MRIPML.order2_xminus (EV := Exact) 0 2 0 1 0 1 1 1 sample_mem) 2 0 0
  = 38 / 5.
Proof.
  etransitivity;
    [ exact (proj1 (order2_xminus_electric_law 0 2 0 1 0 1 1 1 sample_mem
                      0 0 0 ltac:(lia) ltac:(lia) ltac:(lia))) | ].
  cbn. lra.
Defined.

(** X3. Order-1 magnetic kernel of the yplus slab: at every slab cell the
    forward differences of [Ez] and [Ex] along y drive [Hx] (minus sign)
    and [Hz] (plus sign) with coefficient [updatecoeffsH[ID[3 or 5], 4]]
    and bracket [(RA[0,j] - 1) * dE + RB[0,j] * Phi], and [Phi1], [Phi2]
    become [RE[0,j] * Phi - RF[0,j] * dE]; the profiles are read at the
    local index [j] and all right-hand sides read the memory before the
    call. *)
Theorem order1_yplus_magnetic_law xs xf ys yf zs zf nthreads d m i j k :
  (0 <= i < xf - xs)%Z -> (0 <= j < yf - ys)%Z -> (0 <= k < zf - zs)%Z ->
  let m' := HORIPML.order1_yplus (EV := Exact) xs xf ys yf zs zf nthreads d m in
  let ii := (i + xs)%Z in
  let jj := (j + ys)%Z in
  let kk := (k + zs)%Z in
  let RA01 := RA m 0 j - 1 in
  let dEz := (Ez m ii (jj + 1) kk - Ez m ii jj kk) / d in
  let dEx := (Ex m ii (jj + 1) kk - Ex m ii jj kk) / d in
  let c_Hx := updatecoeffsH m (ID m 3 ii jj kk) 4 in
  let c_Hz := updatecoeffsH m (ID m 5 ii jj kk) 4 in
  Hx m' ii jj kk
  = Hx m ii jj kk - c_Hx * (RA01 * dEz + RB m 0 j * Phi1 m 0 i j k) /\
  Hz m' ii jj kk
  = Hz m ii jj kk + c_Hz * (RA01 * dEx + RB m 0 j * Phi2 m 0 i j k) /\
  Phi1 m' 0 i j k = RE m 0 j * Phi1 m 0 i j k - RF m 0 j * dEz /\
  Phi2 m' 0 i j k = RE m 0 j * Phi2 m 0 i j k - RF m 0 j * dEx.
Proof.
  intros Hi Hj Hk.
  assert (Hin : in_slab xs xf ys yf zs zf i j k) by (unfold in_slab; tauto).
  pose proof (kernel_cell_field Magnetic yplus order1 xs xf ys yf zs zf
                nthreads d m i j k cHx Hin) as HHx.
  pose proof (kernel_cell_field Magnetic yplus order1 xs xf ys yf zs zf
                nthreads d m i j k cHz Hin) as HHz.
  pose proof (kernel_cell_Phi Magnetic yplus order1 xs xf ys yf zs zf
                nthreads d m 0 i j k Hin ltac:(lia)) as [HP1 HP2].
  cbv zeta. repeat split; assumption.
Qed.

Lemma order1_yplus_magnetic_law_witness :
  Hx (HORIPML.order1_yplus (EV := Exact) 0 1 0 2 0 1 1 1 sample_mem) 0 1 0
  = -14.
Proof.
  etransitivity;
    [ exact (proj1 (order1_yplus_magnetic_law 0 1 0 2 0 1 1 1 sample_mem
                      0 1 0 ltac:(lia) ltac:(lia) ltac:(lia))) | ].
  cbn. lra.
Defined.

(** X4. Order-2 electric kernel of the zplus slab: the profiles are read
    at the local index [k], the backward differences of [Hy] and [Hx]
    along z drive [Ex] (minus sign) and [Ey] (plus sign) with bracket
    [IRA1 * dH - IRA * Psi], [IRA = 1 / (RA[0,k] + RA[1,k])], and row [r]
    of the auxiliary array becomes [RE[r,k] * Phi[r] + RC_r * (dH - Psi)];
    all right-hand sides read the memory before the call. *)
Theorem order2_zplus_electric_law xs xf ys yf zs zf nthreads d m i j k :
  (0 <= i < xf - xs)%Z -> (0 <= j < yf - ys)%Z -> (0 <= k < zf - zs)%Z ->
  let m' := MRIPML.order2_zplus (EV := Exact) xs xf ys yf zs zf nthreads d m in
  let ii := (i + xs)%Z in
  let jj := (j + ys)%Z in
  let kk := (k + zs)%Z in
  let IRA := 1 / (RA m 0 k + RA m 1 k) in
  let IRA1 := IRA - 1 in
  let RC0 := IRA * RF m 0 k in
  let RC1 := IRA * RF m 1 k in
  let Psi1 := RB m 0 k * Phi1 m 0 i j k + RB m 1 k * Phi1 m 1 i j k in
  let Psi2 := RB m 0 k * Phi2 m 0 i j k + RB m 1 k * Phi2 m 1 i j k in
  let dHy := (Hy m ii jj kk - Hy m ii jj (kk - 1)) / d in
  let dHx := (Hx m ii jj kk - Hx m ii jj (kk - 1)) / d in
  let c_Ex := updatecoeffsE m (ID m 0 ii jj kk) 4 in
  let c_Ey := updatecoeffsE m (ID m 1 ii jj kk) 4 in
  Ex m' ii jj kk = Ex m ii jj kk - c_Ex * (IRA1 * dHy - IRA * Psi1) /\
  Ey m' ii jj kk = Ey m ii jj kk + c_Ey * (IRA1 * dHx - IRA * Psi2) /\
  Phi1 m' 1 i j k = RE m 1 k * Phi1 m 1 i j k + RC1 * (dHy - Psi1) /\
  Phi1 m' 0 i j k = RE m 0 k * Phi1 m 0 i j k + RC0 * (dHy - Psi1) /\
  Phi2 m' 1 i j k = RE m 1 k * Phi2 m 1 i j k + RC1 * (dHx - Psi2) /\
  Phi2 m' 0 i j k = RE m 0 k * Phi2 m 0 i j k + RC0 * (dHx - Psi2).
Proof.
  intros Hi Hj Hk.
  assert (Hin : in_slab xs xf ys yf zs zf i j k) by (unfold in_slab; tauto).
  pose proof (kernel_cell_field Electric zplus order2 xs xf ys yf zs zf
                nthreads d m i j k cEx Hin) as HEx.
  pose proof (kernel_cell_field Electric zplus order2 xs xf ys yf zs zf
                nthreads d m i j k cEy Hin) as HEy.
  pose proof (kernel_cell_Phi Electric zplus order2 xs xf ys yf zs zf
                nthreads d m 0 i j k Hin ltac:(lia)) as [HP1 HP2].
  pose proof (kernel_cell_Phi Electric zplus order2 xs xf ys yf zs zf
                nthreads d m 1 i j k Hin ltac:(lia)) as [HQ1 HQ2].
  cbv zeta. repeat split; assumption.
Qed.

Lemma order2_zplus_electric_law_witness :
  Ex (MRIPML.order2_zplus (EV := Exact) 0 1 0 1 0 2 1 1 sample_mem) 0 0 1
  = 55 / 7.
Proof.
  etransitivity;
    [ exact (proj1 (order2_zplus_electric_law 0 1 0 1 0 2 1 1 sample_mem
                      0 0 1 ltac:(lia) ltac:(lia) ltac:(lia))) | ].
  cbn. lra.
Defined.

(** ** How the kernels relate to one another *)

(** X5. A minus-face kernel computes what the plus-face kernel of the same
    axis, kind and order computes on the mirrored profiles and auxiliary
    arrays: all field arrays come out the same, and the auxiliary arrays
    the same up to the mirroring.  For a magnetic kernel both calls take
    the same slab; for an electric kernel the plus-face call takes the slab
    moved up by one cell along the axis. *)
Theorem minus_face_mirrors_plus_face kd ax o xs xf ys yf zs zf nthreads d m :
  let f := minus_face ax in
  let len := depth f xs xf ys yf zs zf in
  let sx := normal_shift kd f axis_x in
  let sy := normal_shift kd f axis_y in
  let sz := normal_shift kd f axis_z in
  let m_minus := kernel (EV := Exact) kd f o xs xf ys yf zs zf nthreads d m in
  let m_plus :=
    kernel (EV := Exact) kd (plus_face ax) o
      (xs + sx) (xf + sx) (ys + sy) (yf + sy) (zs + sz) (zf + sz) nthreads d
      (mirror ax len m) in
  (forall cp x y z, field cp m_minus x y z = field cp m_plus x y z) /\
  (forall r i j k,
     Phi1 m_minus r i j k = Phi1 (mirror ax len m_plus) r i j k /\
     Phi2 m_minus r i j k = Phi2 (mirror ax len m_plus) r i j k).
Proof.
  intros f len sx sy sz m_minus m_plus.
  subst m_minus m_plus sx sy sz len f.
  set (f := minus_face ax).
  set (len := depth f xs xf ys yf zs zf).
  set (sx := normal_shift kd f axis_x).
  set (sy := normal_shift kd f axis_y).
  set (sz := normal_shift kd f axis_z).
  assert (Hslab : forall i j k,
            in_slab xs xf ys yf zs zf i j k ->
            in_slab (xs + sx) (xf + sx) (ys + sy) (yf + sy) (zs + sz) (zf + sz)
              match ax with axis_x => (len - 1 - i)%Z | _ => i end
              match ax with axis_y => (len - 1 - j)%Z | _ => j end
              match ax with axis_z => (len - 1 - k)%Z | _ => k end).
  { intros i j k. subst f len sx sy sz. unfold in_slab.
    destruct kd, ax;
      cbv beta iota delta [minus_face depth normal normal_shift]; lia. }
  assert (Hslab' : forall i j k,
            in_slab (xs + sx) (xf + sx) (ys + sy) (yf + sy) (zs + sz) (zf + sz)
              match ax with axis_x => (len - 1 - i)%Z | _ => i end
              match ax with axis_y => (len - 1 - j)%Z | _ => j end
              match ax with axis_z => (len - 1 - k)%Z | _ => k end ->
            in_slab xs xf ys yf zs zf i j k).
  { intros i j k. subst f len sx sy sz. unfold in_slab.
    destruct kd, ax;
      cbv beta iota delta [minus_face depth normal normal_shift]; lia. }
  split.
  - intros cp x y z.
    destruct (written_dec kd f xs xf ys yf zs zf x y z) as [Hw | Hw].
    + apply touched_written in Hw.
      destruct Hw as (i & j & k & Hin & -> & -> & ->).
      transitivity (next_field kd f o xs xf ys yf zs zf d i j k cp m);
        [now apply kernel_cell_field|].
      pose proof (kernel_cell_field kd (plus_face ax) o
                    (xs + sx) (xf + sx) (ys + sy) (yf + sy) (zs + sz) (zf + sz)
                    nthreads d (mirror ax len m) _ _ _ cp (Hslab i j k Hin))
        as Hplus.
      pose proof (next_field_mirror kd ax o xs xf ys yf zs zf d m i j k cp Hin)
        as Hm.
      cbv zeta in Hm. fold f len sx sy sz in Hm. rewrite Hm in Hplus.
      rewrite <- Hplus. f_equal; subst f len sx sy sz;
        destruct kd, ax;
        cbv beta iota delta [minus_face plus_face depth normal normal_shift
                             gx gy gz minus_index plus_index];
        lia.
    + rewrite !kernel_not_written.
      * destruct cp; reflexivity.
      * intros Hw'. apply Hw. subst f sx sy sz. revert Hw'. unfold written.
        destruct kd, ax;
          cbv beta iota delta [minus_face plus_face normal_shift]; lia.
      * exact Hw.
  - intros r i j k.
    match goal with
    | |- _ = Phi1 (mirror ax len ?M) _ _ _ _ /\ _ =>
        destruct (Phi_mirror ax len M r i j k) as [-> ->]
    end.
    destruct (phi_cell_dec xs xf ys yf zs zf r i j k) as [[Hin Hr] | Hout].
    + destruct (kernel_cell_Phi kd f o xs xf ys yf zs zf nthreads d
                  m r i j k Hin Hr) as [-> ->].
      destruct (kernel_cell_Phi kd (plus_face ax) o
                  (xs + sx) (xf + sx) (ys + sy) (yf + sy) (zs + sz) (zf + sz)
                  nthreads d (mirror ax len m) r _ _ _ (Hslab i j k Hin) Hr)
        as [-> ->].
      pose proof (next_Phi_mirror kd ax o xs xf ys yf zs zf d m r i j k)
        as Hm.
      cbv zeta in Hm. fold f len sx sy sz in Hm. destruct Hm as [H1 H2].
      split; symmetry; [exact H1 | exact H2].
    + destruct (kernel_Phi_unused kd f o xs xf ys yf zs zf nthreads d
                  m r i j k Hout) as [-> ->].
      destruct (kernel_Phi_unused kd (plus_face ax) o
                  (xs + sx) (xf + sx) (ys + sy) (yf + sy) (zs + sz) (zf + sz)
                  nthreads d (mirror ax len m) r
                  match ax with axis_x => (len - 1 - i)%Z | _ => i end
                  match ax with axis_y => (len - 1 - j)%Z | _ => j end
                  match ax with axis_z => (len - 1 - k)%Z | _ => k end)
        as [-> ->].
      * intros [Hin Hr]. apply Hout. split; [now apply Hslab' | exact Hr].
      * destruct ax; red_mirror; split; index_eq.
Qed.

(** X6. On a slab that is empty along some axis ([xf <= xs], [yf <= ys] or
    [zf <= zs]) a call that returns changes nothing at all: no field
    entry, no auxiliary entry, no table. *)
Theorem empty_slab_noop kd f o xs xf ys yf zs zf nthreads d m :
  (xf <= xs \/ yf <= ys \/ zf <= zs)%Z ->
  kernel (EV := Exact) kd f o xs xf ys yf zs zf nthreads d m = m.
Proof.
  intros He.
  destruct kd, f, o; unfold_exact;
    repeat (apply range_preserve with (obs := fun s : mem => s); intros ? ? ?);
    exfalso; lia.
Qed.

Lemma empty_slab_noop_witness :
  kernel (EV := Exact) Electric yminus order2 0 2 1 1 0 2 1 1 sample_mem
  = sample_mem.
Proof.
  apply (empty_slab_noop Electric yminus order2 0 2 1 1 0 2 1 1 sample_mem).
  right. left. discriminate.
Defined.

(** X7. Superposition: for fixed tables, [ID] and profiles a call is
    linear in the field and auxiliary arrays.  Run on [a * m1 + b * m2] it
    gives, entry by entry, [a] times what it gives on [m1] plus [b] times
    what it gives on [m2]. *)
Theorem kernel_superposition kd f o xs xf ys yf zs zf nthreads d a b m1 m2 :
  same_coefficients m1 m2 ->
  let K := kernel (EV := Exact) kd f o xs xf ys yf zs zf nthreads d in
  (forall cp x y z,
     field cp (K (combine a b m1 m2)) x y z
     = a * field cp (K m1) x y z + b * field cp (K m2) x y z) /\
  (forall r i j k,
     Phi1 (K (combine a b m1 m2)) r i j k
     = a * Phi1 (K m1) r i j k + b * Phi1 (K m2) r i j k /\
     Phi2 (K (combine a b m1 m2)) r i j k
     = a * Phi2 (K m1) r i j k + b * Phi2 (K m2) r i j k).
Proof.
  intros Hsame K. subst K. split.
  - intros cp x y z.
    destruct (written_dec kd f xs xf ys yf zs zf x y z) as [Hw | Hw].
    + apply touched_written in Hw.
      destruct Hw as (i & j & k & Hin & -> & -> & ->).
      rewrite !kernel_cell_field by assumption.
      now apply next_field_combine.
    + rewrite !kernel_not_written by assumption.
      destruct cp; reflexivity.
  - intros r i j k.
    destruct (phi_cell_dec xs xf ys yf zs zf r i j k) as [[Hin Hr] | Hout].
    + destruct (kernel_cell_Phi kd f o xs xf ys yf zs zf nthreads d
                  (combine a b m1 m2) r i j k Hin Hr) as [-> ->].
      destruct (kernel_cell_Phi kd f o xs xf ys yf zs zf nthreads d
                  m1 r i j k Hin Hr) as [-> ->].
      destruct (kernel_cell_Phi kd f o xs xf ys yf zs zf nthreads d
                  m2 r i j k Hin Hr) as [-> ->].
      now apply next_Phi_combine.
    + destruct (kernel_Phi_unused kd f o xs xf ys yf zs zf nthreads d
                  (combine a b m1 m2) r i j k Hout) as [-> ->].
      destruct (kernel_Phi_unused kd f o xs xf ys yf zs zf nthreads d
                  m1 r i j k Hout) as [-> ->].
      destruct (kernel_Phi_unused kd f o xs xf ys yf zs zf nthreads d
                  m2 r i j k Hout) as [-> ->].
      split; reflexivity.
Qed.

Lemma kernel_superposition_witness :
  field cHy
    (kernel (EV := Exact) Magnetic xminus order1 0 2 0 1 0 1 1 1
       (combine 2 3 sample_mem (set_Ez sample_mem 1 0 0 5))) 1 0 0
  = 2 * field cHy
          (kernel (EV := Exact) Magnetic xminus order1 0 2 0 1 0 1 1 1
             sample_mem) 1 0 0
    + 3 * field cHy
            (kernel (EV := Exact) Magnetic xminus order1 0 2 0 1 0 1 1 1
               (set_Ez sample_mem 1 0 0 5)) 1 0 0.
Proof.
  assert (Hsame : same_coefficients sample_mem (set_Ez sample_mem 1 0 0 5))
    by (repeat split).
  pose proof (kernel_superposition Magnetic xminus order1 0 2 0 1 0 1 1 1
                2 3 sample_mem (set_Ez sample_mem 1 0 0 5) Hsame) as H.
  cbv zeta in H. exact (proj1 H cHy 1%Z 0%Z 0%Z).
Defined.

(** X8. The source components matter in the read region only.  Two
    memories with the same tables, [ID], profiles, target components and
    auxiliary arrays, whose source components agree on the cells the call
    writes and on their neighbours along the normal axis (the next cell
    for a magnetic kernel, the previous one for an electric kernel), give
    the same target components. *)
Theorem kernel_read_footprint kd f o xs xf ys yf zs zf nthreads d m1 m2 :
  same_coefficients m1 m2 ->
  (forall r i j k, Phi1 m1 r i j k = Phi1 m2 r i j k /\
                   Phi2 m1 r i j k = Phi2 m2 r i j k) ->
  (forall x y z,
     field (target1 kd f) m1 x y z = field (target1 kd f) m2 x y z /\
     field (target2 kd f) m1 x y z = field (target2 kd f) m2 x y z) ->
  (forall x y z, read kd f xs xf ys yf zs zf x y z ->
     field (source1 kd f) m1 x y z = field (source1 kd f) m2 x y z /\
     field (source2 kd f) m1 x y z = field (source2 kd f) m2 x y z) ->
  let K := kernel (EV := Exact) kd f o xs xf ys yf zs zf nthreads d in
  forall x y z,
    field (target1 kd f) (K m1) x y z = field (target1 kd f) (K m2) x y z /\
    field (target2 kd f) (K m1) x y z = field (target2 kd f) (K m2) x y z.
Proof.
  intros (HcE & HcH & HID & HRA & HRB & HRE & HRF) HPhi Htgt Hsrc K. subst K.
  assert (Hc : updatecoeffs kd m1 = updatecoeffs kd m2)
    by (destruct kd; assumption).
  assert (Hlaw : forall cp, cp = target1 kd f \/ cp = target2 kd f ->
            forall i j k, in_slab xs xf ys yf zs zf i j k ->
              next_field kd f o xs xf ys yf zs zf d i j k cp m1
              = next_field kd f o xs xf ys yf zs zf d i j k cp m2).
  { intros cp Hcp i j k Hin. unfold next_field, law_field. cbv zeta.
    rewrite (curl_diff_read kd f xs xf ys yf zs zf d i j k
               (field (source1 kd f) m1) (field (source1 kd f) m2) Hin)
      by (intros x y z Hx; apply Hsrc, Hx).
    rewrite (curl_diff_read kd f xs xf ys yf zs zf d i j k
               (field (source2 kd f) m1) (field (source2 kd f) m2) Hin)
      by (intros x y z Hx; apply Hsrc, Hx).
    rewrite Hc, HID.
    rewrite !(proj1 (HPhi _ _ _ _)), !(proj2 (HPhi _ _ _ _)).
    rewrite !(correction_ext kd o m1 m2) by assumption.
    destruct Hcp as [-> | ->];
      rewrite ?(proj1 (Htgt _ _ _)), ?(proj2 (Htgt _ _ _)); reflexivity. }
  intros x y z. split; apply kernel_field_rel.
  - apply Hlaw. now left.
  - intros; apply Htgt.
  - apply Hlaw. now right.
  - intros; apply Htgt.
Qed.

Lemma kernel_read_footprint_witness :
  field cHy
    (kernel (EV := Exact) Magnetic xminus order1 0 2 0 1 0 1 1 1 sample_mem)
    1 0 0
  = field cHy
      (kernel (EV := Exact) Magnetic xminus order1 0 2 0 1 0 1 1 1
         (set_Ez sample_mem 9 9 9 0)) 1 0 0.
Proof.
  assert (Hsame : same_coefficients sample_mem (set_Ez sample_mem 9 9 9 0))
    by (repeat split).
  assert (Hsrc : forall x y z, read Magnetic xminus 0 2 0 1 0 1 x y z ->
            field (source1 Magnetic xminus) sample_mem x y z
            = field (source1 Magnetic xminus) (set_Ez sample_mem 9 9 9 0) x y z
            /\
            field (source2 Magnetic xminus) sample_mem x y z
            = field (source2 Magnetic xminus) (set_Ez sample_mem 9 9 9 0)
                x y z).
  { intros x y z Hr. split; [|reflexivity].
    cbv beta iota delta [source1 normal field set_Ez Ez upd3].
    destruct (Z.eqb_spec x 9) as [-> | _]; [|reflexivity].
    exfalso. cbv beta iota delta [read written normal normal_shift] in Hr.
    lia. }
  pose proof (kernel_read_footprint Magnetic xminus order1 0 2 0 1 0 1 1 1
                sample_mem (set_Ez sample_mem 9 9 9 0) Hsame
                (fun _ _ _ _ => conj eq_refl eq_refl)
                (fun _ _ _ => conj eq_refl eq_refl) Hsrc) as H.
  cbv zeta in H. exact (proj1 (H 1%Z 0%Z 0%Z)).
Defined.

(** X9. The auxiliary arrays after a call depend on the profiles, the
    auxiliary arrays and the source components in the read region, and on
    nothing else: two memories that agree on those give the same
    auxiliary arrays, whatever their tables, [ID] and target components
    are. *)
Theorem auxiliary_update_ignores_materials
    kd f o xs xf ys yf zs zf nthreads d m1 m2 :
  RA m1 = RA m2 -> RB m1 = RB m2 -> RE m1 = RE m2 -> RF m1 = RF m2 ->
  (forall r i j k, Phi1 m1 r i j k = Phi1 m2 r i j k /\
                   Phi2 m1 r i j k = Phi2 m2 r i j k) ->
  (forall x y z, read kd f xs xf ys yf zs zf x y z ->
     field (source1 kd f) m1 x y z = field (source1 kd f) m2 x y z /\
     field (source2 kd f) m1 x y z = field (source2 kd f) m2 x y z) ->
  let K := kernel (EV := Exact) kd f o xs xf ys yf zs zf nthreads d in
  forall r i j k, Phi1 (K m1) r i j k = Phi1 (K m2) r i j k /\
                  Phi2 (K m1) r i j k = Phi2 (K m2) r i j k.
Proof.
  intros HRA HRB HRE HRF HPhi Hsrc K r i j k. subst K.
  destruct (phi_cell_dec xs xf ys yf zs zf r i j k) as [[Hin Hr] | Hout].
  - destruct (kernel_cell_Phi kd f o xs xf ys yf zs zf nthreads d
                m1 r i j k Hin Hr) as [-> ->].
    destruct (kernel_cell_Phi kd f o xs xf ys yf zs zf nthreads d
                m2 r i j k Hin Hr) as [-> ->].
    unfold next_Phi1, next_Phi2, law_Phi1, law_Phi2. cbv zeta.
    rewrite (curl_diff_read kd f xs xf ys yf zs zf d i j k
               (field (source1 kd f) m1) (field (source1 kd f) m2) Hin)
      by (intros x y z Hx; apply Hsrc, Hx).
    rewrite (curl_diff_read kd f xs xf ys yf zs zf d i j k
               (field (source2 kd f) m1) (field (source2 kd f) m2) Hin)
      by (intros x y z Hx; apply Hsrc, Hx).
    rewrite !(proj1 (HPhi _ _ _ _)), !(proj2 (HPhi _ _ _ _)).
    rewrite !(next_phi0_ext kd o m1 m2), !(next_phi1_ext kd o m1 m2)
      by assumption.
    split; reflexivity.
  - destruct (kernel_Phi_unused kd f o xs xf ys yf zs zf nthreads d
                m1 r i j k Hout) as [-> ->].
    destruct (kernel_Phi_unused kd f o xs xf ys yf zs zf nthreads d
                m2 r i j k Hout) as [-> ->].
    apply HPhi.
Qed.

Lemma auxiliary_update_ignores_materials_witness :
  Phi1 (kernel (EV := Exact) Magnetic xminus order1 0 2 0 1 0 1 1 1
          sample_mem) 0 1 0 0
  = Phi1 (kernel (EV := Exact) Magnetic xminus order1 0 2 0 1 0 1 1 1
            (set_Hy sample_mem 0 0 0 7)) 0 1 0 0.
Proof.
  pose proof (auxiliary_update_ignores_materials
                Magnetic xminus order1 0 2 0 1 0 1 1 1
                sample_mem (set_Hy sample_mem 0 0 0 7)
                eq_refl eq_refl eq_refl eq_refl
                (fun _ _ _ _ => conj eq_refl eq_refl)
                (fun _ _ _ _ => conj eq_refl eq_refl)) as H.
  cbv zeta in H. exact (proj1 (H 0%Z 1%Z 0%Z 0%Z)).
Defined.

(** X10. An order-1 kernel reads row 0 of the profiles and of the
    auxiliary arrays and nothing of their other rows: two memories that
    differ in those rows only give the same fields and the same row 0 of
    the auxiliary arrays, and the other rows are left as they were. *)
Theorem order1_ignores_second_row kd f xs xf ys yf zs zf nthreads d m1 m2 :
  updatecoeffsE m1 = updatecoeffsE m2 -> updatecoeffsH m1 = updatecoeffsH m2 ->
  ID m1 = ID m2 ->
  (forall cp, field cp m1 = field cp m2) ->
  (forall n, RA m1 0 n = RA m2 0 n /\ RB m1 0 n = RB m2 0 n /\
             RE m1 0 n = RE m2 0 n /\ RF m1 0 n = RF m2 0 n) ->
  (forall i j k, Phi1 m1 0 i j k = Phi1 m2 0 i j k /\
                 Phi2 m1 0 i j k = Phi2 m2 0 i j k) ->
  let K := kernel (EV := Exact) kd f order1 xs xf ys yf zs zf nthreads d in
  (forall cp x y z, field cp (K m1) x y z = field cp (K m2) x y z) /\
  (forall i j k, Phi1 (K m1) 0 i j k = Phi1 (K m2) 0 i j k /\
                 Phi2 (K m1) 0 i j k = Phi2 (K m2) 0 i j k) /\
  (forall r i j k, r <> 0%Z ->
     Phi1 (K m1) r i j k = Phi1 m1 r i j k /\
     Phi2 (K m1) r i j k = Phi2 m1 r i j k).
Proof.
  intros HcE HcH HID Hf Hrow HPhi K. subst K.
  assert (Hc : updatecoeffs kd m1 = updatecoeffs kd m2)
    by (destruct kd; assumption).
  assert (Hcorr : forall n dF P0 P1,
            correction kd order1 m1 n dF P0 P1
            = correction kd order1 m2 n dF P0 P1).
  { intros n dF P0 P1. destruct (Hrow n) as (HA & HB & _).
    destruct kd; cbn [correction]; now rewrite ?HA, ?HB. }
  assert (Hnext : forall n dF P0 P1,
            next_phi0 kd order1 m1 n dF P0 P1
            = next_phi0 kd order1 m2 n dF P0 P1).
  { intros n dF P0 P1. destruct (Hrow n) as (HA & HB & HE & HF).
    destruct kd; cbn [next_phi0]; now rewrite ?HA, ?HB, ?HE, ?HF. }
  split; [|split].
  - intros cp. apply kernel_field_rel.
    + intros i j k _. unfold next_field, law_field. cbv zeta.
      rewrite !Hf, Hc, HID, !Hcorr.
      now rewrite (proj1 (HPhi _ _ _)), (proj2 (HPhi _ _ _)).
    + intros x y z _. now rewrite Hf.
  - intros i j k.
    destruct (in_slab_dec xs xf ys yf zs zf i j k) as [Hin | Hout].
    + destruct (kernel_cell_Phi kd f order1 xs xf ys yf zs zf nthreads d
                  m1 0 i j k Hin ltac:(lia)) as [-> ->].
      destruct (kernel_cell_Phi kd f order1 xs xf ys yf zs zf nthreads d
                  m2 0 i j k Hin ltac:(lia)) as [-> ->].
      unfold next_Phi1, next_Phi2, law_Phi1, law_Phi2. cbv zeta.
      cbn [Z.eqb]. rewrite !Hf, !Hnext.
      now rewrite (proj1 (HPhi _ _ _)), (proj2 (HPhi _ _ _)).
    + destruct (kernel_Phi_unused kd f order1 xs xf ys yf zs zf nthreads d
                  m1 0 i j k ltac:(tauto)) as [-> ->].
      destruct (kernel_Phi_unused kd f order1 xs xf ys yf zs zf nthreads d
                  m2 0 i j k ltac:(tauto)) as [-> ->].
      apply HPhi.
  - intros r i j k Hr. apply kernel_Phi_outside. cbn [rows]. lia.
Qed.

Lemma order1_ignores_second_row_witness :
  field cEy
    (kernel (EV := Exact) Electric xplus order1 0 2 0 1 0 1 1 1 sample_mem)
    1 0 0
  = field cEy
      (kernel (EV := Exact) Electric xplus order1 0 2 0 1 0 1 1 1
         (set_Phi1 sample_mem 1 0 0 0 9)) 1 0 0.
Proof.
  pose proof (order1_ignores_second_row Electric xplus 0 2 0 1 0 1 1 1
                sample_mem (set_Phi1 sample_mem 1 0 0 0 9)
                eq_refl eq_refl eq_refl
                (fun cp => match cp with
                           | cEx | cEy | cEz | cHx | cHy | cHz => eq_refl
                           end)
                (fun _ => conj eq_refl (conj eq_refl (conj eq_refl eq_refl)))
                (fun _ _ _ => conj eq_refl eq_refl)) as H.
  cbv zeta in H. exact (proj1 H cEy 1%Z 0%Z 0%Z).
Defined.

(** X11. The order-2 magnetic kernel with [RA[1] = 1] and [RB[1] = 0] on
    the depth of the slab updates every field and row 0 of the auxiliary
    arrays as the order-1 magnetic kernel of the same face does, whatever
    [RE[1]], [RF[1]] and row 1 of the auxiliary arrays hold. *)
Theorem order2_magnetic_reduction f xs xf ys yf zs zf nthreads d m :
  (forall n, (0 <= n < depth f xs xf ys yf zs zf)%Z ->
     RA m 1 n = 1 /\ RB m 1 n = 0) ->
  let m2 := kernel (EV := Exact) Magnetic f order2
              xs xf ys yf zs zf nthreads d m in
  let m1 := kernel (EV := Exact) Magnetic f order1
              xs xf ys yf zs zf nthreads d m in
  (forall cp x y z, field cp m2 x y z = field cp m1 x y z) /\
  (forall i j k, Phi1 m2 0 i j k = Phi1 m1 0 i j k /\
                 Phi2 m2 0 i j k = Phi2 m1 0 i j k).
Proof.
  intros Hrow m2 m1. subst m2 m1. split.
  - intros cp. apply kernel_field_rel.
    + intros i j k Hin.
      destruct (Hrow _ (profile_index_depth f xs xf ys yf zs zf i j k Hin))
        as [HA HB].
      destruct f, cp; cbv beta iota delta [profile_index normal] in HA, HB;
        red_law; rewrite ?HA, ?HB; unfold Rdiv; ring.
    + reflexivity.
  - intros i j k.
    destruct (in_slab_dec xs xf ys yf zs zf i j k) as [Hin | Hout].
    + destruct (kernel_cell_Phi Magnetic f order1 xs xf ys yf zs zf nthreads d
                  m 0 i j k Hin ltac:(lia)) as [-> ->].
      destruct (kernel_cell_Phi Magnetic f order2 xs xf ys yf zs zf nthreads d
                  m 0 i j k Hin ltac:(lia)) as [-> ->].
      split; reflexivity.
    + destruct (kernel_Phi_unused Magnetic f order1 xs xf ys yf zs zf nthreads d
                  m 0 i j k ltac:(tauto)) as [-> ->].
      destruct (kernel_Phi_unused Magnetic f order2 xs xf ys yf zs zf nthreads d
                  m 0 i j k ltac:(tauto)) as [-> ->].
      split; reflexivity.
Qed.

Lemma order2_magnetic_reduction_witness :
  field cHx
    (kernel (EV := Exact) Magnetic yminus order2 0 1 0 2 0 1 1 1
       (one_pole_mem 1)) 0 1 0
  = field cHx
      (kernel (EV := Exact) Magnetic yminus order1 0 1 0 2 0 1 1 1
         (one_pole_mem 1)) 0 1 0.
Proof.
  pose proof (order2_magnetic_reduction yminus 0 1 0 2 0 1 1 1
                (one_pole_mem 1) (fun _ _ => conj eq_refl eq_refl)) as H.
  cbv zeta in H. exact (proj1 H cHx 0%Z 1%Z 0%Z).
Defined.

(** X12. The order-2 electric kernel with [RA[1] = 0] and [RB[1] = 0] on
    the depth of the slab is the order-1 electric kernel of the same face
    on auxiliary arrays scaled by [RB[0]]: started from auxiliary arrays
    [Phi] at order 2 and [RB[0,n] * Phi] at order 1, the two calls give the
    same fields, and row 0 of the auxiliary arrays of the order-1 call is
    again [RB[0,n]] times that of the order-2 call. *)
Theorem order2_electric_reduction f xs xf ys yf zs zf nthreads d m :
  (forall n, (0 <= n < depth f xs xf ys yf zs zf)%Z ->
     RA m 1 n = 0 /\ RB m 1 n = 0) ->
  let m2 := kernel (EV := Exact) Electric f order2
              xs xf ys yf zs zf nthreads d m in
  let m1 := kernel (EV := Exact) Electric f order1
              xs xf ys yf zs zf nthreads d (absorb_RB f m) in
  (forall cp x y z, field cp m2 x y z = field cp m1 x y z) /\
  (forall i j k,
     Phi1 m1 0 i j k = RB m 0 (profile_index f i j k) * Phi1 m2 0 i j k /\
     Phi2 m1 0 i j k = RB m 0 (profile_index f i j k) * Phi2 m2 0 i j k).
Proof.
  intros Hrow m2 m1. subst m2 m1. split.
  - intros cp. apply kernel_field_rel.
    + intros i j k Hin.
      destruct (Hrow _ (profile_index_depth f xs xf ys yf zs zf i j k Hin))
        as [HA HB].
      destruct f, cp; cbv beta iota delta [profile_index normal] in HA, HB;
        red_law; red_absorb; rewrite ?HA, ?HB, ?Rplus_0_r;
        unfold Rdiv; ring.
    + intros x y z _. destruct cp; reflexivity.
  - intros i j k.
    destruct (in_slab_dec xs xf ys yf zs zf i j k) as [Hin | Hout].
    + destruct (kernel_cell_Phi Electric f order1 xs xf ys yf zs zf nthreads d
                  (absorb_RB f m) 0 i j k Hin ltac:(lia)) as [-> ->].
      destruct (kernel_cell_Phi Electric f order2 xs xf ys yf zs zf nthreads d
                  m 0 i j k Hin ltac:(lia)) as [-> ->].
      destruct (Hrow _ (profile_index_depth f xs xf ys yf zs zf i j k Hin))
        as [HA HB].
      destruct f; cbv beta iota delta [profile_index normal] in HA, HB |- *;
        red_law; red_absorb; rewrite ?HA, ?HB, ?Rplus_0_r;
        split; unfold Rdiv; ring.
    + destruct (kernel_Phi_unused Electric f order1 xs xf ys yf zs zf nthreads d
                  (absorb_RB f m) 0 i j k ltac:(tauto)) as [-> ->].
      destruct (kernel_Phi_unused Electric f order2 xs xf ys yf zs zf nthreads d
                  m 0 i j k ltac:(tauto)) as [-> ->].
      split; reflexivity.
Qed.

Lemma order2_electric_reduction_witness :
  field cEz
    (kernel (EV := Exact) Electric xplus order2 0 2 0 1 0 1 1 1
       (one_pole_mem 0)) 1 0 0
  = field cEz
      (kernel (EV := Exact) Electric xplus order1 0 2 0 1 0 1 1 1
         (absorb_RB xplus (one_pole_mem 0))) 1 0 0.
Proof.
  pose proof (order2_electric_reduction xplus 0 2 0 1 0 1 1 1
                (one_pole_mem 0) (fun _ _ => conj eq_refl eq_refl)) as H.
  cbv zeta in H. exact (proj1 H cEz 1%Z 0%Z 0%Z).
Defined.

(** X13. With a profile that does not stretch ([RA] one, or product one,
    or sum one, as the formulation and order have it, and [RB] zero) a
    call leaves every field as it was: a magnetic kernel and the order-2
    electric kernel whatever the auxiliary arrays hold, the order-1
    electric kernel if row 0 of its auxiliary arrays is zero on the slab,
    and then that row stays zero. *)
Theorem identity_profile_transparent kd f o xs xf ys yf zs zf nthreads d m :
  (forall n, (0 <= n < depth f xs xf ys yf zs zf)%Z ->
     identity_profile kd o m n) ->
  (kd = Electric -> o = order1 ->
   forall i j k, in_slab xs xf ys yf zs zf i j k ->
     Phi1 m 0 i j k = 0 /\ Phi2 m 0 i j k = 0) ->
  let m' := kernel (EV := Exact) kd f o xs xf ys yf zs zf nthreads d m in
  (forall cp x y z, field cp m' x y z = field cp m x y z) /\
  (kd = Electric -> o = order1 ->
   forall i j k, in_slab xs xf ys yf zs zf i j k ->
     Phi1 m' 0 i j k = 0 /\ Phi2 m' 0 i j k = 0).
Proof.
  intros Hid Hzero m'. subst m'. split.
  - intros cp x y z.
    destruct (written_dec kd f xs xf ys yf zs zf x y z) as [Hw | Hw];
      [| now apply kernel_not_written].
    apply touched_written in Hw.
    destruct Hw as (i & j & k & Hin & -> & -> & ->).
    rewrite kernel_cell_field by assumption.
    pose proof (Hid _ (profile_index_depth f xs xf ys yf zs zf i j k Hin))
      as Hn.
    destruct kd, o;
      try (destruct (Hzero eq_refl eq_refl i j k Hin) as [HP1 HP2]);
      clear Hzero;
      cbv beta iota delta [identity_profile] in Hn;
      [ destruct Hn as [HA HB] | destruct Hn as (HA & HB & HB')
      | destruct Hn as [HA HB] | destruct Hn as (HA & HB & HB') ];
      destruct f, cp; cbv beta iota delta [profile_index normal] in HA, HB;
      try (cbv beta iota delta [profile_index normal] in HB');
      red_law; rewrite ?HP1, ?HP2, ?HB, ?HB';
      try (replace (RA m 0 i * RA m 1 i - 1) with 0 by lra);
      try (replace (RA m 0 j * RA m 1 j - 1) with 0 by lra);
      try (replace (RA m 0 k * RA m 1 k - 1) with 0 by lra);
      rewrite ?HA; unfold Rdiv; rewrite ?Rinv_1; ring.
  - intros -> -> i j k Hin.
    destruct (Hzero eq_refl eq_refl i j k Hin) as [HP1 HP2].
    destruct (kernel_cell_Phi Electric f order1 xs xf ys yf zs zf nthreads d
                m 0 i j k Hin ltac:(lia)) as [-> ->].
    pose proof (Hid _ (profile_index_depth f xs xf ys yf zs zf i j k Hin))
      as [HA HB].
    destruct f; cbv beta iota delta [profile_index normal] in HA, HB;
      red_law; rewrite HP1, HP2, HB; split; unfold Rdiv; ring.
Qed.

Lemma identity_profile_transparent_witness :
  field cEy
    (kernel (EV := Exact) Electric xminus order1 0 2 0 1 0 1 1 1
       reduction_mem) 1 0 0
  = field cEy reduction_mem 1 0 0.
Proof.
  pose proof (identity_profile_transparent Electric xminus order1
                0 2 0 1 0 1 1 1 reduction_mem
                (fun _ _ => conj eq_refl eq_refl)
                (fun _ _ _ _ _ _ => conj eq_refl eq_refl)) as H.
  cbv zeta in H. exact (proj1 H cEy 1%Z 0%Z 0%Z).
Defined.

(** ** When a call raises *)

(** X14. A call raises [ZeroDivisionError] in exactly two cases: the step
    [d] is zero and the slab is non-empty along every axis; or the kernel
    is electric, the divisor [RA[0,n]] (order 1) or [RA[0,n] + RA[1,n]]
    (order 2) is zero for some [n] in the depth of the slab, and the loops
    around that division run at least once (none for an x face, the loop
    over x for a y face, the loops over x and y for a z face).  A call that
    does not raise returns what the exact call computes. *)
Theorem kernel_raises_iff kd f o xs xf ys yf zs zf nthreads d m :
  let call := kernel (EV := Checked) kd f o xs xf ys yf zs zf nthreads d m in
  (call = None <->
   (d = 0 /\ nonempty xs xf ys yf zs zf) \/
   (kd = Electric /\ outer_loops_run f xs xf ys yf /\
    exists n, (0 <= n < depth f xs xf ys yf zs zf)%Z /\ divisor o m n = 0)) /\
  (call <> None ->
   call = Some (kernel (EV := Exact) kd f o xs xf ys yf zs zf nthreads d m)).
Proof.
  intros call. subst call. split; [split|].
  - intros HNone.
    destruct (Req_dec_T d 0) as [Hd | Hd];
      destruct (nonempty_dec xs xf ys yf zs zf) as [Hne | He];
      try (left; split; assumption);
      (destruct kd;
       [ rewrite kernel_checked_some in HNone by (tauto || discriminate);
         discriminate
       | destruct (outer_loops_run_dec f xs xf ys yf) as [Hrun | Hrun];
         [ destruct (divisor_zero_dec o m (depth f xs xf ys yf zs zf))
             as [Hall | Hex];
           [ rewrite kernel_checked_some in HNone by tauto; discriminate
           | right; repeat split; assumption ]
         | rewrite kernel_checked_some in HNone by tauto; discriminate ] ]).
  - intros [[-> Hne] | (-> & Hrun & n & Hn & H0)].
    + now apply kernel_checked_zero_step.
    + now apply kernel_checked_zero_divisor with (n0 := n).
  - intros Hsome.
    destruct (kernel (EV := Checked) kd f o xs xf ys yf zs zf nthreads d m)
      as [m' |] eqn:E; [|contradiction].
    apply kernel_checked_agree in E. rewrite E. reflexivity.
Qed.

(** ** The fractal generators *)

(** X15. [generate_fractal2D] writes the cells [(i, j)] with
    [0 <= i < nx] and [0 <= j < ny] and no other: every other entry of
    [fractalsurface] is left as it was, all of them if [nx <= 0] or
    [ny <= 0]. *)
Theorem generate_fractal2D_frame
    nx ny ox oy gx gy nthreads D weighting v1 A S i j :
  ~ ((0 <= i < nx)%Z /\ (0 <= j < ny)%Z) ->
  Fractals.generate_fractal2D nx ny ox oy gx gy nthreads D weighting v1 A S i j
  = S i j.
Proof.
  intros Hout.
  unfold Fractals.generate_fractal2D, prange. cbv zeta.
  apply range_preserve
    with (obs := fun s : Z -> Z -> Fractals.complex => s i j).
  intros t s Ht.
  apply range_preserve
    with (obs := fun s : Z -> Z -> Fractals.complex => s i j).
  intros t' s' Ht'. unfold Fractals.upd_surface.
  destruct (Z.eqb_spec i t), (Z.eqb_spec j t'); simpl; try reflexivity.
  exfalso. apply Hout. subst. split; assumption.
Qed.

Lemma generate_fractal2D_frame_witness :
  Fractals.generate_fractal2D 4 0 0 0 4 4 1 2.5 run_weighting run_centre run_A
    (fun _ _ => (7, 0)) 1 0
  = (7, 0).
Proof.
  apply (generate_fractal2D_frame 4 0 0 0 4 4 1 2.5 run_weighting run_centre
           run_A (fun _ _ => (7, 0)) 1 0).
  lia.
Defined.

(** X16. The power law of [generate_fractal2D], for a dimension [D > 0]:
    with [dx], [dy] the weighted, shifted and wrapped position of the cell
    relative to the centre [v1], the cell receives [A[i,j] / 0.9] if
    [dx = dy = 0] and [A[i,j] / (dx^2 + dy^2)^(D/2)] otherwise. *)
Theorem generate_fractal2D_power_law
    nx ny ox oy gx gy nthreads D weighting v1 A S i j :
  0 < D -> (0 <= i < nx)%Z -> (0 <= j < ny)%Z ->
  let dx := fractal_dx ox gx weighting v1 i in
  let dy := fractal_dy oy gy weighting v1 j in
  let out :=
    Fractals.generate_fractal2D nx ny ox oy gx gy nthreads D weighting v1 A S
      i j in
  (dx = 0 /\ dy = 0 -> out = Fractals.Cdiv_real (A i j) 0.9) /\
  (~ (dx = 0 /\ dy = 0) ->
   out = Fractals.Cdiv_real (A i j) (Rpower (dx ^ 2 + dy ^ 2) (D / 2))).
Proof.
  intros HD Hi Hj dx dy out. subst out.
  rewrite generate_fractal2D_cell, fractal_divisor_at by assumption.
  fold dx dy. split.
  - intros [-> ->]. replace (0 ^ 2 + 0 ^ 2) with 0 by ring.
    now rewrite divisor_at_zero.
  - intros Hne. rewrite divisor_at_pos; [reflexivity|].
    now apply sum_squares2_pos.
Qed.

Lemma generate_fractal2D_power_law_witness :
  Fractals.generate_fractal2D 4 4 0 0 4 4 1 2.5 run_weighting run_centre run_A
    (fun _ _ => (0, 0)) 0 0
  = Fractals.Cdiv_real (run_A 0 0) 0.9.
Proof.
  assert (HD : 0 < 2.5) by lra.
  assert (Hi : (0 <= 0 < 4)%Z) by lia.
  pose proof (generate_fractal2D_power_law 4 4 0 0 4 4 1 2.5
                run_weighting run_centre run_A (fun _ _ => (0, 0)) 0 0
                HD Hi Hi) as H.
  cbv zeta in H. apply (proj1 H).
  unfold fractal_dx, fractal_dy, run_weighting, run_centre.
  change ((0 + 0 + 4 / 2) mod 4)%Z with 2%Z. split; lra.
Defined.

(** X17. With dimension [D = 0] the divisor is one and
    [generate_fractal2D] copies [A] into the cells it writes. *)
Theorem generate_fractal2D_dimension_zero
    nx ny ox oy gx gy nthreads weighting v1 A S i j :
  (0 <= i < nx)%Z -> (0 <= j < ny)%Z ->
  Fractals.generate_fractal2D nx ny ox oy gx gy nthreads 0 weighting v1 A S i j
  = A i j.
Proof.
  intros Hi Hj.
  rewrite generate_fractal2D_cell, fractal_divisor_at by assumption.
  rewrite divisor_at_dimension_zero.
  unfold Fractals.Cdiv, Fractals.Cdiv_real. destruct (A i j) as [re im].
  simpl fst. simpl snd. f_equal; lra.
Qed.

Lemma generate_fractal2D_dimension_zero_witness :
  Fractals.generate_fractal2D 4 4 0 0 4 4 1 0 run_weighting run_centre run_A
    (fun _ _ => (0, 0)) 1 3
  = run_A 1 3.
Proof.
  apply (generate_fractal2D_dimension_zero 4 4 0 0 4 4 1
           run_weighting run_centre run_A (fun _ _ => (0, 0)) 1 3); lia.
Defined.

(** X18. [generate_fractal2D] is periodic in its offsets: adding a
    multiple of [gx] to [ox] and a multiple of [gy] to [oy] changes no
    entry of the result. *)
Theorem generate_fractal2D_offset_periodic
    nx ny ox oy gx gy nthreads D weighting v1 A S p q i j :
  0 <= D ->
  Fractals.generate_fractal2D nx ny (ox + p * gx) (oy + q * gy) gx gy nthreads
    D weighting v1 A S i j
  = Fractals.generate_fractal2D nx ny ox oy gx gy nthreads
      D weighting v1 A S i j.
Proof.
  intros _.
  destruct (Z_le_dec 0 i); [destruct (Z_lt_dec i nx);
    [destruct (Z_le_dec 0 j); [destruct (Z_lt_dec j ny)|]|]|];
    try (rewrite !generate_fractal2D_outside by lia; reflexivity).
  rewrite !generate_fractal2D_cell by lia.
  unfold fractal_divisor, fractal_radius.
  replace ((i + (ox + p * gx) + gx / 2) mod gx)%Z
    with ((i + ox + gx / 2) mod gx)%Z.
  - replace ((j + (oy + q * gy) + gy / 2) mod gy)%Z
      with ((j + oy + gy / 2) mod gy)%Z; [reflexivity|].
    rewrite <- (Z_mod_plus_full (j + oy + gy / 2) q gy). f_equal. ring.
  - rewrite <- (Z_mod_plus_full (i + ox + gx / 2) p gx). f_equal. ring.
Qed.

Lemma generate_fractal2D_offset_periodic_witness :
  Fractals.generate_fractal2D 4 4 (1 + 2 * 4) (0 + -1 * 4) 4 4 1 2.5
    run_weighting run_centre run_A (fun _ _ => (0, 0)) 1 3
  = Fractals.generate_fractal2D 4 4 1 0 4 4 1 2.5
      run_weighting run_centre run_A (fun _ _ => (0, 0)) 1 3.
Proof.
  apply (generate_fractal2D_offset_periodic 4 4 1 0 4 4 1 2.5
           run_weighting run_centre run_A (fun _ _ => (0, 0)) 2 (-1) 1 3).
  lra.
Defined.

(** X19. A part of a surface generated with offsets is that part of the
    surface generated in one piece: the call on the [nx] x [ny] part at
    offset [(ox, oy)], given that part of [A], writes into its cell
    [(i, j)] what the call on the whole [NX] x [NY] surface with offset
    zero writes into cell [(i + ox, j + oy)]. *)
Theorem generate_fractal2D_offset_decomposition
    nx ny ox oy NX NY gx gy nthreads nthreads' D weighting v1 A S S' i j :
  0 <= D ->
  (0 <= i < nx)%Z -> (0 <= j < ny)%Z ->
  (0 <= i + ox < NX)%Z -> (0 <= j + oy < NY)%Z ->
  Fractals.generate_fractal2D nx ny ox oy gx gy nthreads D weighting v1
    (fun i j => A (i + ox)%Z (j + oy)%Z) S i j
  = Fractals.generate_fractal2D NX NY 0 0 gx gy nthreads' D weighting v1
      A S' (i + ox)%Z (j + oy)%Z.
Proof.
  intros _ Hi Hj Hi' Hj'. rewrite !generate_fractal2D_cell by assumption.
  unfold fractal_divisor, fractal_radius.
  replace (i + ox + 0 + gx / 2)%Z with (i + ox + gx / 2)%Z by ring.
  replace (j + oy + 0 + gy / 2)%Z with (j + oy + gy / 2)%Z by ring.
  reflexivity.
Qed.

Lemma generate_fractal2D_offset_decomposition_witness :
  Fractals.generate_fractal2D 2 2 2 1 4 4 1 2.5 run_weighting run_centre
    (fun i j => run_A (i + 2)%Z (j + 1)%Z) (fun _ _ => (0, 0)) 1 0
  = Fractals.generate_fractal2D 4 4 0 0 4 4 2 2.5 run_weighting run_centre
      run_A (fun _ _ => (0, 0)) (1 + 2)%Z (0 + 1)%Z.
Proof.
  apply (generate_fractal2D_offset_decomposition 2 2 2 1 4 4 4 4 1 2 2.5
           run_weighting run_centre run_A (fun _ _ => (0, 0))
           (fun _ _ => (0, 0)) 1 0); first [lra | lia].
Defined.

(** X20. For grid sizes [gx], [gy], [gz] other than zero and every
    dimension [D], [generate_fractal3D] writes [A[i,j,k] / B] into every
    cell with [0 <= i < nx], [0 <= j < ny], [0 <= k < nz], where [B] is
    [r^D] for the Euclidean distance [r] of the weighted,
    half-size-shifted, wrapped index from [v1], with 0.9 in place of an
    [r^D] equal to zero; [B] is never zero, and it is [+inf], the cell
    then receiving zero, where [r = 0] and [D < 0]; every other entry of
    [fractalvolume] is left as it was. *)
Theorem generate_fractal3D_contract
    nx ny nz ox oy oz gx gy gz nthreads D weighting v1 A V i j k :
  gx <> 0%Z -> gy <> 0%Z -> gz <> 0%Z ->
  let out :=
    Fractals.generate_fractal3D nx ny nz ox oy oz gx gy gz nthreads D
      weighting v1 A V in
  let r :=
    sqrt ((weighting 0%Z * IZR ((i + ox + gx / 2) mod gx) - v1 0%Z) ^ 2
          + (weighting 1%Z * IZR ((j + oy + gy / 2) mod gy) - v1 1%Z) ^ 2
          + (weighting 2%Z * IZR ((k + oz + gz / 2) mod gz) - v1 2%Z) ^ 2) in
  let B :=
    if Fractals.is_zero (Fractals.fpow (Fractals.Finite r) D)
    then Fractals.Finite 0.9
    else Fractals.fpow (Fractals.Finite r) D in
  ((0 <= i < nx)%Z /\ (0 <= j < ny)%Z /\ (0 <= k < nz)%Z ->
   out i j k = Fractals.Cdiv (A i j k) B /\
   B <> Fractals.Finite 0 /\
   (r = 0 -> D < 0 -> B = Fractals.PlusInf /\ out i j k = (0, 0))) /\
  (~ ((0 <= i < nx)%Z /\ (0 <= j < ny)%Z /\ (0 <= k < nz)%Z) ->
   out i j k = V i j k).
Proof.
  intros _ _ _ out r B. subst out. split.
  - intros (Hi & Hj & Hk).
    assert (Hcell :
      Fractals.generate_fractal3D nx ny nz ox oy oz gx gy gz nthreads D
        weighting v1 A V i j k = Fractals.Cdiv (A i j k) B)
      by now apply generate_fractal3D_cell.
    split; [exact Hcell|]. split; [apply guard_nonzero|].
    intros Hr HD.
    assert (HB : B = Fractals.PlusInf).
    { subst B. rewrite Hr. unfold Fractals.fpow.
      destruct (Req_dec_T 0 0) as [_ | E]; [|contradiction].
      destruct (Req_dec_T D 0) as [E | _]; [lra|].
      destruct (Rlt_dec 0 D) as [E | _]; [lra | reflexivity]. }
    split; [exact HB|]. rewrite Hcell, HB. reflexivity.
  - apply generate_fractal3D_outside.
Qed.

Lemma generate_fractal3D_contract_witness :
  Fractals.generate_fractal3D 2 2 2 0 0 0 4 4 4 1 2.5 run_weighting run_centre
    run_A3 (fun _ _ _ => (7, 0)) 1 0 1
  = (1 / Rpower 2 1.25, 0) /\
  Fractals.generate_fractal3D 2 2 2 0 0 0 4 4 4 1 2.5 run_weighting run_centre
    run_A3 (fun _ _ _ => (7, 0)) 2 0 0
  = (7, 0) /\
  Fractals.generate_fractal3D 2 2 2 0 0 0 4 4 4 1 (-1) run_weighting
    run_centre run_A3 (fun _ _ _ => (7, 0)) 0 0 0
  = (0, 0).
Proof.
  assert (Hg : 4%Z <> 0%Z) by lia.
  split; [|split].
  - pose proof (generate_fractal3D_contract 2 2 2 0 0 0 4 4 4 1 2.5
                  run_weighting run_centre run_A3 (fun _ _ _ => (7, 0)) 1 0 1
                  Hg Hg Hg) as H.
    cbv zeta in H.
    destruct (proj1 H ltac:(lia)) as (E & _). rewrite E.
    unfold run_weighting, run_centre, run_A3.
    change ((1 + 0 + 4 / 2) mod 4)%Z with 3%Z.
    change ((0 + 0 + 4 / 2) mod 4)%Z with 2%Z.
    replace ((1 * 3 - 2) ^ 2 + (1 * 2 - 2) ^ 2 + (1 * 3 - 2) ^ 2) with 2
      by lra.
    assert (H2 : 0 < 2) by lra.
    rewrite fpow_pos by (apply sqrt_lt_R0, H2).
    rewrite <- (Rpower_sqrt _ H2), Rpower_mult.
    replace (/ 2 * 2.5) with 1.25 by lra.
    rewrite is_zero_Finite by apply Rpower_neq_0.
    unfold Fractals.Cdiv, Fractals.Cdiv_real. simpl fst. simpl snd.
    f_equal. unfold Rdiv. ring.
  - pose proof (generate_fractal3D_contract 2 2 2 0 0 0 4 4 4 1 2.5
                  run_weighting run_centre run_A3 (fun _ _ _ => (7, 0)) 2 0 0
                  Hg Hg Hg) as H.
    cbv zeta in H. apply (proj2 H). lia.
  - pose proof (generate_fractal3D_contract 2 2 2 0 0 0 4 4 4 1 (-1)
                  run_weighting run_centre run_A3 (fun _ _ _ => (7, 0)) 0 0 0
                  Hg Hg Hg) as H.
    cbv zeta in H.
    destruct (proj1 H ltac:(lia)) as (_ & _ & Hinf).
    apply Hinf; [|lra].
    unfold run_weighting, run_centre.
    change ((0 + 0 + 4 / 2) mod 4)%Z with 2%Z.
    replace ((1 * 2 - 2) ^ 2 + (1 * 2 - 2) ^ 2 + (1 * 2 - 2) ^ 2) with 0
      by lra.
    apply sqrt_0.
Defined.

(** X21. The power law of [generate_fractal3D], for a dimension [D > 0]:
    the cell receives [A[i,j,k] / 0.9] if its position relative to the
    centre is zero along all three axes and
    [A[i,j,k] / (dx^2 + dy^2 + dz^2)^(D/2)] otherwise. *)
Theorem generate_fractal3D_power_law
    nx ny nz ox oy oz gx gy gz nthreads D weighting v1 A V i j k :
  0 < D -> (0 <= i < nx)%Z -> (0 <= j < ny)%Z -> (0 <= k < nz)%Z ->
  let dx := fractal_dx ox gx weighting v1 i in
  let dy := fractal_dy oy gy weighting v1 j in
  let dz := fractal_dz oz gz weighting v1 k in
  let out :=
    Fractals.generate_fractal3D nx ny nz ox oy oz gx gy gz nthreads D
      weighting v1 A V i j k in
  (dx = 0 /\ dy = 0 /\ dz = 0 -> out = Fractals.Cdiv_real (A i j k) 0.9) /\
  (~ (dx = 0 /\ dy = 0 /\ dz = 0) ->
   out = Fractals.Cdiv_real (A i j k)
           (Rpower (dx ^ 2 + dy ^ 2 + dz ^ 2) (D / 2))).
Proof.
  intros HD Hi Hj Hk dx dy dz out. subst out.
  rewrite generate_fractal3D_cell by assumption. fold dx dy dz. split.
  - intros (-> & -> & ->).
    replace (0 ^ 2 + 0 ^ 2 + 0 ^ 2) with 0 by ring.
    now rewrite divisor_at_zero.
  - intros Hne. rewrite divisor_at_pos; [reflexivity|].
    now apply sum_squares3_pos.
Qed.

Lemma generate_fractal3D_power_law_witness :
  Fractals.generate_fractal3D 4 4 4 0 0 0 4 4 4 1 2.5 run_weighting run_centre
    run_A3 (fun _ _ _ => (0, 0)) 0 0 0
  = Fractals.Cdiv_real (run_A3 0 0 0) 0.9.
Proof.
  assert (HD : 0 < 2.5) by lra.
  assert (Hi : (0 <= 0 < 4)%Z) by lia.
  pose proof (generate_fractal3D_power_law 4 4 4 0 0 0 4 4 4 1 2.5
                run_weighting run_centre run_A3 (fun _ _ _ => (0, 0)) 0 0 0
                HD Hi Hi Hi) as H.
  cbv zeta in H. apply (proj1 H).
  unfold fractal_dx, fractal_dy, fractal_dz, run_weighting, run_centre.
  change ((0 + 0 + 4 / 2) mod 4)%Z with 2%Z. repeat split; lra.
Defined.

(** X22. The plane of a volume that passes through the centre is the
    surface: where the position along z relative to the centre is zero,
    [generate_fractal3D] writes what [generate_fractal2D], given that
    plane of [A], writes into the cell of the same [i] and [j]. *)
Theorem generate_fractal3D_centre_plane
    nx ny nz ox oy oz gx gy gz nthreads nthreads' D weighting v1 A V S i j k :
  0 <= D -> (0 <= i < nx)%Z -> (0 <= j < ny)%Z -> (0 <= k < nz)%Z ->
  weighting 2%Z * IZR ((k + oz + gz / 2) mod gz) = v1 2%Z ->
  Fractals.generate_fractal3D nx ny nz ox oy oz gx gy gz nthreads D
    weighting v1 A V i j k
  = Fractals.generate_fractal2D nx ny ox oy gx gy nthreads' D weighting v1
      (fun i j => A i j k) S i j.
Proof.
  intros _ Hi Hj Hk Hz.
  rewrite generate_fractal3D_cell, generate_fractal2D_cell by assumption.
  rewrite fractal_divisor_at. f_equal. f_equal.
  unfold fractal_dz. rewrite Hz. ring.
Qed.

Lemma generate_fractal3D_centre_plane_witness :
  Fractals.generate_fractal3D 4 4 4 0 0 0 4 4 4 1 2.5 run_weighting run_centre
    run_A3 (fun _ _ _ => (0, 0)) 1 3 0
  = Fractals.generate_fractal2D 4 4 0 0 4 4 1 2.5 run_weighting run_centre
      (fun i j => run_A3 i j 0%Z) (fun _ _ => (0, 0)) 1 3.
Proof.
  apply (generate_fractal3D_centre_plane 4 4 4 0 0 0 4 4 4 1 1 2.5
           run_weighting run_centre run_A3 (fun _ _ _ => (0, 0))
           (fun _ _ => (0, 0)) 1 3 0); try lia; try lra.
  unfold run_weighting, run_centre.
  change ((0 + 0 + 4 / 2) mod 4)%Z with 2%Z. lra.
Defined.

(** X23. A part of a volume generated with offsets is that part of the
    volume generated in one piece: the call on the [nx] x [ny] x [nz] part
    at offset [(ox, oy, oz)], given that part of [A], writes into its cell
    [(i, j, k)] what the call on the whole volume with offset zero writes
    into cell [(i + ox, j + oy, k + oz)]. *)
Theorem generate_fractal3D_offset_decomposition
    nx ny nz ox oy oz NX NY NZ gx gy gz nthreads nthreads' D weighting v1
    A V V' i j k :
  0 <= D ->
  (0 <= i < nx)%Z -> (0 <= j < ny)%Z -> (0 <= k < nz)%Z ->
  (0 <= i + ox < NX)%Z -> (0 <= j + oy < NY)%Z -> (0 <= k + oz < NZ)%Z ->
  Fractals.generate_fractal3D nx ny nz ox oy oz gx gy gz nthreads D
    weighting v1 (fun i j k => A (i + ox)%Z (j + oy)%Z (k + oz)%Z) V i j k
  = Fractals.generate_fractal3D NX NY NZ 0 0 0 gx gy gz nthreads' D
      weighting v1 A V' (i + ox)%Z (j + oy)%Z (k + oz)%Z.
Proof.
  intros _ Hi Hj Hk Hi' Hj' Hk'.
  rewrite !generate_fractal3D_cell by assumption.
  unfold fractal_dx, fractal_dy, fractal_dz.
  replace (i + ox + 0 + gx / 2)%Z with (i + ox + gx / 2)%Z by ring.
  replace (j + oy + 0 + gy / 2)%Z with (j + oy + gy / 2)%Z by ring.
  replace (k + oz + 0 + gz / 2)%Z with (k + oz + gz / 2)%Z by ring.
  reflexivity.
Qed.

Lemma generate_fractal3D_offset_decomposition_witness :
  Fractals.generate_fractal3D 2 2 2 2 1 0 4 4 4 1 2.5 run_weighting run_centre
    (fun i j k => run_A3 (i + 2)%Z (j + 1)%Z (k + 0)%Z)
    (fun _ _ _ => (0, 0)) 1 0 1
  = Fractals.generate_fractal3D 4 4 4 0 0 0 4 4 4 2 2.5 run_weighting
      run_centre run_A3 (fun _ _ _ => (0, 0)) (1 + 2)%Z (0 + 1)%Z (1 + 0)%Z.
Proof.
  apply (generate_fractal3D_offset_decomposition 2 2 2 2 1 0 4 4 4 4 4 4 1 2
           2.5 run_weighting run_centre run_A3 (fun _ _ _ => (0, 0))
           (fun _ _ _ => (0, 0)) 1 0 1); first [lra | lia].
Defined.

(** ** The slabs of a grid in any order *)

(** X24. Two slab calls of the same kind, magnetic or electric, on any two
    faces, orders and slabs, each with auxiliary arrays and profiles of
    its own.  A field entry that only one of the two calls assigns holds,
    after both calls in either order, what that call leaves when run
    alone: no arithmetic is reordered there, and slabs whose written
    regions do not overlap can be updated in any order.  Where both calls
    assign an entry, what they add to it adds up, so that in exact
    arithmetic, without the rounding of the floating-point sums, the two
    orders leave the same fields.  The auxiliary arrays a call leaves are
    those it leaves when run alone. *)
Theorem slab_calls_commute kd fA oA xsA xfA ysA yfA zsA zfA ntA dA pA
    fB oB xsB xfB ysB yfB zsB zfB ntB dB pB m :
  let A := fun m =>
    kernel (EV := Exact) kd fA oA xsA xfA ysA yfA zsA zfA ntA dA
      (with_slab m pA) in
  let B := fun m =>
    kernel (EV := Exact) kd fB oB xsB xfB ysB yfB zsB zfB ntB dB
      (with_slab m pB) in
  (forall cp x y z, ~ assigns kd fA xsA xfA ysA yfA zsA zfA cp x y z ->
     field cp (B (A m)) x y z = field cp (B m) x y z /\
     field cp (A (B m)) x y z = field cp (B m) x y z) /\
  (forall cp x y z, ~ assigns kd fB xsB xfB ysB yfB zsB zfB cp x y z ->
     field cp (B (A m)) x y z = field cp (A m) x y z /\
     field cp (A (B m)) x y z = field cp (A m) x y z) /\
  (forall cp x y z, field cp (B (A m)) x y z = field cp (A (B m)) x y z) /\
  (forall cp x y z,
     field cp (B (A m)) x y z
     = field cp (A m) x y z + field cp (B m) x y z - field cp m x y z) /\
  (forall r i j k,
     Phi1 (B (A m)) r i j k = Phi1 (B m) r i j k /\
     Phi2 (B (A m)) r i j k = Phi2 (B m) r i j k) /\
  (forall r i j k,
     Phi1 (A (B m)) r i j k = Phi1 (A m) r i j k /\
     Phi2 (A (B m)) r i j k = Phi2 (A m) r i j k).
Proof.
  intros A B. subst A B. cbv beta.
  pose proof (slab_call_then kd fA oA xsA xfA ysA yfA zsA zfA ntA dA pA
                fB oB xsB xfB ysB yfB zsB zfB ntB dB pB m) as HAB.
  pose proof (slab_call_then kd fB oB xsB xfB ysB yfB zsB zfB ntB dB pB
                fA oA xsA xfA ysA yfA zsA zfA ntA dA pA m) as HBA.
  cbv zeta beta in HAB, HBA.
  destruct HAB as [HAB PAB]. destruct HBA as [HBA PBA].
  split; [|split; [|split; [|split; [exact HAB | split;
                                     [exact PAB | exact PBA]]]]].
  - intros cp x y z Hn.
    pose proof (kernel_not_assigned kd fA oA xsA xfA ysA yfA zsA zfA ntA dA
                  (with_slab m pA) cp x y z Hn) as E.
    rewrite field_with_slab in E.
    rewrite HAB, HBA, E. split; ring.
  - intros cp x y z Hn.
    pose proof (kernel_not_assigned kd fB oB xsB xfB ysB yfB zsB zfB ntB dB
                  (with_slab m pB) cp x y z Hn) as E.
    rewrite field_with_slab in E.
    rewrite HAB, HBA, E. split; ring.
  - intros cp x y z. rewrite HAB, HBA. ring.
Qed.

Lemma slab_calls_commute_witness :
  field cHy
    (kernel (EV := Exact) Magnetic xplus order1 4 6 0 2 0 2 1 1
       (with_slab
          (kernel (EV := Exact) Magnetic xminus order2 0 2 0 2 0 2 1 1
             (with_slab sample_mem sample_mem))
          sample_mem)) 5 1 1
  = field cHy
      (kernel (EV := Exact) Magnetic xplus order1 4 6 0 2 0 2 1 1
         (with_slab sample_mem sample_mem)) 5 1 1
  /\ field cHy
       (kernel (EV := Exact) Magnetic xplus order1 4 6 0 2 0 2 1 1
          (with_slab sample_mem sample_mem)) 5 1 1 = 34
  /\ field cHy sample_mem 5 1 1 = 7.
Proof.
  assert (Hin : in_slab 4 6 0 2 0 2 1 1 1) by (unfold in_slab; lia).
  assert (Hn : ~ assigns Magnetic xminus 0 2 0 2 0 2 cHy 5 1 1).
  { unfold assigns, written. cbn [normal_shift]. lia. }
  split; [|split].
  - pose proof (slab_calls_commute Magnetic
                  xminus order2 0 2 0 2 0 2 1 1 sample_mem
                  xplus order1 4 6 0 2 0 2 1 1 sample_mem sample_mem) as H.
    cbv zeta beta in H. exact (proj1 (proj1 H cHy 5%Z 1%Z 1%Z Hn)).
  - etransitivity;
      [ exact (kernel_cell_field Magnetic xplus order1 4 6 0 2 0 2 1 1
                 (with_slab sample_mem sample_mem) 1 1 1 cHy Hin)
      | cbn; lra ].
  - cbn. lra.
Defined.

(** ** Everything a call reads *)

(** X25. The access footprint of a call.  The entries a call writes (its
    two target components on the written region, rows of [Phi1], [Phi2]
    below its order on the local slab) are determined by: column 4 of the
    update-coefficient table of its kind; [ID] of the two target
    components and the target components themselves on the written
    region; the two source components on the read region; rows of the
    profiles below its order at indices within the depth of the slab; and
    rows of the auxiliary arrays below its order on the local slab.  Two
    memories that agree on these, and differ anywhere else, give the same
    entries. *)
Theorem kernel_access_footprint kd f o xs xf ys yf zs zf nthreads d m1 m2 :
  (forall material,
     updatecoeffs kd m1 material 4 = updatecoeffs kd m2 material 4) ->
  (forall x y z, written kd f xs xf ys yf zs zf x y z ->
     ID m1 (component_id (target1 kd f)) x y z
     = ID m2 (component_id (target1 kd f)) x y z /\
     ID m1 (component_id (target2 kd f)) x y z
     = ID m2 (component_id (target2 kd f)) x y z /\
     field (target1 kd f) m1 x y z = field (target1 kd f) m2 x y z /\
     field (target2 kd f) m1 x y z = field (target2 kd f) m2 x y z) ->
  (forall x y z, read kd f xs xf ys yf zs zf x y z ->
     field (source1 kd f) m1 x y z = field (source1 kd f) m2 x y z /\
     field (source2 kd f) m1 x y z = field (source2 kd f) m2 x y z) ->
  (forall r n, (0 <= r < rows o)%Z ->
     (0 <= n < depth f xs xf ys yf zs zf)%Z ->
     RA m1 r n = RA m2 r n /\ RB m1 r n = RB m2 r n /\
     RE m1 r n = RE m2 r n /\ RF m1 r n = RF m2 r n) ->
  (forall r i j k, (0 <= r < rows o)%Z -> in_slab xs xf ys yf zs zf i j k ->
     Phi1 m1 r i j k = Phi1 m2 r i j k /\
     Phi2 m1 r i j k = Phi2 m2 r i j k) ->
  let K := kernel (EV := Exact) kd f o xs xf ys yf zs zf nthreads d in
  (forall x y z, written kd f xs xf ys yf zs zf x y z ->
     field (target1 kd f) (K m1) x y z = field (target1 kd f) (K m2) x y z /\
     field (target2 kd f) (K m1) x y z = field (target2 kd f) (K m2) x y z) /\
  (forall r i j k, (0 <= r < rows o)%Z -> in_slab xs xf ys yf zs zf i j k ->
     Phi1 (K m1) r i j k = Phi1 (K m2) r i j k /\
     Phi2 (K m1) r i j k = Phi2 (K m2) r i j k).
Proof.
  intros Hc Hcell Hsrc Hprof HPhi K. subst K.
  assert (Hd1 : forall i j k, in_slab xs xf ys yf zs zf i j k ->
            curl_diff kd (normal f) (field (source1 kd f) m1)
              (gx kd f xs xf i) (gy kd f ys yf j) (gz kd f zs zf k) d
            = curl_diff kd (normal f) (field (source1 kd f) m2)
                (gx kd f xs xf i) (gy kd f ys yf j) (gz kd f zs zf k) d).
  { intros i j k Hin. apply curl_diff_read with (1 := Hin).
    intros x y z Hr. apply Hsrc, Hr. }
  assert (Hd2 : forall i j k, in_slab xs xf ys yf zs zf i j k ->
            curl_diff kd (normal f) (field (source2 kd f) m1)
              (gx kd f xs xf i) (gy kd f ys yf j) (gz kd f zs zf k) d
            = curl_diff kd (normal f) (field (source2 kd f) m2)
                (gx kd f xs xf i) (gy kd f ys yf j) (gz kd f zs zf k) d).
  { intros i j k Hin. apply curl_diff_read with (1 := Hin).
    intros x y z Hr. apply Hsrc, Hr. }
  assert (Hrow : forall i j k, in_slab xs xf ys yf zs zf i j k ->
            forall r, (0 <= r < rows o)%Z ->
              RA m1 r (profile_index f i j k) = RA m2 r (profile_index f i j k)
              /\ RB m1 r (profile_index f i j k)
                 = RB m2 r (profile_index f i j k)
              /\ RE m1 r (profile_index f i j k)
                 = RE m2 r (profile_index f i j k)
              /\ RF m1 r (profile_index f i j k)
                 = RF m2 r (profile_index f i j k)).
  { intros i j k Hin r Hr. apply Hprof; [exact Hr|].
    now apply profile_index_depth. }
  assert (Hrow1 : forall i j k, in_slab xs xf ys yf zs zf i j k ->
            o = order2 ->
            Phi1 m1 1 i j k = Phi1 m2 1 i j k /\
            Phi2 m1 1 i j k = Phi2 m2 1 i j k).
  { intros i j k Hin ->. apply HPhi; [cbn [rows]; lia | exact Hin]. }
  assert (Hrow0 : forall i j k, in_slab xs xf ys yf zs zf i j k ->
            Phi1 m1 0 i j k = Phi1 m2 0 i j k /\
            Phi2 m1 0 i j k = Phi2 m2 0 i j k).
  { intros i j k Hin. apply HPhi; [destruct o; cbn [rows]; lia | exact Hin]. }
  split.
  - intros x y z Hw.
    destruct (Hcell x y z Hw) as (HI1 & HI2 & HT1 & HT2).
    apply touched_written in Hw.
    destruct Hw as (i & j & k & Hin & -> & -> & ->).
    rewrite !kernel_cell_field by assumption.
    unfold next_field, law_field. cbv zeta.
    rewrite (Hd1 i j k Hin), (Hd2 i j k Hin), HI1, HI2, HT1, HT2, !Hc.
    rewrite (proj1 (Hrow0 i j k Hin)), (proj2 (Hrow0 i j k Hin)).
    rewrite (correction_rows kd o m1 m2 _ _ _ (Phi1 m1 1 i j k)
               (Phi1 m2 1 i j k) (Hrow i j k Hin)
               (fun E => proj1 (Hrow1 i j k Hin E))).
    rewrite (correction_rows kd o m1 m2 _ _ _ (Phi2 m1 1 i j k)
               (Phi2 m2 1 i j k) (Hrow i j k Hin)
               (fun E => proj2 (Hrow1 i j k Hin E))).
    split; reflexivity.
  - intros r i j k Hr Hin.
    assert (Hr2 : (0 <= r < 2)%Z) by (destruct o; cbn [rows] in Hr; lia).
    destruct (kernel_cell_Phi kd f o xs xf ys yf zs zf nthreads d
                m1 r i j k Hin Hr2) as [-> ->].
    destruct (kernel_cell_Phi kd f o xs xf ys yf zs zf nthreads d
                m2 r i j k Hin Hr2) as [-> ->].
    unfold next_Phi1, next_Phi2, law_Phi1, law_Phi2. cbv zeta.
    rewrite (Hd1 i j k Hin), (Hd2 i j k Hin).
    rewrite (proj1 (Hrow0 i j k Hin)), (proj2 (Hrow0 i j k Hin)).
    destruct (next_phi_rows kd o m1 m2 (profile_index f i j k)
                (curl_diff kd (normal f) (field (source1 kd f) m2)
                   (gx kd f xs xf i) (gy kd f ys yf j) (gz kd f zs zf k) d)
                (Phi1 m2 0 i j k) (Phi1 m1 1 i j k) (Phi1 m2 1 i j k)
                (Hrow i j k Hin) (fun E => proj1 (Hrow1 i j k Hin E)))
      as [A0 A1].
    destruct (next_phi_rows kd o m1 m2 (profile_index f i j k)
                (curl_diff kd (normal f) (field (source2 kd f) m2)
                   (gx kd f xs xf i) (gy kd f ys yf j) (gz kd f zs zf k) d)
                (Phi2 m2 0 i j k) (Phi2 m1 1 i j k) (Phi2 m2 1 i j k)
                (Hrow i j k Hin) (fun E => proj2 (Hrow1 i j k Hin E)))
      as [B0 B1].
    destruct (Z.eqb_spec r 0) as [-> | Hne].
    + split; assumption.
    + assert (Ho : o = order2) by (destruct o; [cbn [rows] in Hr; lia | reflexivity]).
      split; [exact (A1 Ho) | exact (B1 Ho)].
Qed.

Lemma kernel_access_footprint_witness :
  field cHy
    (kernel (EV := Exact) Magnetic xminus order1 0 2 0 1 0 1 1 1 sample_mem)
    1 0 0
  = field cHy
      (kernel (EV := Exact) Magnetic xminus order1 0 2 0 1 0 1 1 1
         off_footprint_mem) 1 0 0.
Proof.
  assert (Hprof : forall r n, (0 <= r < rows order1)%Z ->
            (0 <= n < depth xminus 0 2 0 1 0 1)%Z ->
            RA sample_mem r n = RA off_footprint_mem r n /\
            RB sample_mem r n = RB off_footprint_mem r n /\
            RE sample_mem r n = RE off_footprint_mem r n /\
            RF sample_mem r n = RF off_footprint_mem r n).
  { intros r n Hr _. cbn [rows] in Hr. assert (r = 0%Z) as -> by lia.
    repeat split. }
  assert (HPhi : forall r i j k, (0 <= r < rows order1)%Z ->
            in_slab 0 2 0 1 0 1 i j k ->
            Phi1 sample_mem r i j k = Phi1 off_footprint_mem r i j k /\
            Phi2 sample_mem r i j k = Phi2 off_footprint_mem r i j k).
  { intros r i j k Hr _. cbn [rows] in Hr. assert (r = 0%Z) as -> by lia.
    split; reflexivity. }
  pose proof (kernel_access_footprint Magnetic xminus order1 0 2 0 1 0 1 1 1
                sample_mem off_footprint_mem
                (fun _ => eq_refl)
                (fun _ _ _ _ =>
                   conj eq_refl (conj eq_refl (conj eq_refl eq_refl)))
                (fun _ _ _ _ => conj eq_refl eq_refl)
                Hprof HPhi) as H.
  cbv zeta in H.
  apply (proj1 (proj1 H 1%Z 0%Z 0%Z ltac:(unfold written; cbn; lia))).
Defined.
